(** * authzed/consistent: a consistent hashring and its gRPC balancer

    A shallow embedding of [hashring/hashring.go] (package [hashring]) and of
    the balancer (package [consistent]) together with the properties the
    specification states about them.

    Conventions of the embedding:
    - Go's [uint64], [uint16], [uint8] and [int] values are [Z] (hash values,
      the replication factor) or [nat] (slice lengths and indices, which
      never wrap);
    - a Go [string] is a [string], [[]byte] is [list byte];
    - [map[string]nodeRecord] is [gmap string nodeRecord], the set
      [map[string]struct{}] is [gset string];
    - a method with a pointer receiver takes the receiver's value and gives
      the new value back beside its results;
    - a run-time panic (index out of range, failed type assertion) is the
      [Panicked] outcome of [exec]. *)

From Stdlib Require Import ZArith Lia.
From Stdlib Require Import Strings.String Strings.Ascii Strings.Byte.
From Stdlib Require Import Structures.OrderedTypeEx.
From stdpp Require Import base gmap strings list sorting.

Local Open Scope Z_scope.
Set Warnings "-register-all,-clear-no-such-hyp".

(** ** The parts of Go's standard library the program calls *)

Module Go.

(** Outcome of a call that may panic. *)
Inductive exec (A : Type) : Type :=
| Done (a : A)
| Panicked.
Arguments Done {A} a.
Arguments Panicked {A}.

(** [fmt.Errorf]'s operands. *)
Inductive fmt_arg : Type :=
| ArgInt (z : Z)
| ArgString (s : string).

(** Go [error] values: [errors.New], [fmt.Errorf] (with the error it wraps
    through [%w], if any) and [errors.Join]. A nil [error] is [None] of
    [option error]. *)
Inductive error : Type :=
| errors_New (text : string)
| fmt_Errorf (format : string) (args : list fmt_arg) (wrapped : option error)
| joinError (errs : list error).

(** [errors.Join]: nil operands are dropped; nil when nothing is left. *)
Definition errors_Join (errs : list (option error)) : option error :=
  match omap id errs with
  | [] => None
  | es => Some (joinError es)
  end.

(** [byte(v)]: conversion of an unsigned integer to [uint8] keeps the low
    eight bits. *)
Definition byte_of_Z (v : Z) : byte :=
  match Byte.of_N (Z.to_N (Z.land v 255)) with
  | Some b => b
  | None => x00
  end.

Definition Z_of_byte (b : byte) : Z := Z.of_N (Byte.to_N b).

(** [binary.LittleEndian.PutUint64(b[off:], v)]:
    [b[0] = byte(v); b[1] = byte(v >> 8); ... b[7] = byte(v >> 56)]. *)
Definition PutUint64 (b : list byte) (off : nat) (v : Z) : list byte :=
  let b := <[(off + 0)%nat := byte_of_Z v]> b in
  let b := <[(off + 1)%nat := byte_of_Z (Z.shiftr v 8)]> b in
  let b := <[(off + 2)%nat := byte_of_Z (Z.shiftr v 16)]> b in
  let b := <[(off + 3)%nat := byte_of_Z (Z.shiftr v 24)]> b in
  let b := <[(off + 4)%nat := byte_of_Z (Z.shiftr v 32)]> b in
  let b := <[(off + 5)%nat := byte_of_Z (Z.shiftr v 40)]> b in
  let b := <[(off + 6)%nat := byte_of_Z (Z.shiftr v 48)]> b in
  <[(off + 7)%nat := byte_of_Z (Z.shiftr v 56)]> b.

(** [binary.LittleEndian.PutUint16(b[off:], v)]:
    [b[0] = byte(v); b[1] = byte(v >> 8)]. *)
Definition PutUint16 (b : list byte) (off : nat) (v : Z) : list byte :=
  let b := <[(off + 0)%nat := byte_of_Z v]> b in
  <[(off + 1)%nat := byte_of_Z (Z.shiftr v 8)]> b.

(** [make([]byte, n)]. *)
Definition make_bytes (n : nat) : list byte := replicate n x00.

(** [strings.Compare]: lexicographic comparison of the bytes, as -1, 0, +1. *)
Definition strings_Compare (a b : string) : Z :=
  match String.compare a b with
  | Lt => -1
  | Eq => 0
  | Gt => 1
  end.

(** [sort.Search(n, f)]: the binary search of package [sort],
    [i, j := 0, n; for i < j { h := int(uint(i+j) >> 1);
       if !f(h) { i = h + 1 } else { j = h } }; return i].
    Every turn shrinks [j - i], so [n] turns always suffice. *)
Fixpoint search_loop (fuel : nat) (i j : nat) (f : nat → bool) : nat :=
  match fuel with
  | O => i
  | S fuel' =>
      if (i <? j)%nat then
        let h := ((i + j) / 2)%nat in
        if negb (f h) then search_loop fuel' (h + 1)%nat j f
        else search_loop fuel' i h f
      else i
  end.

Definition sort_Search (n : nat) (f : nat → bool) : nat := search_loop n 0%nat n f.

(** [slices.SortFunc(x, cmp)] sorts [x] in ascending order as [cmp] decides
    ([cmp a b < 0]: [a] goes first). The library's algorithm is pattern-
    defeating quicksort; what the program relies on is that the outcome is a
    rearrangement of [x] in which no element is followed by one that compares
    below it. It is modelled by stdpp's merge sort, and the development uses
    it through [SortFunc_Permutation] and [SortFunc_Sorted] only; the
    comparison of the two versions of the package also uses that the outcome
    depends on [cmp] through its answers alone. *)
Definition notAfter {A : Type} (cmp : A → A → Z) : relation A :=
  λ a b, cmp a b ≤ 0.

#[global] Instance notAfter_dec {A : Type} (cmp : A → A → Z) :
  RelDecision (notAfter cmp) := λ a b, Z_le_dec (cmp a b) 0.

Definition SortFunc {A : Type} (x : list A) (cmp : A → A → Z) : list A :=
  merge_sort (notAfter cmp) x.

(** [sort.Slice(idx, func(i, j) bool { return idx[j] < idx[i] })]: the
    reverse sort of a slice of [int]. *)
Definition sortDescending (idx : list nat) : list nat :=
  merge_sort (flip Nat.le) idx.

(** ** Byte-wise order of strings *)

(** Lexicographic order of byte sequences: the first differing byte decides,
    and a proper prefix goes first. *)
Fixpoint bytes_le (a b : list byte) : Prop :=
  match a, b with
  | [], _ => True
  | _ :: _, [] => False
  | x :: a', y :: b' =>
      (Byte.to_N x < Byte.to_N y)%N ∨ (x = y ∧ bytes_le a' b')
  end.

Lemma N_of_ascii_byte (c : ascii) : Byte.to_N (byte_of_ascii c) = N_of_ascii c.
Proof.
  apply Byte.to_of_N. symmetry. apply byte_of_ascii_via_N.
Qed.

Lemma byte_of_ascii_inj (c d : ascii) : byte_of_ascii c = byte_of_ascii d → c = d.
Proof.
  intros E. rewrite <- (ascii_of_byte_of_ascii c), <- (ascii_of_byte_of_ascii d).
  now rewrite E.
Qed.

Lemma list_byte_of_string_cons (c : ascii) (s : string) :
  list_byte_of_string (String c s) = byte_of_ascii c :: list_byte_of_string s.
Proof. reflexivity. Qed.

Lemma compare_bytes_le (a b : string) :
  String.compare a b ≠ Gt ↔ bytes_le (list_byte_of_string a) (list_byte_of_string b).
Proof.
  revert b. induction a as [|c a IH]; intros [|d b].
  - simpl. split; [tauto | discriminate].
  - simpl. split; [tauto | discriminate].
  - simpl. split; [congruence | tauto].
  - rewrite !list_byte_of_string_cons. cbn [String.compare bytes_le].
    rewrite !N_of_ascii_byte. unfold Ascii.compare.
    destruct (N.compare_spec (N_of_ascii c) (N_of_ascii d)) as [E|L|G].
    + rewrite IH. split.
      * intros Hle. right. split; [|exact Hle].
        f_equal. rewrite <- (ascii_N_embedding c), <- (ascii_N_embedding d).
        now rewrite E.
      * intros [L|[_ Hle]]; [lia | exact Hle].
    + split; [intros _; now left | discriminate].
    + split; [congruence |].
      intros [L|[E _]]; [lia |].
      apply byte_of_ascii_inj in E. subst. lia.
Qed.

Lemma strings_Compare_range (a b : string) : -1 ≤ strings_Compare a b ≤ 1.
Proof. unfold strings_Compare. destruct (String.compare a b); lia. Qed.

Lemma strings_Compare_eq (a b : string) : strings_Compare a b = 0 ↔ a = b.
Proof.
  rewrite <- String_as_OT.cmp_eq. unfold strings_Compare, String_as_OT.cmp.
  destruct (String.compare a b); split; congruence || lia.
Qed.

Lemma strings_Compare_antisym (a b : string) :
  strings_Compare a b = - strings_Compare b a.
Proof.
  unfold strings_Compare. rewrite (String.compare_antisym a b).
  destruct (String.compare b a); reflexivity.
Qed.

Lemma strings_Compare_lt (a b : string) :
  strings_Compare a b < 0 ↔ String_as_OT.lt a b.
Proof.
  rewrite <- String_as_OT.cmp_lt. unfold strings_Compare, String_as_OT.cmp.
  destruct (String.compare a b); split; congruence || lia.
Qed.

Lemma strings_Compare_trans (a b c : string) :
  strings_Compare a b ≤ 0 → strings_Compare b c ≤ 0 → strings_Compare a c ≤ 0.
Proof.
  intros Hab Hbc.
  destruct (decide (a = b)) as [->|Nab]; [exact Hbc|].
  destruct (decide (b = c)) as [->|Nbc]; [exact Hab|].
  assert (strings_Compare a b < 0) as L1.
  { destruct (Z.eq_dec (strings_Compare a b) 0) as [E|E]; [|lia].
    apply strings_Compare_eq in E. contradiction. }
  assert (strings_Compare b c < 0) as L2.
  { destruct (Z.eq_dec (strings_Compare b c) 0) as [E|E]; [|lia].
    apply strings_Compare_eq in E. contradiction. }
  apply strings_Compare_lt in L1, L2.
  pose proof (String_as_OT.lt_trans _ _ _ L1 L2) as L3.
  apply strings_Compare_lt in L3. lia.
Qed.

Lemma strings_Compare_le (a b : string) :
  strings_Compare a b ≤ 0 ↔ bytes_le (list_byte_of_string a) (list_byte_of_string b).
Proof.
  rewrite <- compare_bytes_le. unfold strings_Compare.
  destruct (String.compare a b); split; congruence || lia.
Qed.

(** ** Little-endian encoding *)

(** The byte whose value is [z], for [0 ≤ z < 256]. *)
Definition byte_with_value (z : Z) : byte :=
  match Byte.of_N (Z.to_N z) with
  | Some b => b
  | None => x00
  end.

(** The [n]-byte little-endian encoding of [v]: byte [k] is digit [k] of [v]
    in base 256, least significant digit first. *)
Definition littleEndian (n : nat) (v : Z) : list byte :=
  (λ k : nat, byte_with_value ((v / 256 ^ Z.of_nat k) mod 256)) <$> seq 0 n.

(** The number a little-endian byte sequence stands for. *)
Fixpoint fromLittleEndian (bs : list byte) : Z :=
  match bs with
  | [] => 0
  | b :: bs' => Z_of_byte b + 256 * fromLittleEndian bs'
  end.

Lemma byte_of_Z_digit (v : Z) (k : nat) :
  byte_of_Z (Z.shiftr v (8 * Z.of_nat k)) =
  byte_with_value ((v / 256 ^ Z.of_nat k) mod 256).
Proof.
  unfold byte_of_Z, byte_with_value.
  change 255 with (Z.ones 8). rewrite Z.land_ones by lia.
  rewrite Z.shiftr_div_pow2 by lia.
  rewrite Z.pow_mul_r by lia. reflexivity.
Qed.

Lemma Z_of_byte_with_value (z : Z) :
  0 ≤ z < 256 → Z_of_byte (byte_with_value z) = z.
Proof.
  intros Hz. unfold Z_of_byte, byte_with_value.
  destruct (Byte.of_N (Z.to_N z)) as [b|] eqn:E.
  - apply Byte.to_of_N in E. rewrite E. lia.
  - apply Byte.of_N_None_iff in E. lia.
Qed.

Lemma littleEndian_length (n : nat) (v : Z) : length (littleEndian n v) = n.
Proof. unfold littleEndian. now rewrite length_fmap, length_seq. Qed.

Lemma littleEndian_S (n : nat) (v : Z) :
  littleEndian (S n) v = byte_with_value (v mod 256) :: littleEndian n (v / 256).
Proof.
  unfold littleEndian. cbn [seq fmap list_fmap]. f_equal.
  - now rewrite Z.pow_0_r, Z.div_1_r.
  - rewrite <- seq_shift, <- list_fmap_compose.
    apply list_fmap_ext. intros _ k _. cbn.
    rewrite Nat2Z.inj_succ, Z.pow_succ_r by lia.
    now rewrite Z.div_div by lia.
Qed.

(** Decoding undoes encoding: [littleEndian n] is the little-endian
    representation of every [n]-byte unsigned number. *)
Lemma fromLittleEndian_littleEndian (n : nat) (v : Z) :
  0 ≤ v < 256 ^ Z.of_nat n → fromLittleEndian (littleEndian n v) = v.
Proof.
  revert v. induction n as [|n IH]; intros v Hv.
  - cbn in *. lia.
  - rewrite littleEndian_S. cbn [fromLittleEndian].
    rewrite Z_of_byte_with_value by (apply Z.mod_pos_bound; lia).
    rewrite IH.
    + pose proof (Z.div_mod v 256). lia.
    + rewrite Nat2Z.inj_succ, Z.pow_succ_r in Hv by lia.
      split; [apply Z.div_pos; lia | apply Z.div_lt_upper_bound; lia].
Qed.

(** [PutUint64] and [PutUint16] write the little-endian encodings. *)
Lemma PutUint64_littleEndian (b : list byte) (v : Z) :
  length b = 8%nat → PutUint64 b 0 v = littleEndian 8 v.
Proof.
  intros Hb. do 9 (destruct b as [|? b]; try discriminate Hb).
  unfold PutUint64, littleEndian. cbn [seq fmap list_fmap Nat.add insert list_insert].
  change 8 with (8 * Z.of_nat 1) at 1. change 16 with (8 * Z.of_nat 2).
  change 24 with (8 * Z.of_nat 3). change 32 with (8 * Z.of_nat 4).
  change 40 with (8 * Z.of_nat 5). change 48 with (8 * Z.of_nat 6).
  change 56 with (8 * Z.of_nat 7).
  rewrite <- (Z.shiftr_0_r v) at 1. change 0 with (8 * Z.of_nat 0) at 1.
  now rewrite !byte_of_Z_digit.
Qed.

Lemma PutUint16_littleEndian (b : list byte) (v : Z) :
  length b = 2%nat → PutUint16 b 0 v = littleEndian 2 v.
Proof.
  intros Hb. do 3 (destruct b as [|? b]; try discriminate Hb).
  unfold PutUint16, littleEndian. cbn [seq fmap list_fmap Nat.add insert list_insert].
  change 8 with (8 * Z.of_nat 1) at 1.
  rewrite <- (Z.shiftr_0_r v) at 1. change 0 with (8 * Z.of_nat 0) at 1.
  now rewrite !byte_of_Z_digit.
Qed.

Lemma PutUint_offset (b1 b2 : list byte) (v : Z) :
  PutUint16 (b1 ++ b2) (length b1) v = b1 ++ PutUint16 b2 0 v.
Proof.
  unfold PutUint16.
  rewrite !insert_app_r_alt by lia.
  repeat f_equal; lia.
Qed.

(** The buffer [Add] hashes for virtual node [i] of a member whose key
    hashes to [nodeHash]. *)
Lemma virtualNodeBuffer_littleEndian (b : list byte) (nodeHash i : Z) :
  length b = 10%nat →
  PutUint16 (PutUint64 b 0 nodeHash) 8 i = littleEndian 8 nodeHash ++ littleEndian 2 i.
Proof.
  intros Hb. do 11 (destruct b as [|? b]; try discriminate Hb).
  transitivity (PutUint16 (PutUint64 [b0;b1;b2;b3;b4;b5;b6;b7] 0 nodeHash ++ [b8; b9]) 8 i).
  { reflexivity. }
  rewrite PutUint64_littleEndian by reflexivity.
  change 8%nat with (length (littleEndian 8 nodeHash)) at 1.
  rewrite PutUint_offset, PutUint16_littleEndian by reflexivity.
  reflexivity.
Qed.

(** ** Binary search *)

Lemma search_loop_spec (n : nat) (f : nat → bool) :
  (∀ a b : nat, (a ≤ b < n)%nat → f a = true → f b = true) →
  ∀ (fuel i j : nat),
    (i ≤ j ≤ n)%nat → (j - i ≤ fuel)%nat →
    (∀ k : nat, (k < i)%nat → f k = false) →
    (∀ k : nat, (j ≤ k < n)%nat → f k = true) →
    let r := search_loop fuel i j f in
    (i ≤ r ≤ j)%nat ∧
    (∀ k : nat, (k < r)%nat → f k = false) ∧
    (∀ k : nat, (r ≤ k < n)%nat → f k = true).
Proof.
  intros Hmono fuel. induction fuel as [|fuel IH]; intros i j Hij Hfuel Hlo Hhi.
  - cbn. assert (i = j) by lia. subst. auto with lia.
  - cbn [search_loop]. destruct (Nat.ltb_spec i j) as [Hlt|Hge].
    + assert (i ≤ (i + j) / 2 < j)%nat as Hh.
      { split.
        - apply Nat.div_le_lower_bound; lia.
        - apply Nat.Div0.div_lt_upper_bound; lia. }
      destruct (f ((i + j) / 2)%nat) eqn:Hf; cbn [negb].
      * specialize (IH i ((i + j) / 2)%nat).
        destruct IH as (Hr & Hlo' & Hhi'); try lia; auto.
        { intros k Hk. apply (Hmono ((i + j) / 2)%nat); [lia | exact Hf]. }
        repeat split; auto; lia.
      * specialize (IH ((i + j) / 2 + 1)%nat j).
        destruct IH as (Hr & Hlo' & Hhi'); try lia; auto.
        { intros k Hk. destruct (f k) eqn:Hfk; [|reflexivity].
          rewrite <- Hf. symmetry. apply (Hmono k); [lia | exact Hfk]. }
        repeat split; auto; lia.
    + assert (i = j) by lia. subst. auto with lia.
Qed.

(** On a predicate that stays true once it is true, [sort.Search] gives the
    smallest index at which it holds, and [n] when there is none. *)
Lemma sort_Search_spec (n : nat) (f : nat → bool) :
  (∀ a b : nat, (a ≤ b < n)%nat → f a = true → f b = true) →
  (sort_Search n f ≤ n)%nat ∧
  (∀ k : nat, (k < sort_Search n f)%nat → f k = false) ∧
  (∀ k : nat, (sort_Search n f ≤ k < n)%nat → f k = true).
Proof.
  intros Hmono. unfold sort_Search.
  destruct (search_loop_spec n f Hmono n 0%nat n) as (Hr & Hlo & Hhi);
    try lia; auto with lia.
Qed.

Lemma search_loop_ext (f g : nat → bool) (fuel i j : nat) :
  (∀ k : nat, (k < j)%nat → f k = g k) →
  search_loop fuel i j f = search_loop fuel i j g.
Proof.
  revert i j. induction fuel as [|fuel IH]; intros i j Hfg; [reflexivity|].
  cbn [search_loop]. destruct (Nat.ltb_spec i j) as [Hlt|Hge]; [|reflexivity].
  assert ((i + j) / 2 < j)%nat as Hh by (apply Nat.Div0.div_lt_upper_bound; lia).
  rewrite <- (Hfg _ Hh).
  destruct (f ((i + j) / 2)%nat); cbn [negb]; apply IH; auto with lia.
Qed.

(** ** Sorting *)

Lemma SortFunc_Permutation {A : Type} (x : list A) (cmp : A → A → Z) :
  SortFunc x cmp ≡ₚ x.
Proof. apply merge_sort_Permutation. Qed.

Lemma SortFunc_length {A : Type} (x : list A) (cmp : A → A → Z) :
  length (SortFunc x cmp) = length x.
Proof. apply Permutation_length, SortFunc_Permutation. Qed.

Lemma SortFunc_Sorted {A : Type} (x : list A) (cmp : A → A → Z)
    `{!Total (notAfter cmp)} `{!Transitive (notAfter cmp)} :
  StronglySorted (notAfter cmp) (SortFunc x cmp).
Proof. apply StronglySorted_merge_sort; assumption. Qed.

Lemma sortDescending_Permutation (idx : list nat) : sortDescending idx ≡ₚ idx.
Proof. apply merge_sort_Permutation. Qed.

Lemma sortDescending_length (idx : list nat) :
  length (sortDescending idx) = length idx.
Proof. apply Permutation_length, sortDescending_Permutation. Qed.

Lemma sortDescending_Sorted (idx : list nat) :
  StronglySorted (flip Nat.le) (sortDescending idx).
Proof.
  apply StronglySorted_merge_sort.
  - intros a b c. unfold flip. lia.
  - intros a b. unfold flip. lia.
Qed.

Lemma PutUint16_again (b : list byte) (off : nat) (x y : Z) :
  PutUint16 (PutUint16 b off x) off y = PutUint16 b off y.
Proof.
  unfold PutUint16.
  rewrite (list_insert_insert_ne _ (off + 0)%nat (off + 1)%nat) by lia.
  now rewrite !list_insert_insert_eq.
Qed.

Lemma PutUint64_length (b : list byte) (off : nat) (v : Z) :
  length (PutUint64 b off v) = length b.
Proof. unfold PutUint64. now rewrite !length_insert. Qed.

End Go.

Import Go.

(** ** Package hashring *)

Module hashring.

Definition ErrMemberAlreadyExists : error := errors_New "member node already exists".
Definition ErrMemberNotFound : error := errors_New "member node not found".
Definition ErrNotEnoughMembers : error :=
  errors_New "not enough member nodes to satisfy request".
Definition ErrInvalidReplicationFactor : error :=
  errors_New "replication factor must be at least 1".
Definition ErrVnodeNotFound : error := errors_New "vnode not found".
Definition ErrUnexpectedVnodeCount : error :=
  errors_New "found a different number of vnodes than replication factor".

(** [type HashFunc func([]byte) uint64]. *)
Definition HashFunc : Type := list byte → Z.

(** [type Member interface { Key() string }]. *)
Class Member (M : Type) : Type := Key : M → string.

Section Ring.

Context {M : Type} `{Member M}.

(** [nodeRecord] and [virtualNode]. A [virtualNode] holds its owner by value:
    the copy of the record taken when the virtual node was made. *)
Inductive nodeRecord : Type := NodeRecord {
  nr_hashvalue : Z;
  nodeKey : string;
  member : M;
  nr_virtualNodes : list virtualNode }
with virtualNode : Type := VirtualNode {
  hashvalue : Z;
  members : nodeRecord }.

Record Ring : Type := mkRing {
  hashfn : HashFunc;
  replicationFactor : Z;
  nodes : gmap string nodeRecord;
  virtualNodes : list virtualNode }.

Definition compareUint64 (x y : Z) : Z :=
  if x <? y then -1 else if x >? y then 1 else 0.

Definition cmpVnode (a b : virtualNode) : Z :=
  if hashvalue a =? hashvalue b then
    if nr_hashvalue (members a) =? nr_hashvalue (members b) then
      strings_Compare (nodeKey (members a)) (nodeKey (members b))
    else compareUint64 (nr_hashvalue (members a)) (nr_hashvalue (members b))
  else compareUint64 (hashvalue a) (hashvalue b).

(** [New]: the replication factor is a [uint16]. *)
Definition New (hashfn : HashFunc) (replicationFactor : Z) : option Ring * option error :=
  if replicationFactor <? 1 then (None, Some ErrInvalidReplicationFactor)
  else (Some {| hashfn := hashfn;
                replicationFactor := replicationFactor;
                nodes := ∅;
                virtualNodes := [] |}, None).

(** The body of [Add]'s loop, run [n] more times from counter [i]:
    [for i := uint16(0); i < h.replicationFactor; i++]. The counter never
    wraps: it stops at the replication factor, itself a [uint16]. *)
Fixpoint addVirtualNodes (hashfn : HashFunc) (n : nat) (i : Z)
    (virtualNodeBuffer : list byte) (newNodeRecord : nodeRecord)
    (vnodes : list virtualNode) : nodeRecord * list virtualNode :=
  match n with
  | O => (newNodeRecord, vnodes)
  | S n' =>
      let virtualNodeBuffer := PutUint16 virtualNodeBuffer 8 i in
      let virtualNodeHash := hashfn virtualNodeBuffer in
      let virtualNode := VirtualNode virtualNodeHash newNodeRecord in
      let newNodeRecord :=
        NodeRecord (nr_hashvalue newNodeRecord) (nodeKey newNodeRecord)
          (member newNodeRecord) (nr_virtualNodes newNodeRecord ++ [virtualNode]) in
      addVirtualNodes hashfn n' (i + 1) virtualNodeBuffer newNodeRecord
        (vnodes ++ [virtualNode])
  end.

Definition Add (h : Ring) (m : M) : Ring * option error :=
  let nodeKeyString := Key m in
  let nodeHash := hashfn h (list_byte_of_string nodeKeyString) in
  let newNodeRecord := NodeRecord nodeHash nodeKeyString m [] in
  match nodes h !! nodeKeyString with
  | Some _ => (h, Some ErrMemberAlreadyExists)
  | None =>
      let virtualNodeBuffer := PutUint64 (make_bytes 10) 0 nodeHash in
      let '(newNodeRecord, vnodes) :=
        addVirtualNodes (hashfn h) (Z.to_nat (replicationFactor h)) 0
          virtualNodeBuffer newNodeRecord (virtualNodes h) in
      let vnodes := SortFunc vnodes cmpVnode in
      ({| hashfn := hashfn h;
          replicationFactor := replicationFactor h;
          nodes := <[nodeKeyString := newNodeRecord]> (nodes h);
          virtualNodes := vnodes |}, None)
  end.

(** The predicate of [Remove]'s binary search,
    [cmpVnode(h.virtualNodes[i], vnode) >= 0]; [sort.Search] calls it below
    [len(h.virtualNodes)] only. *)
Definition notBelow (vnodes : list virtualNode) (vnode : virtualNode) (i : nat) : bool :=
  match vnodes !! i with
  | Some v => cmpVnode v vnode >=? 0
  | None => false
  end.

(** The error [Remove] returns for a virtual node it cannot locate:
    [fmt.Errorf("failed to delete vnode %020d/%020d/%s: %w", vnode.hashvalue,
    vnode.members.hashvalue, vnode.members.nodeKey, ErrVnodeNotFound)]. *)
Definition vnodeNotFound (vnode : virtualNode) : error :=
  fmt_Errorf "failed to delete vnode %020d/%020d/%s: %w"
    [ArgInt (hashvalue vnode); ArgInt (nr_hashvalue (members vnode));
     ArgString (nodeKey (members vnode))]
    (Some ErrVnodeNotFound).

(** [Remove]'s first loop: the index of every virtual node of the record, or
    the error of the first one for which the search runs off the end. *)
Fixpoint findIndexes (vnodes : list virtualNode) (todo : list virtualNode)
    (indexesToRemove : list nat) : list nat + error :=
  match todo with
  | [] => inl indexesToRemove
  | vnode :: todo' =>
      let vnodeIndex := sort_Search (length vnodes) (notBelow vnodes vnode) in
      if (length vnodes <=? vnodeIndex)%nat then inr (vnodeNotFound vnode)
      else findIndexes vnodes todo' (indexesToRemove ++ [vnodeIndex])
  end.

(** [Remove]'s second loop, at position [i] of [indexesToRemove]:
    [h.virtualNodes[indexToRemove] = h.virtualNodes[len(h.virtualNodes)-1-i]].
    Either index out of range panics. *)
Fixpoint swapOut (vnodes : list virtualNode) (i : nat) (indexesToRemove : list nat)
    : exec (list virtualNode) :=
  match indexesToRemove with
  | [] => Done vnodes
  | indexToRemove :: rest =>
      if (length vnodes <? 1 + i)%nat then Panicked
      else
        match vnodes !! (length vnodes - 1 - i)%nat with
        | Some later =>
            if (indexToRemove <? length vnodes)%nat
            then swapOut (<[indexToRemove := later]> vnodes) (S i) rest
            else Panicked
        | None => Panicked
        end
  end.

Definition Remove (h : Ring) (m : M) : exec (Ring * option error) :=
  let nodeKeyString := Key m in
  match nodes h !! nodeKeyString with
  | None => Done (h, Some ErrMemberNotFound)
  | Some foundNode =>
      match findIndexes (virtualNodes h) (nr_virtualNodes foundNode) [] with
      | inr err => Done (h, Some err)
      | inl indexesToRemove =>
          let indexesToRemove := sortDescending indexesToRemove in
          if negb (Z.of_nat (length indexesToRemove) =? replicationFactor h)
          then Done (h, Some ErrUnexpectedVnodeCount)
          else
            match swapOut (virtualNodes h) 0 indexesToRemove with
            | Panicked => Panicked
            | Done vnodes =>
                if (length vnodes <? length indexesToRemove)%nat then Panicked
                else
                  let vnodes :=
                    take (length vnodes - length indexesToRemove)%nat vnodes in
                  let vnodes := SortFunc vnodes cmpVnode in
                  Done ({| hashfn := hashfn h;
                           replicationFactor := replicationFactor h;
                           nodes := delete nodeKeyString (nodes h);
                           virtualNodes := vnodes |}, None)
            end
      end
  end.

(** The predicate of [FindN]'s binary search,
    [h.virtualNodes[i].hashvalue >= keyHash]. *)
Definition atOrAfter (vnodes : list virtualNode) (keyHash : Z) (i : nat) : bool :=
  match vnodes !! i with
  | Some v => hashvalue v >=? keyHash
  | None => false
  end.

(** [FindN]'s loop from counter [i], at most [fuel] more turns:
    [for i := 0; i < len(h.virtualNodes) && len(foundNodes) < int(num); i++].
    The counter bounds the loop by [len(h.virtualNodes)] turns. *)
Fixpoint walk (fuel : nat) (vnodes : list virtualNode) (vnodeIndex num i : nat)
    (alreadyFoundNodeKeys : gset string) (foundNodes : list M) : list M :=
  match fuel with
  | O => foundNodes
  | S fuel' =>
      if (i <? length vnodes)%nat && (length foundNodes <? num)%nat then
        let boundedIndex := ((i + vnodeIndex) mod length vnodes)%nat in
        match vnodes !! boundedIndex with
        | Some candidate =>
            if decide (nodeKey (members candidate) ∈ alreadyFoundNodeKeys)
            then walk fuel' vnodes vnodeIndex num (S i) alreadyFoundNodeKeys foundNodes
            else walk fuel' vnodes vnodeIndex num (S i)
                   ({[nodeKey (members candidate)]} ∪ alreadyFoundNodeKeys)
                   (foundNodes ++ [member (members candidate)])
        | None => foundNodes
        end
      else foundNodes
  end.

(** [FindN(key, num)]; [num] is a [uint8]. *)
Definition FindN (h : Ring) (key : list byte) (num : nat) : list M * option error :=
  if (size (nodes h) <? num)%nat then ([], Some ErrNotEnoughMembers)
  else
    let keyHash := hashfn h key in
    let vnodeIndex :=
      sort_Search (length (virtualNodes h)) (atOrAfter (virtualNodes h) keyHash) in
    (walk (length (virtualNodes h)) (virtualNodes h) vnodeIndex num 0 ∅ [], None).

(** [Members]: one member per entry of [nodes], in the map's iteration
    order, which Go leaves open. *)
Definition Members (h : Ring) : list M :=
  (λ kv, member kv.2) <$> map_to_list (nodes h).


(** *** The order of virtual nodes *)

(** The total order of the specification: by hash, then by the owner's key
    hash, then by the bytes of the owner's key. *)
Definition vnode_le (a b : virtualNode) : Prop :=
  hashvalue a < hashvalue b ∨
  (hashvalue a = hashvalue b ∧
   (nr_hashvalue (members a) < nr_hashvalue (members b) ∨
    (nr_hashvalue (members a) = nr_hashvalue (members b) ∧
     bytes_le (list_byte_of_string (nodeKey (members a)))
              (list_byte_of_string (nodeKey (members b)))))).


Ltac cmp_cases :=
  unfold notAfter, cmpVnode, compareUint64 in *;
  repeat match goal with
         | |- context [?x =? ?y] => destruct (Z.eqb_spec x y)
         | H : context [?x =? ?y] |- _ => destruct (Z.eqb_spec x y)
         | |- context [?x <? ?y] => destruct (Z.ltb_spec x y)
         | H : context [?x <? ?y] |- _ => destruct (Z.ltb_spec x y)
         | |- context [?x >? ?y] => rewrite (Z.gtb_ltb x y)
         | H : context [?x >? ?y] |- _ => rewrite (Z.gtb_ltb x y) in H
         end.

Lemma cmpVnode_le (a b : virtualNode) : notAfter cmpVnode a b ↔ vnode_le a b.
Proof.
  unfold vnode_le. rewrite <- strings_Compare_le.
  cmp_cases; split; intros Hc; try lia; try tauto;
    repeat match goal with H : _ ∨ _ |- _ => destruct H | H : _ ∧ _ |- _ => destruct H end;
    try lia; try tauto.
Qed.

Lemma cmpVnode_eq (a b : virtualNode) :
  cmpVnode a b = 0 ↔
  hashvalue a = hashvalue b ∧ nr_hashvalue (members a) = nr_hashvalue (members b) ∧
  nodeKey (members a) = nodeKey (members b).
Proof.
  rewrite <- strings_Compare_eq.
  cmp_cases; split; intros Hc; try lia; try tauto.
Qed.

Lemma cmpVnode_antisym (a b : virtualNode) : cmpVnode a b = - cmpVnode b a.
Proof.
  pose proof (strings_Compare_antisym (nodeKey (members a)) (nodeKey (members b))).
  cmp_cases; lia.
Qed.

#[local] Instance cmpVnode_total : Total (notAfter cmpVnode).
Proof.
  intros a b. unfold notAfter. rewrite (cmpVnode_antisym b a). lia.
Qed.

#[local] Instance cmpVnode_trans : Transitive (notAfter cmpVnode).
Proof.
  intros a b c Hab Hbc.
  pose proof (strings_Compare_trans (nodeKey (members a)) (nodeKey (members b))
                (nodeKey (members c))) as Ht.
  cmp_cases; try lia; try (apply Ht; assumption);
    repeat match goal with H : ?x = ?y |- _ => first [rewrite H in * | rewrite <- H in *]; clear H end;
    try lia; try (apply Ht; assumption).
Qed.

Lemma cmpVnode_hashvalue (a b : virtualNode) :
  notAfter cmpVnode a b → hashvalue a ≤ hashvalue b.
Proof. intros Hab. cmp_cases; lia. Qed.

Lemma cmpVnode_same (a b : virtualNode) :
  notAfter cmpVnode a b → notAfter cmpVnode b a → cmpVnode a b = 0.
Proof. unfold notAfter. rewrite (cmpVnode_antisym b a). lia. Qed.

Lemma Sorted_vnode_le (l : list virtualNode) :
  StronglySorted (notAfter cmpVnode) l ↔ StronglySorted vnode_le l.
Proof.
  induction l as [|a l IH].
  - split; constructor.
  - split; intros Hs; apply StronglySorted_inv in Hs as [Hl Ha];
      (constructor; [now apply IH|]);
      (eapply Forall_impl; [exact Ha|]); intros b Hb; now apply cmpVnode_le.
Qed.

(** *** What [Add] builds *)

(** The record [Add] stores for member [m] and the virtual nodes it appends,
    as the loop leaves them. *)
Definition newNode (hashfn : HashFunc) (replicationFactor : Z) (m : M)
    : nodeRecord * list virtualNode :=
  let nodeHash := hashfn (list_byte_of_string (Key m)) in
  addVirtualNodes hashfn (Z.to_nat replicationFactor) 0
    (PutUint64 (make_bytes 10) 0 nodeHash) (NodeRecord nodeHash (Key m) m []) [].

Definition withVirtualNodes (rec : nodeRecord) (vns : list virtualNode) : nodeRecord :=
  NodeRecord (nr_hashvalue rec) (nodeKey rec) (member rec) vns.

Lemma withVirtualNodes_id (rec : nodeRecord) :
  withVirtualNodes rec (nr_virtualNodes rec) = rec.
Proof. now destruct rec. Qed.

Lemma addVirtualNodes_spec (hf : HashFunc) (n : nat) :
  ∀ (i : Z) (buf : list byte) (rec : nodeRecord) (vns : list virtualNode),
  ∃ new : list virtualNode,
    addVirtualNodes hf n i buf rec vns =
      (withVirtualNodes rec (nr_virtualNodes rec ++ new), vns ++ new) ∧
    length new = n ∧
    ∀ (j : nat) (vn : virtualNode), new !! j = Some vn →
      hashvalue vn = hf (PutUint16 buf 8 (i + Z.of_nat j)) ∧
      members vn = withVirtualNodes rec (nr_virtualNodes rec ++ take j new).
Proof.
  induction n as [|n IH]; intros i buf rec vns.
  - exists []. cbn. rewrite !app_nil_r, withVirtualNodes_id.
    split; [reflexivity|]. split; [reflexivity|].
    intros j vn Hj. now rewrite lookup_nil in Hj.
  - cbn [addVirtualNodes].
    set (vn0 := VirtualNode (hf (PutUint16 buf 8 i)) rec).
    destruct (IH (i + 1) (PutUint16 buf 8 i)
                (NodeRecord (nr_hashvalue rec) (nodeKey rec) (member rec)
                   (nr_virtualNodes rec ++ [vn0])) (vns ++ [vn0]))
      as (new & Heq & Hlen & Hnew).
    exists (vn0 :: new). rewrite Heq. cbn [nr_virtualNodes nr_hashvalue nodeKey member].
    unfold withVirtualNodes. cbn [nr_virtualNodes nr_hashvalue nodeKey member].
    rewrite <- !app_assoc. cbn [app]. split; [reflexivity|]. split; [cbn; lia|].
    intros [|j] vn Hj.
    + cbn in Hj. injection Hj as <-. cbn [take hashvalue members].
      rewrite app_nil_r, Z.add_0_r. split; [reflexivity | now destruct rec].
    + cbn in Hj. destruct (Hnew j vn Hj) as [Hh Hm]. split.
      * rewrite Hh, PutUint16_again. f_equal. f_equal. lia.
      * rewrite Hm. unfold withVirtualNodes.
        cbn [nr_virtualNodes nr_hashvalue nodeKey member take].
        now rewrite <- app_assoc.
Qed.

Lemma addVirtualNodes_acc (hf : HashFunc) (n : nat) (i : Z) (buf : list byte)
    (rec : nodeRecord) (vns : list virtualNode) :
  addVirtualNodes hf n i buf rec vns =
    ((addVirtualNodes hf n i buf rec []).1, vns ++ (addVirtualNodes hf n i buf rec []).2).
Proof.
  destruct (addVirtualNodes_spec hf n i buf rec vns) as (new & Heq & Hn & Hnew).
  destruct (addVirtualNodes_spec hf n i buf rec []) as (new' & Heq' & Hn' & Hnew').
  rewrite Heq, Heq'. cbn [fst snd app].
  enough (new = new') by now subst.
  assert (length new = length new') as Hlen by lia.
  clear Heq Heq'.
  assert (∀ k : nat, take k new = take k new') as Htake.
  { induction k as [|k IHk]; [reflexivity|].
    destruct (new !! k) as [vn|] eqn:Hk.
    - destruct (new' !! k) as [vn'|] eqn:Hk'.
      + rewrite (take_S_r _ _ _ Hk), (take_S_r _ _ _ Hk'), IHk. do 2 f_equal.
        destruct (Hnew k vn Hk) as [Hh Hm], (Hnew' k vn' Hk') as [Hh' Hm'].
        destruct vn, vn'. cbn in *. rewrite IHk in Hm. congruence.
      + apply lookup_lt_Some in Hk. apply lookup_ge_None in Hk'. lia.
    - apply lookup_ge_None in Hk.
      rewrite !take_ge by lia. rewrite !take_ge in IHk by lia. exact IHk. }
  rewrite <- (take_ge new (length new)), <- (take_ge new' (length new)) by lia.
  apply Htake.
Qed.

Lemma Add_present (h : Ring) (m : M) :
  is_Some (nodes h !! Key m) → Add h m = (h, Some ErrMemberAlreadyExists).
Proof. intros [rec Hrec]. unfold Add. now rewrite Hrec. Qed.

Lemma Add_fresh (h : Ring) (m : M) :
  nodes h !! Key m = None →
  Add h m =
    ({| hashfn := hashfn h;
        replicationFactor := replicationFactor h;
        nodes := <[Key m := (newNode (hashfn h) (replicationFactor h) m).1]> (nodes h);
        virtualNodes :=
          SortFunc (virtualNodes h ++ (newNode (hashfn h) (replicationFactor h) m).2)
            cmpVnode |}, None).
Proof.
  intros Hfresh. unfold Add. rewrite Hfresh.
  rewrite addVirtualNodes_acc. reflexivity.
Qed.

(** The record that [Add] stores lists exactly the virtual nodes it appends;
    virtual node [j] hashes the ten bytes [littleEndian 8 keyHash ++
    littleEndian 2 j] and carries the record as it stood before it. *)
Lemma newNode_spec (hf : HashFunc) (R : Z) (m : M) :
  let keyHash := hf (list_byte_of_string (Key m)) in
  let new := (newNode hf R m).2 in
  (newNode hf R m).1 = NodeRecord keyHash (Key m) m new ∧
  length new = Z.to_nat R ∧
  ∀ (j : nat) (vn : virtualNode), new !! j = Some vn →
    hashvalue vn = hf (littleEndian 8 keyHash ++ littleEndian 2 (Z.of_nat j)) ∧
    members vn = NodeRecord keyHash (Key m) m (take j new).
Proof.
  intros keyHash new. subst new. unfold newNode. fold keyHash.
  destruct (addVirtualNodes_spec hf (Z.to_nat R) 0
              (PutUint64 (make_bytes 10) 0 keyHash) (NodeRecord keyHash (Key m) m []) [])
    as (new & Heq & Hlen & Hnew).
  rewrite Heq. cbn [fst snd app]. unfold withVirtualNodes in *.
  cbn [nr_virtualNodes nr_hashvalue nodeKey member app] in *.
  split; [reflexivity|]. split; [exact Hlen|].
  intros j vn Hj. destruct (Hnew j vn Hj) as [Hh Hm]. split; [|exact Hm].
  rewrite Hh, Z.add_0_l. f_equal.
  apply virtualNodeBuffer_littleEndian. reflexivity.
Qed.

(** *** What [Remove] does *)

Lemma findIndexes_inl (vnodes todo : list virtualNode) :
  ∀ (acc idxs : list nat),
    findIndexes vnodes todo acc = inl idxs →
    length idxs = (length acc + length todo)%nat ∧
    (Forall (λ i, i < length vnodes)%nat acc → Forall (λ i, i < length vnodes)%nat idxs).
Proof.
  induction todo as [|vnode todo IH]; intros acc idxs Hf; cbn in Hf.
  - injection Hf as <-. split; [cbn; lia | auto].
  - destruct (Nat.leb_spec (length vnodes)
                (sort_Search (length vnodes) (notBelow vnodes vnode))) as [Hge|Hlt];
      [discriminate|].
    apply IH in Hf as [Hlen Hall]. split.
    + rewrite Hlen, length_app. cbn. lia.
    + intros Hacc. apply Hall, Forall_app. split; [exact Hacc|].
      constructor; [exact Hlt | constructor].
Qed.

Lemma findIndexes_inr (vnodes todo : list virtualNode) :
  ∀ (acc : list nat) (err : error),
    findIndexes vnodes todo acc = inr err →
    ∃ vnode : virtualNode, vnode ∈ todo ∧ err = vnodeNotFound vnode.
Proof.
  induction todo as [|vnode todo IH]; intros acc err Hf; cbn in Hf; [discriminate|].
  destruct (length vnodes <=? sort_Search (length vnodes) (notBelow vnodes vnode))%nat.
  - injection Hf as <-. exists vnode. split; [left | reflexivity].
  - apply IH in Hf as (v & Hv & ->). exists v. split; [now right | reflexivity].
Qed.

Lemma swapOut_Done (idxs : list nat) :
  ∀ (vnodes : list virtualNode) (i : nat),
    Forall (λ k, k < length vnodes)%nat idxs →
    (i + length idxs ≤ length vnodes)%nat →
    ∃ vnodes' : list virtualNode,
      swapOut vnodes i idxs = Done vnodes' ∧ length vnodes' = length vnodes.
Proof.
  induction idxs as [|idx idxs IH]; intros vnodes i Hall Hlen; cbn [swapOut].
  - now exists vnodes.
  - cbn in Hlen. apply Forall_cons in Hall as [Hidx Hall].
    destruct (Nat.ltb_spec (length vnodes) (1 + i)) as [Hbad|_]; [lia|].
    destruct (vnodes !! (length vnodes - 1 - i)%nat) as [later|] eqn:Hl.
    2:{ apply lookup_ge_None in Hl. lia. }
    destruct (Nat.ltb_spec idx (length vnodes)) as [_|Hbad]; [|lia].
    destruct (IH (<[idx := later]> vnodes) (S i)) as (vnodes' & Hs & Hl').
    + now rewrite length_insert.
    + rewrite length_insert. lia.
    + exists vnodes'. split; [exact Hs|]. now rewrite Hl', length_insert.
Qed.

Lemma Remove_absent (h : Ring) (m : M) :
  nodes h !! Key m = None → Remove h m = Done (h, Some ErrMemberNotFound).
Proof. intros Hm. unfold Remove. now rewrite Hm. Qed.

(** An error leaves the ring as it was: every error return of [Remove]
    comes before its first write. *)
Lemma Remove_error_unchanged (h h' : Ring) (m : M) (err : error) :
  Remove h m = Done (h', Some err) → h' = h.
Proof.
  unfold Remove. intros Hr.
  destruct (nodes h !! Key m) as [rec|]; [|now injection Hr as <- _].
  destruct (findIndexes _ _ _) as [idxs|e]; [|now injection Hr as <- _].
  destruct (negb _); [now injection Hr as <- _|].
  destruct (swapOut _ _ _) as [vnodes|]; [|discriminate].
  destruct (_ <? _)%nat; discriminate.
Qed.

(** *** The ring's invariants *)

Record ringInv (h : Ring) : Prop := {
  inv_factor : 1 ≤ replicationFactor h;
  inv_count :
    length (virtualNodes h) = (size (nodes h) * Z.to_nat (replicationFactor h))%nat;
  inv_sorted : StronglySorted (notAfter cmpVnode) (virtualNodes h);
  inv_records : ∀ (k : string) (rec : nodeRecord),
    nodes h !! k = Some rec →
    length (nr_virtualNodes rec) = Z.to_nat (replicationFactor h) }.

(** The rings a program can hold: made by [New], changed by [Add] and
    [Remove] only (the fields are private to the package). *)
Inductive reachable : Ring → Prop :=
| reachable_New (hf : HashFunc) (R : Z) (h : Ring) :
    New hf R = (Some h, None) → reachable h
| reachable_Add (h : Ring) (m : M) :
    reachable h → reachable (Add h m).1
| reachable_Remove (h h' : Ring) (m : M) (err : option error) :
    reachable h → Remove h m = Done (h', err) → reachable h'.

Lemma ringInv_New (hf : HashFunc) (R : Z) (h : Ring) :
  New hf R = (Some h, None) → ringInv h.
Proof.
  unfold New. destruct (Z.ltb_spec R 1) as [|HR]; [discriminate|].
  intros [= <-]. split; cbn.
  - exact HR.
  - now rewrite map_size_empty.
  - constructor.
  - intros k rec Hk. now rewrite lookup_empty in Hk.
Qed.

Lemma ringInv_Add (h : Ring) (m : M) : ringInv h → ringInv (Add h m).1.
Proof.
  intros [HR Hcount Hsorted Hrecs].
  destruct (nodes h !! Key m) as [rec|] eqn:Hm.
  - rewrite Add_present by eauto. now split.
  - rewrite Add_fresh by exact Hm. cbn [fst].
    destruct (newNode_spec (hashfn h) (replicationFactor h) m) as (Hrec & Hlen & _).
    split; cbn [replicationFactor nodes virtualNodes].
    + exact HR.
    + rewrite SortFunc_length, length_app, Hlen, Hcount.
      rewrite map_size_insert_None by exact Hm. lia.
    + apply SortFunc_Sorted; apply _.
    + intros k rec Hk. apply lookup_insert_Some in Hk as [[_ <-]|[_ Hk]].
      * now rewrite Hrec.
      * eauto.
Qed.

(** On a ring that satisfies the invariants [Remove] returns: nothing it
    indexes is out of range. It fails leaving the ring alone, or gives back
    the ring with [R] virtual nodes fewer, sorted again, and the key gone. *)
Lemma Remove_present (h : Ring) (m : M) (rec : nodeRecord) :
  ringInv h → nodes h !! Key m = Some rec →
  (∃ vnode : virtualNode,
      vnode ∈ nr_virtualNodes rec ∧ Remove h m = Done (h, Some (vnodeNotFound vnode))) ∨
  (∃ vnodes' : list virtualNode,
      Remove h m =
        Done ({| hashfn := hashfn h;
                 replicationFactor := replicationFactor h;
                 nodes := delete (Key m) (nodes h);
                 virtualNodes := vnodes' |}, None) ∧
      length vnodes' =
        (length (virtualNodes h) - Z.to_nat (replicationFactor h))%nat ∧
      StronglySorted (notAfter cmpVnode) vnodes').
Proof.
  intros [HR Hcount Hsorted Hrecs] Hm. unfold Remove. rewrite Hm.
  destruct (findIndexes (virtualNodes h) (nr_virtualNodes rec) []) as [idxs|err] eqn:Hf.
  2:{ left. apply findIndexes_inr in Hf as (v & Hv & ->). eauto. }
  right. apply findIndexes_inl in Hf as [Hlen Hall]. cbn in Hlen.
  specialize (Hall (Forall_nil_2 _)).
  rewrite (Hrecs _ _ Hm) in Hlen.
  rewrite sortDescending_length, Hlen, Z2Nat.id by lia.
  rewrite Z.eqb_refl. cbn [negb].
  assert (size (nodes h) ≠ 0)%nat as Hsize.
  { intros Hz. apply map_size_empty_inv in Hz. rewrite Hz, lookup_empty in Hm.
    discriminate. }
  destruct (swapOut_Done (sortDescending idxs) (virtualNodes h) 0) as (vs & Hs & Hl).
  { now rewrite sortDescending_Permutation. }
  { rewrite sortDescending_length, Hlen, Hcount. cbn. nia. }
  rewrite Hs. rewrite Hl, Hcount.
  destruct (Nat.ltb_spec (size (nodes h) * Z.to_nat (replicationFactor h))
              (Z.to_nat (replicationFactor h))) as [Hbad|_]; [nia|].
  eexists. split; [reflexivity|]. split.
  - rewrite SortFunc_length, length_take, Hl, Hcount. lia.
  - apply SortFunc_Sorted; apply _.
Qed.

Lemma ringInv_Remove (h h' : Ring) (m : M) (err : option error) :
  ringInv h → Remove h m = Done (h', err) → ringInv h'.
Proof.
  intros Hinv Hr. destruct (nodes h !! Key m) as [rec|] eqn:Hm.
  - destruct (Remove_present h m rec Hinv Hm)
      as [(v & _ & Hv)|(vs & Hv & Hlen & Hsorted)];
      rewrite Hv in Hr; injection Hr as <- <-; [exact Hinv|].
    destruct Hinv as [HR Hcount _ Hrecs].
    split; cbn [replicationFactor nodes virtualNodes].
    + exact HR.
    + rewrite Hlen, Hcount. rewrite map_size_delete_Some by eauto.
      assert (size (nodes h) ≠ 0)%nat as Hsize.
      { intros Hz. apply map_size_empty_inv in Hz. rewrite Hz, lookup_empty in Hm.
        discriminate. }
      nia.
    + exact Hsorted.
    + intros k rec' Hk. apply lookup_delete_Some in Hk as [_ Hk]. eauto.
  - rewrite Remove_absent in Hr by exact Hm. now injection Hr as <- <-.
Qed.

Lemma reachable_ringInv (h : Ring) : reachable h → ringInv h.
Proof.
  induction 1 as [hf R h HN|h m _ IH|h h' m err _ IH Hr].
  - exact (ringInv_New hf R h HN).
  - exact (ringInv_Add h m IH).
  - exact (ringInv_Remove h h' m err IH Hr).
Qed.

Lemma Remove_returns (h : Ring) (m : M) :
  ringInv h → ∃ (h' : Ring) (err : option error), Remove h m = Done (h', err).
Proof.
  intros Hinv. destruct (nodes h !! Key m) as [rec|] eqn:Hm.
  - destruct (Remove_present h m rec Hinv Hm) as [(v & _ & Hv)|(vs & Hv & _)];
      rewrite Hv; eauto.
  - rewrite Remove_absent by exact Hm. eauto.
Qed.

(** *** Invariants of every reachable ring *)

(** C3. For every ring made by [New] and then changed by any sequence of
    [Add] and [Remove] calls, whether a call succeeds or returns an error,
    the number of virtual nodes is the number of members times the
    replication factor, and the virtual nodes are sorted by hash, then by
    the owner's key hash, then by the bytes of the owner's key. The next
    [Remove] returns as well: it indexes nothing out of range. *)
Theorem ring_count_and_order (h : Ring) :
  reachable h →
  length (virtualNodes h) = (size (nodes h) * Z.to_nat (replicationFactor h))%nat ∧
  StronglySorted vnode_le (virtualNodes h) ∧
  ∀ m : M, ∃ (h' : Ring) (err : option error), Remove h m = Done (h', err).
Proof.
  intros Hr. pose proof (reachable_ringInv h Hr) as Hinv.
  split; [exact (inv_count h Hinv)|]. split.
  - apply Sorted_vnode_le, (inv_sorted h Hinv).
  - intros m. now apply Remove_returns.
Qed.

(** C10. On a ring reachable from [New] by [Add] and [Remove], [Remove] never
    returns [ErrUnexpectedVnodeCount]: every stored record lists exactly [R]
    virtual nodes, and the loop that collects indices either stops with the
    vnode-not-found error or yields one index for each of them. *)
Theorem Remove_count_never_unexpected (h : Ring) (m : M) :
  reachable h →
  (∀ (k : string) (rec : nodeRecord),
      nodes h !! k = Some rec →
      Z.of_nat (length (nr_virtualNodes rec)) = replicationFactor h) ∧
  (∀ todo : list virtualNode,
      (∃ vnode : virtualNode,
          findIndexes (virtualNodes h) todo [] = inr (vnodeNotFound vnode)) ∨
      (∃ idxs : list nat,
          findIndexes (virtualNodes h) todo [] = inl idxs ∧ length idxs = length todo)) ∧
  ∀ (h' : Ring) (err : option error),
    Remove h m = Done (h', err) → err ≠ Some ErrUnexpectedVnodeCount.
Proof.
  intros Hr. pose proof (reachable_ringInv h Hr) as Hinv. split; [|split].
  - intros k rec Hk. rewrite (inv_records h Hinv k rec Hk).
    pose proof (inv_factor h Hinv). lia.
  - intros todo.
    destruct (findIndexes (virtualNodes h) todo []) as [idxs|err] eqn:Hf.
    + right. exists idxs. split; [reflexivity|].
      now apply findIndexes_inl in Hf as [-> _].
    + left. apply findIndexes_inr in Hf as (v & _ & ->). eauto.
  - intros h' err Hrem. destruct (nodes h !! Key m) as [rec|] eqn:Hm.
    + destruct (Remove_present h m rec Hinv Hm) as [(v & _ & Hv)|(vs & Hv & _)];
        rewrite Hv in Hrem; injection Hrem as <- <-; discriminate.
    + rewrite Remove_absent in Hrem by exact Hm. injection Hrem as <- <-.
      discriminate.
Qed.

(** C4. When [Add] accepts a member with key [K], virtual node [i] of its
    record, for every [i] in [[0, R)], has the hash of a ten-byte buffer:
    bytes 0 to 7 are [hashfn(K)] in little-endian order, bytes 8 and 9 are
    [i] in little-endian order. The virtual node is on the ring. *)
Theorem Add_virtual_node_hash (h h' : Ring) (m : M) (i : Z) :
  Add h m = (h', None) →
  0 ≤ i < replicationFactor h →
  let keyHash := hashfn h (list_byte_of_string (Key m)) in
  ∃ (rec : nodeRecord) (vn : virtualNode) (buffer : list byte),
    nodes h' !! Key m = Some rec ∧
    nr_hashvalue rec = keyHash ∧
    Z.of_nat (length (nr_virtualNodes rec)) = replicationFactor h ∧
    nr_virtualNodes rec !! Z.to_nat i = Some vn ∧
    vn ∈ virtualNodes h' ∧
    length buffer = 10%nat ∧
    take 8 buffer = littleEndian 8 keyHash ∧
    drop 8 buffer = littleEndian 2 i ∧
    hashvalue vn = hashfn h buffer.
Proof.
  intros HA Hi keyHash.
  destruct (nodes h !! Key m) as [old|] eqn:Hm.
  { rewrite Add_present in HA by eauto. discriminate. }
  rewrite Add_fresh in HA by exact Hm. injection HA as <-.
  destruct (newNode_spec (hashfn h) (replicationFactor h) m) as (Hrec & Hlen & Hnew).
  fold keyHash in Hrec, Hnew.
  set (new := (newNode (hashfn h) (replicationFactor h) m).2) in *.
  destruct (new !! Z.to_nat i) as [vn|] eqn:Hvn.
  2:{ apply lookup_ge_None in Hvn. lia. }
  destruct (Hnew _ _ Hvn) as [Hh _]. rewrite Z2Nat.id in Hh by lia.
  exists ((newNode (hashfn h) (replicationFactor h) m).1), vn,
    (littleEndian 8 keyHash ++ littleEndian 2 i).
  cbn [nodes virtualNodes]. rewrite lookup_insert_eq, Hrec.
  cbn [nr_hashvalue nr_virtualNodes].
  repeat split; try reflexivity.
  - rewrite Hlen. lia.
  - exact Hvn.
  - rewrite SortFunc_Permutation. apply elem_of_app. right.
    eapply list_elem_of_lookup_2, Hvn.
  - exact Hh.
Qed.

(** *** Adding the same members in another order *)

(** Adding every member of a list, passing over the errors (as the test of
    the reversed ring does). *)
Definition addAll (h : Ring) (ms : list M) : Ring :=
  foldl (λ h m, (Add h m).1) h ms.

(** The virtual nodes listed by the records of [nodes]. *)
Definition owned (nodes : gmap string nodeRecord) : list virtualNode :=
  map_to_list nodes ≫= (λ kv, nr_virtualNodes kv.2).

Fixpoint firstWithKey (k : string) (ms : list M) : option M :=
  match ms with
  | [] => None
  | m :: ms' => if decide (Key m = k) then Some m else firstWithKey k ms'
  end.


(** No virtual node of [m] has the hash of another virtual node of [m]. *)
Definition distinctHashes (hf : HashFunc) (R : Z) (m : M) : Prop :=
  NoDup (hashvalue <$> (newNode hf R m).2).

Lemma Add_hashfn (h : Ring) (m : M) : hashfn (Add h m).1 = hashfn h.
Proof.
  destruct (nodes h !! Key m) eqn:Hm;
    [rewrite Add_present by eauto | rewrite Add_fresh by exact Hm]; reflexivity.
Qed.

Lemma Add_replicationFactor (h : Ring) (m : M) :
  replicationFactor (Add h m).1 = replicationFactor h.
Proof.
  destruct (nodes h !! Key m) eqn:Hm;
    [rewrite Add_present by eauto | rewrite Add_fresh by exact Hm]; reflexivity.
Qed.

Lemma Add_nodes_lookup (h : Ring) (m : M) (k : string) :
  nodes (Add h m).1 !! k =
    match nodes h !! k with
    | Some rec => Some rec
    | None =>
        if decide (Key m = k)
        then Some (newNode (hashfn h) (replicationFactor h) m).1
        else None
    end.
Proof.
  destruct (nodes h !! Key m) as [old|] eqn:Hm.
  - rewrite Add_present by eauto. cbn [fst].
    destruct (nodes h !! k) eqn:Hk; [reflexivity|].
    destruct (decide (Key m = k)) as [<-|]; [congruence | reflexivity].
  - rewrite Add_fresh by exact Hm. cbn [fst nodes].
    destruct (decide (Key m = k)) as [<-|Hne].
    + now rewrite lookup_insert_eq, Hm.
    + rewrite lookup_insert_ne by exact Hne. now destruct (nodes h !! k).
Qed.

Lemma owned_insert (ns : gmap string nodeRecord) (k : string) (rec : nodeRecord) :
  ns !! k = None → owned (<[k := rec]> ns) ≡ₚ nr_virtualNodes rec ++ owned ns.
Proof.
  intros Hk. unfold owned. now rewrite map_to_list_insert by exact Hk.
Qed.

Lemma Add_owned (h : Ring) (m : M) :
  virtualNodes h ≡ₚ owned (nodes h) →
  virtualNodes (Add h m).1 ≡ₚ owned (nodes (Add h m).1).
Proof.
  intros Hp. destruct (nodes h !! Key m) as [old|] eqn:Hm.
  - now rewrite Add_present by eauto.
  - rewrite Add_fresh by exact Hm. cbn [fst nodes virtualNodes].
    rewrite SortFunc_Permutation, owned_insert by exact Hm.
    destruct (newNode_spec (hashfn h) (replicationFactor h) m) as (-> & _).
    cbn [nr_virtualNodes]. rewrite Hp. apply Permutation_app_comm.
Qed.

Lemma addAll_hashfn (ms : list M) (h : Ring) : hashfn (addAll h ms) = hashfn h.
Proof.
  revert h. induction ms as [|m ms IH]; intros h; [reflexivity|].
  cbn. now rewrite IH, Add_hashfn.
Qed.

Lemma addAll_replicationFactor (ms : list M) (h : Ring) :
  replicationFactor (addAll h ms) = replicationFactor h.
Proof.
  revert h. induction ms as [|m ms IH]; intros h; [reflexivity|].
  cbn. now rewrite IH, Add_replicationFactor.
Qed.

Lemma addAll_reachable (ms : list M) (h : Ring) : reachable h → reachable (addAll h ms).
Proof.
  revert h. induction ms as [|m ms IH]; intros h Hr; [exact Hr|].
  cbn. apply IH. now constructor.
Qed.


Lemma addAll_nodes_lookup (ms : list M) (h : Ring) (k : string) :
  nodes (addAll h ms) !! k =
    match nodes h !! k with
    | Some rec => Some rec
    | None => (λ m, (newNode (hashfn h) (replicationFactor h) m).1) <$> firstWithKey k ms
    end.
Proof.
  revert h. induction ms as [|m ms IH]; intros h.
  - cbn. now destruct (nodes h !! k).
  - cbn [addAll foldl firstWithKey]. fold (addAll (Add h m).1 ms).
    rewrite IH, Add_nodes_lookup, Add_hashfn, Add_replicationFactor.
    destruct (nodes h !! k); [reflexivity|].
    now destruct (decide (Key m = k)).
Qed.

Lemma firstWithKey_Some (k : string) (ms : list M) (m : M) :
  firstWithKey k ms = Some m → m ∈ ms ∧ Key m = k.
Proof.
  induction ms as [|m' ms IH]; cbn; [discriminate|].
  destruct (decide (Key m' = k)) as [Hk|Hk].
  - intros [= <-]. split; [left | exact Hk].
  - intros Hf. destruct (IH Hf). split; [now right | assumption].
Qed.

Lemma firstWithKey_None (k : string) (ms : list M) :
  firstWithKey k ms = None → ∀ m : M, m ∈ ms → Key m ≠ k.
Proof.
  induction ms as [|m' ms IH]; cbn; intros Hf m Hm.
  - now apply elem_of_nil in Hm.
  - destruct (decide (Key m' = k)) as [Hk|Hk]; [discriminate|].
    apply elem_of_cons in Hm as [->|Hm]; [exact Hk | now apply IH].
Qed.

Lemma firstWithKey_Permutation (k : string) (ms1 ms2 : list M) :
  ms1 ≡ₚ ms2 →
  (∀ m m' : M, m ∈ ms1 → m' ∈ ms1 → Key m = Key m' → m = m') →
  firstWithKey k ms1 = firstWithKey k ms2.
Proof.
  intros Hp Hinj.
  destruct (firstWithKey k ms1) as [m1|] eqn:H1, (firstWithKey k ms2) as [m2|] eqn:H2.
  - apply firstWithKey_Some in H1 as [Hm1 Hk1], H2 as [Hm2 Hk2].
    rewrite <- Hp in Hm2. f_equal. apply Hinj; congruence.
  - apply firstWithKey_Some in H1 as [Hm1 Hk1].
    rewrite Hp in Hm1. now destruct (firstWithKey_None k ms2 H2 m1 Hm1).
  - apply firstWithKey_Some in H2 as [Hm2 Hk2].
    rewrite <- Hp in Hm2. now destruct (firstWithKey_None k ms1 H1 m2 Hm2).
  - reflexivity.
Qed.





Lemma New_empty (hf : HashFunc) (R : Z) (h : Ring) :
  New hf R = (Some h, None) →
  hashfn h = hf ∧ replicationFactor h = R ∧ nodes h = ∅ ∧ virtualNodes h = [].
Proof.
  unfold New. destruct (R <? 1); [discriminate|]. now intros [= <-].
Qed.

Lemma newNode_owner (hf : HashFunc) (R : Z) (m : M) (j : nat) (v : virtualNode) :
  (newNode hf R m).2 !! j = Some v →
  nodeKey (members v) = Key m ∧ member (members v) = m.
Proof.
  intros Hj. destruct (newNode_spec hf R m) as (_ & _ & Hnew).
  destruct (Hnew j v Hj) as [_ ->]. now split.
Qed.


(** *** What [FindN] returns *)

(** The place where the walk starts: the smallest index whose virtual node
    has a hash of at least [keyHash]; index 0 when there is none. *)
Definition startIndex (vnodes : list virtualNode) (keyHash : Z) : nat :=
  match list_find (λ v, keyHash ≤ hashvalue v) vnodes with
  | Some (i, _) => i
  | None => 0%nat
  end.

(** The ring read once around from [start]. *)
Definition circular (start : nat) (vnodes : list virtualNode) : list virtualNode :=
  drop start vnodes ++ take start vnodes.

(** The owners met along [vnodes], each the first time its key shows up,
    those with a key in [seen] left out. *)
Fixpoint distinctOwners (seen : gset string) (vnodes : list virtualNode) : list M :=
  match vnodes with
  | [] => []
  | v :: rest =>
      if decide (nodeKey (members v) ∈ seen) then distinctOwners seen rest
      else member (members v) :: distinctOwners ({[nodeKey (members v)]} ∪ seen) rest
  end.

Lemma StronglySorted_lookup_le {A : Type} (R : relation A) (l : list A) (i j : nat)
    (x y : A) :
  StronglySorted R l → (i < j)%nat → l !! i = Some x → l !! j = Some y → R x y.
Proof.
  intros Hs. revert i j. induction Hs as [|a l Hs IH Ha]; intros i j Hij Hi Hj.
  - now rewrite lookup_nil in Hi.
  - destruct j as [|j]; [lia|]. cbn in Hj. destruct i as [|i].
    + cbn in Hi. injection Hi as <-.
      rewrite Forall_forall in Ha. eapply Ha, list_elem_of_lookup_2, Hj.
    + cbn in Hi. apply (IH i j); [lia | assumption..].
Qed.

Lemma atOrAfter_monotone (vnodes : list virtualNode) (keyHash : Z) (a b : nat) :
  StronglySorted (notAfter cmpVnode) vnodes →
  (a ≤ b < length vnodes)%nat →
  atOrAfter vnodes keyHash a = true → atOrAfter vnodes keyHash b = true.
Proof.
  intros Hs Hab. unfold atOrAfter.
  destruct (vnodes !! a) as [va|] eqn:Ha; [|discriminate].
  destruct (vnodes !! b) as [vb|] eqn:Hb.
  2:{ apply lookup_ge_None in Hb. lia. }
  destruct (decide (a = b)) as [->|Hne]; [congruence|].
  pose proof (StronglySorted_lookup_le _ _ a b va vb Hs ltac:(lia) Ha Hb) as Hle.
  apply cmpVnode_hashvalue in Hle. rewrite !Z.geb_leb, !Z.leb_le. lia.
Qed.

(** On sorted virtual nodes the binary search of [FindN] ends at
    [startIndex], or at the length when no hash is large enough. *)
Lemma search_startIndex (vnodes : list virtualNode) (keyHash : Z) :
  StronglySorted (notAfter cmpVnode) vnodes →
  let idx := sort_Search (length vnodes) (atOrAfter vnodes keyHash) in
  (idx ≤ length vnodes)%nat ∧
  startIndex vnodes keyHash = if (idx <? length vnodes)%nat then idx else 0%nat.
Proof.
  intros Hs idx.
  destruct (sort_Search_spec (length vnodes) (atOrAfter vnodes keyHash))
    as (Hle & Hlo & Hhi).
  { intros a b. now apply atOrAfter_monotone. }
  fold idx in Hle, Hlo, Hhi. split; [exact Hle|]. unfold startIndex.
  destruct (Nat.ltb_spec idx (length vnodes)) as [Hlt|Hge].
  - destruct (vnodes !! idx) as [v|] eqn:Hv.
    2:{ apply lookup_ge_None in Hv. lia. }
    rewrite (proj2 (list_find_Some (λ v, keyHash ≤ hashvalue v) vnodes idx v)); [reflexivity|].
    split; [exact Hv|]. split.
    + specialize (Hhi idx ltac:(lia)). unfold atOrAfter in Hhi. rewrite Hv in Hhi.
      rewrite Z.geb_leb, Z.leb_le in Hhi. exact Hhi.
    + intros j y Hj Hji Hy. specialize (Hlo j Hji). unfold atOrAfter in Hlo.
      rewrite Hj, Z.geb_leb in Hlo. apply Z.leb_gt in Hlo. lia.
  - destruct (list_find _ vnodes) as [[i v]|] eqn:Hfind; [|reflexivity].
    apply list_find_Some in Hfind as (Hi & Hv & _).
    pose proof (lookup_lt_Some _ _ _ Hi) as Hlt.
    specialize (Hlo i ltac:(lia)). unfold atOrAfter in Hlo.
    rewrite Hi, Z.geb_leb in Hlo. apply Z.leb_gt in Hlo. lia.
Qed.

Lemma circular_lookup (vnodes : list virtualNode) (idx i : nat) :
  (idx ≤ length vnodes)%nat → (i < length vnodes)%nat →
  vnodes !! ((i + idx) mod length vnodes)%nat =
    circular (if (idx <? length vnodes)%nat then idx else 0%nat) vnodes !! i.
Proof.
  intros Hidx Hi. unfold circular.
  destruct (Nat.ltb_spec idx (length vnodes)) as [Hlt|Hge].
  - destruct (decide (i + idx < length vnodes)%nat) as [Hsmall|Hlarge].
    + rewrite Nat.mod_small by lia.
      rewrite lookup_app_l by (rewrite length_drop; lia).
      rewrite lookup_drop. f_equal. lia.
    + replace (i + idx)%nat with ((i + idx - length vnodes) + 1 * length vnodes)%nat by lia.
      rewrite Nat.Div0.mod_add, Nat.mod_small by lia.
      rewrite lookup_app_r by (rewrite length_drop; lia).
      rewrite length_drop, lookup_take_lt by lia. f_equal. lia.
  - assert (idx = length vnodes) as -> by lia.
    replace (i + length vnodes)%nat with (i + 1 * length vnodes)%nat by lia.
    rewrite Nat.Div0.mod_add, Nat.mod_small by lia.
    now rewrite drop_0, take_0, app_nil_r.
Qed.

Lemma circular_length (start : nat) (vnodes : list virtualNode) :
  length (circular start vnodes) = length vnodes.
Proof. unfold circular. rewrite length_app, length_drop, length_take. lia. Qed.

Lemma walk_spec (vnodes around : list virtualNode) (vnodeIndex num : nat) :
  length around = length vnodes →
  (∀ i : nat, (i < length vnodes)%nat →
     vnodes !! ((i + vnodeIndex) mod length vnodes)%nat = around !! i) →
  ∀ (fuel i : nat) (seen : gset string) (found : list M),
    (length vnodes ≤ fuel + i)%nat →
    walk fuel vnodes vnodeIndex num i seen found =
      found ++ take (num - length found) (distinctOwners seen (drop i around)).
Proof.
  intros Hlen Hlook. induction fuel as [|fuel IH]; intros i seen found Hfuel.
  - cbn. rewrite drop_ge by lia. cbn. now rewrite take_nil, app_nil_r.
  - cbn [walk]. destruct (Nat.ltb_spec i (length vnodes)) as [Hi|Hi]; cbn [andb].
    2:{ rewrite drop_ge by lia. cbn. now rewrite take_nil, app_nil_r. }
    destruct (Nat.ltb_spec (length found) num) as [Hn|Hn].
    2:{ replace (num - length found)%nat with 0%nat by lia.
        now rewrite take_0, app_nil_r. }
    rewrite (Hlook i Hi).
    destruct (around !! i) as [c|] eqn:Hc.
    2:{ apply lookup_ge_None in Hc. lia. }
    rewrite (drop_S _ _ _ Hc). cbn [distinctOwners].
    destruct (decide (nodeKey (members c) ∈ seen)).
    + apply IH. lia.
    + rewrite IH by lia. rewrite length_app. cbn [length].
      replace (num - length found)%nat with (S (num - (length found + 1)))%nat by lia.
      cbn [take]. now rewrite <- app_assoc.
Qed.

Lemma distinctOwners_length (vnodes : list virtualNode) :
  ∀ seen : gset string,
    length (distinctOwners seen vnodes) =
      size (list_to_set ((λ v, nodeKey (members v)) <$> vnodes) ∖ seen : gset string).
Proof.
  induction vnodes as [|v rest IH]; intros seen.
  - cbn. replace (∅ ∖ seen) with (∅ : gset string) by set_solver.
    now rewrite (size_empty (C := gset string)).
  - cbn [distinctOwners fmap list_fmap list_to_set foldr].
    destruct (decide (nodeKey (members v) ∈ seen)) as [Hin|Hout].
    + rewrite IH. f_equal. set_solver.
    + cbn [length]. rewrite IH.
      set (k := nodeKey (members v)) in *.
      set (K := list_to_set ((λ v, nodeKey (members v)) <$> rest) : gset string).
      change (list_to_set (list_fmap _ _ _ rest)) with K.
      replace (({[k]} ∪ K) ∖ seen) with ({[k]} ∪ (K ∖ ({[k]} ∪ seen))).
      * rewrite (size_union (C := gset string) {[k]} (K ∖ ({[k]} ∪ seen))) by set_solver.
        now rewrite (size_singleton (C := gset string) k).
      * apply set_eq. intros x. destruct (decide (x = k)); set_solver.
Qed.

Lemma FindN_sorted (h : Ring) (key : list byte) (num : nat) :
  StronglySorted (notAfter cmpVnode) (virtualNodes h) →
  let start := startIndex (virtualNodes h) (hashfn h key) in
  let owners := distinctOwners ∅ (circular start (virtualNodes h)) in
  ((FindN h key num).2 = Some ErrNotEnoughMembers ↔ (size (nodes h) < num)%nat) ∧
  ((num ≤ size (nodes h))%nat → FindN h key num = (take num owners, None)) ∧
  ((num ≤ size (nodes h))%nat →
   (∀ k : string, is_Some (nodes h !! k) →
      ∃ v : virtualNode, v ∈ virtualNodes h ∧ nodeKey (members v) = k) →
   length (FindN h key num).1 = num).
Proof.
  intros Hs start owners.
  assert ((num ≤ size (nodes h))%nat → FindN h key num = (take num owners, None)) as Hok.
  { intros Hnum. unfold FindN.
    destruct (Nat.ltb_spec (size (nodes h)) num) as [|_]; [lia|].
    destruct (search_startIndex (virtualNodes h) (hashfn h key) Hs) as [Hidx Hstart].
    f_equal.
    rewrite (walk_spec (virtualNodes h) (circular start (virtualNodes h))).
    - cbn. now rewrite Nat.sub_0_r, drop_0.
    - apply circular_length.
    - intros i Hi. subst start. rewrite Hstart. now apply circular_lookup.
    - lia. }
  split; [|split].
  - unfold FindN. destruct (Nat.ltb_spec (size (nodes h)) num) as [Hlt|Hge]; cbn.
    + split; [intros _; exact Hlt | reflexivity].
    + split; [discriminate | lia].
  - exact Hok.
  - intros Hnum Hown. rewrite (Hok Hnum). cbn [fst].
    rewrite length_take. subst owners. rewrite distinctOwners_length.
    enough (size (nodes h) ≤
            size (list_to_set ((λ v, nodeKey (members v)) <$>
                                 circular start (virtualNodes h)) ∖ ∅ : gset string))%nat
      by lia.
    rewrite <- (size_dom (D := gset string)).
    apply subseteq_size. intros k Hk. apply elem_of_dom in Hk.
    destruct (Hown k Hk) as (v & Hv & <-).
    apply elem_of_difference. split; [|set_solver].
    apply elem_of_list_to_set, list_elem_of_fmap. exists v. split; [reflexivity|].
    unfold circular. apply elem_of_app.
    rewrite <- (take_drop start (virtualNodes h)) in Hv.
    apply elem_of_app in Hv. tauto.
Qed.

(** [FindN] on a reachable ring: [ErrNotEnoughMembers] exactly when more
    members are asked for than the ring has; otherwise the hash of the key
    is looked up, the walk starts at the smallest index with a hash at least
    as large (at 0 when there is none), goes once around, and returns the
    first [num] distinct owners in the order met. The result has exactly
    [num] members when every member of the ring owns a virtual node on it. *)
Theorem FindN_spec (h : Ring) (key : list byte) (num : nat) :
  reachable h →
  let start := startIndex (virtualNodes h) (hashfn h key) in
  let owners := distinctOwners ∅ (circular start (virtualNodes h)) in
  ((FindN h key num).2 = Some ErrNotEnoughMembers ↔ (size (nodes h) < num)%nat) ∧
  ((num ≤ size (nodes h))%nat → FindN h key num = (take num owners, None)) ∧
  ((num ≤ size (nodes h))%nat →
   (∀ k : string, is_Some (nodes h !! k) →
      ∃ v : virtualNode, v ∈ virtualNodes h ∧ nodeKey (members v) = k) →
   length (FindN h key num).1 = num).
Proof.
  intros Hr. apply FindN_sorted, inv_sorted, reachable_ringInv, Hr.
Qed.

(** *** [Remove] on a ring without ties *)

(** No two virtual nodes compare equal: each goes strictly before the next. *)
Definition strictlyBefore (a b : virtualNode) : Prop := cmpVnode a b < 0.

#[global] Instance strictlyBefore_dec : RelDecision strictlyBefore :=
  λ a b, Z_lt_dec (cmpVnode a b) 0.

(** The elements of [l] at the indices [idxs]. *)
Definition picks {A : Type} (l : list A) (idxs : list nat) : list A :=
  omap (λ i, l !! i) idxs.

Lemma cmpVnode_refl (a : virtualNode) : cmpVnode a a = 0.
Proof. now apply cmpVnode_eq. Qed.

Lemma strictlyBefore_notAfter (l : list virtualNode) :
  StronglySorted strictlyBefore l → StronglySorted (notAfter cmpVnode) l.
Proof.
  induction 1 as [|a l _ IH Ha]; constructor; [exact IH|].
  eapply Forall_impl; [exact Ha|]. unfold strictlyBefore, notAfter. intros b. lia.
Qed.

Lemma strictlyBefore_distinct (l : list virtualNode) (a b : virtualNode) :
  StronglySorted strictlyBefore l → a ∈ l → b ∈ l → a ≠ b → cmpVnode a b ≠ 0.
Proof.
  intros Hs Ha Hb Hne.
  apply list_elem_of_lookup_1 in Ha as [i Hi], Hb as [j Hj].
  destruct (Nat.lt_total i j) as [Hij|[->|Hji]].
  - pose proof (StronglySorted_lookup_le _ _ _ _ _ _ Hs Hij Hi Hj) as Hlt.
    unfold strictlyBefore in Hlt. lia.
  - congruence.
  - pose proof (StronglySorted_lookup_le _ _ _ _ _ _ Hs Hji Hj Hi) as Hlt.
    unfold strictlyBefore in Hlt. rewrite (cmpVnode_antisym a b). lia.
Qed.

Lemma strictlyBefore_NoDup (l : list virtualNode) :
  StronglySorted strictlyBefore l → NoDup l.
Proof.
  induction 1 as [|a l _ IH Ha]; constructor; [|exact IH].
  intros Hin. rewrite Forall_forall in Ha. specialize (Ha a Hin).
  unfold strictlyBefore in Ha. rewrite cmpVnode_refl in Ha. lia.
Qed.

Lemma strictlyBefore_sub (l l2 : list virtualNode) :
  StronglySorted strictlyBefore l →
  StronglySorted (notAfter cmpVnode) l2 → NoDup l2 → (∀ x, x ∈ l2 → x ∈ l) →
  StronglySorted strictlyBefore l2.
Proof.
  intros Hs. induction 1 as [|a l2 _ IH Ha]; intros Hnd Hsub; constructor.
  - apply NoDup_cons in Hnd as [_ Hnd]. apply IH; [exact Hnd|].
    intros x Hx. apply Hsub. now right.
  - apply NoDup_cons in Hnd as [Hnotin _]. rewrite Forall_forall in Ha |- *.
    intros b Hb. specialize (Ha b Hb).
    assert (cmpVnode a b ≠ 0) as Hne.
    { apply (strictlyBefore_distinct l); [exact Hs | apply Hsub; left
                                           | apply Hsub; now right | congruence]. }
    unfold strictlyBefore, notAfter in *. lia.
Qed.

Lemma notBelow_monotone (vnodes : list virtualNode) (vnode : virtualNode) (a b : nat) :
  StronglySorted (notAfter cmpVnode) vnodes →
  (a ≤ b < length vnodes)%nat →
  notBelow vnodes vnode a = true → notBelow vnodes vnode b = true.
Proof.
  intros Hs Hab. unfold notBelow.
  destruct (vnodes !! a) as [va|] eqn:Ha; [|discriminate].
  destruct (vnodes !! b) as [vb|] eqn:Hb.
  2:{ apply lookup_ge_None in Hb. lia. }
  destruct (decide (a = b)) as [->|Hne]; [congruence|].
  pose proof (StronglySorted_lookup_le _ _ a b va vb Hs ltac:(lia) Ha Hb) as Hle.
  rewrite !Z.geb_leb, !Z.leb_le. intros Hva.
  assert (notAfter cmpVnode vnode va) as H1.
  { unfold notAfter. rewrite cmpVnode_antisym. lia. }
  pose proof (cmpVnode_trans _ _ _ H1 Hle) as H2. unfold notAfter in H2.
  rewrite (cmpVnode_antisym vnode vb) in H2. lia.
Qed.

(** On a ring without ties the binary search of [Remove] finds the very
    index of the virtual node it looks for. *)
Lemma search_exact (vnodes : list virtualNode) (vnode : virtualNode) (p : nat) :
  StronglySorted strictlyBefore vnodes →
  vnodes !! p = Some vnode →
  sort_Search (length vnodes) (notBelow vnodes vnode) = p.
Proof.
  intros Hs Hp. pose proof (lookup_lt_Some _ _ _ Hp) as Hlt.
  destruct (sort_Search_spec (length vnodes) (notBelow vnodes vnode))
    as (Hle & Hlo & Hhi).
  { intros a b. apply notBelow_monotone. now apply strictlyBefore_notAfter. }
  set (r := sort_Search (length vnodes) (notBelow vnodes vnode)) in *.
  destruct (Nat.lt_total r p) as [Hrp|[->|Hpr]]; [|reflexivity|].
  - specialize (Hhi r ltac:(lia)). unfold notBelow in Hhi.
    destruct (vnodes !! r) as [vr|] eqn:Hr; [|discriminate].
    pose proof (StronglySorted_lookup_le _ _ _ _ _ _ Hs Hrp Hr Hp) as Hb.
    unfold strictlyBefore in Hb. rewrite Z.geb_leb, Z.leb_le in Hhi. lia.
  - specialize (Hlo p Hpr). unfold notBelow in Hlo.
    rewrite Hp, cmpVnode_refl in Hlo. discriminate.
Qed.

Lemma findIndexes_exact (vnodes todo : list virtualNode) :
  StronglySorted strictlyBefore vnodes →
  (∀ v, v ∈ todo → v ∈ vnodes) →
  ∀ acc : list nat,
  ∃ idxs : list nat,
    findIndexes vnodes todo acc = inl (acc ++ idxs) ∧
    Forall2 (λ v i, vnodes !! i = Some v) todo idxs.
Proof.
  intros Hs. induction todo as [|v todo IH]; intros Hin acc.
  - exists []. cbn. now rewrite app_nil_r.
  - destruct (list_elem_of_lookup_1 vnodes v) as [p Hp]; [apply Hin; left|].
    cbn [findIndexes]. rewrite (search_exact vnodes v p Hs Hp).
    pose proof (lookup_lt_Some _ _ _ Hp) as Hlt.
    destruct (Nat.leb_spec (length vnodes) p) as [|_]; [lia|].
    destruct (IH (λ x Hx, Hin x (list_elem_of_further _ _ _ Hx)) (acc ++ [p]))
      as (idxs & Hf & Hall).
    exists (p :: idxs). rewrite Hf, <- app_assoc. split; [reflexivity|].
    now constructor.
Qed.

Lemma insert_swap_Permutation {A : Type} (l : list A) (i : nat) (x y : A) :
  l !! i = Some x → x :: <[i := y]> l ≡ₚ y :: l.
Proof.
  revert i. induction l as [|a l IH]; intros [|i] Hi; try discriminate.
  - cbn in Hi. injection Hi as ->. cbn. apply Permutation_swap.
  - cbn in Hi. change (<[S i := y]> (a :: l)) with (a :: <[i := y]> l).
    rewrite (Permutation_swap a x), (IH i Hi). apply Permutation_swap.
Qed.

Lemma picks_insert_ne {A : Type} (l : list A) (idx : nat) (y : A) (idxs : list nat) :
  Forall (λ k, k ≠ idx) idxs → picks (<[idx := y]> l) idxs = picks l idxs.
Proof.
  induction 1 as [|k idxs Hk _ IH]; [reflexivity|].
  unfold picks in *. cbn [omap list_omap].
  rewrite list_lookup_insert_ne by congruence. now rewrite IH.
Qed.

(** The swap loop of [Remove], for indices that fall strictly: when it has
    run, the front of the slice holds what the front held before, less the
    elements at the indices. *)
Lemma swapOut_Permutation (idxs : list nat) :
  ∀ (vnodes : list virtualNode) (n : nat),
    (n ≤ length vnodes)%nat →
    StronglySorted (flip lt) idxs →
    Forall (λ k, k < n)%nat idxs →
    ∃ vnodes' : list virtualNode,
      swapOut vnodes (length vnodes - n) idxs = Done vnodes' ∧
      length vnodes' = length vnodes ∧
      take (n - length idxs) vnodes' ++ picks vnodes idxs ≡ₚ take n vnodes.
Proof.
  induction idxs as [|idx idxs IH]; intros vnodes n Hn Hs Hall.
  - exists vnodes. cbn. rewrite Nat.sub_0_r, app_nil_r. auto.
  - apply StronglySorted_inv in Hs as [Hs Hbelow].
    apply Forall_cons in Hall as [Hidx Hall].
    cbn [swapOut].
    destruct (Nat.ltb_spec (length vnodes) (1 + (length vnodes - n))) as [|_]; [lia|].
    replace (length vnodes - 1 - (length vnodes - n))%nat with (n - 1)%nat by lia.
    destruct (vnodes !! (n - 1)%nat) as [later|] eqn:Hlater.
    2:{ apply lookup_ge_None in Hlater. lia. }
    destruct (Nat.ltb_spec idx (length vnodes)) as [_|]; [|lia].
    destruct (vnodes !! idx) as [x|] eqn:Hx.
    2:{ apply lookup_ge_None in Hx. lia. }
    destruct (IH (<[idx := later]> vnodes) (n - 1)%nat) as (vs & Hrun & Hlen & Hperm).
    { rewrite length_insert. lia. }
    { exact Hs. }
    { rewrite Forall_forall in Hbelow |- *. intros k Hk.
      specialize (Hbelow k Hk). unfold flip in Hbelow. lia. }
    rewrite length_insert in Hrun, Hlen.
    replace (S (length vnodes - n)) with (length vnodes - (n - 1))%nat by lia.
    exists vs. split; [exact Hrun|]. split; [exact Hlen|].
    assert (picks (<[idx := later]> vnodes) idxs = picks vnodes idxs) as Hpicks.
    { apply picks_insert_ne. eapply Forall_impl; [exact Hbelow|].
      unfold flip. intros k Hk. lia. }
    rewrite Hpicks in Hperm.
    unfold picks at 1. cbn [omap list_omap]. rewrite Hx. fold (picks vnodes idxs).
    cbn [length].
    replace (n - S (length idxs))%nat with (n - 1 - length idxs)%nat by lia.
    rewrite <- Permutation_middle, Hperm.
    replace n with (S (n - 1)) at 2 by lia.
    rewrite (take_S_r _ _ _ Hlater), <- Permutation_cons_append.
    destruct (decide (idx = n - 1)%nat) as [->|Hne].
    + rewrite take_insert_ge by lia.
      assert (x = later) as -> by congruence. reflexivity.
    + rewrite take_insert_lt by lia. apply insert_swap_Permutation.
      rewrite lookup_take_lt by lia. exact Hx.
Qed.

Lemma descending_strict (idxs : list nat) :
  StronglySorted (flip Nat.le) idxs → NoDup idxs → StronglySorted (flip lt) idxs.
Proof.
  induction 1 as [|a l _ IH Ha]; intros Hnd; constructor.
  - apply NoDup_cons in Hnd as [_ Hnd]. now apply IH.
  - apply NoDup_cons in Hnd as [Hnotin _]. rewrite Forall_forall in Ha |- *.
    intros b Hb. specialize (Ha b Hb). unfold flip in *.
    destruct (decide (a = b)) as [->|]; [contradiction | lia].
Qed.

Lemma picks_exact (vnodes todo : list virtualNode) (idxs : list nat) :
  Forall2 (λ v i, vnodes !! i = Some v) todo idxs → picks vnodes idxs = todo.
Proof.
  induction 1 as [|v i todo idxs Hv _ IH]; [reflexivity|].
  unfold picks. cbn [omap list_omap]. rewrite Hv. f_equal. exact IH.
Qed.

Lemma indexes_NoDup (vnodes todo : list virtualNode) (idxs : list nat) :
  Forall2 (λ v i, vnodes !! i = Some v) todo idxs → NoDup todo → NoDup idxs.
Proof.
  induction 1 as [|v i todo idxs Hv Hall IH]; intros Hnd; [constructor|].
  apply NoDup_cons in Hnd as [Hnotin Hnd]. constructor; [|now apply IH].
  intros Hin. apply Hnotin.
  apply list_elem_of_lookup_1 in Hin as [j Hj].
  destruct (Forall2_lookup_r _ _ _ _ _ Hall Hj) as (w & Hw & Hlook).
  apply list_elem_of_lookup_2 in Hw. congruence.
Qed.

Lemma owned_delete (ns : gmap string nodeRecord) (k : string) (rec : nodeRecord) :
  ns !! k = Some rec → owned ns ≡ₚ nr_virtualNodes rec ++ owned (delete k ns).
Proof.
  intros Hk. unfold owned. now rewrite <- (map_to_list_delete ns k rec Hk).
Qed.

(** When no two virtual nodes on the ring compare equal and the ring holds
    the virtual nodes its records list, [Remove] of a member succeeds,
    takes the member's virtual nodes off the ring, all of them and nothing
    else, deletes its key, and leaves a ring of the same kind. *)
Lemma Remove_without_ties (h : Ring) (m : M) (rec : nodeRecord) :
  ringInv h →
  StronglySorted strictlyBefore (virtualNodes h) →
  virtualNodes h ≡ₚ owned (nodes h) →
  nodes h !! Key m = Some rec →
  ∃ h' : Ring,
    Remove h m = Done (h', None) ∧
    hashfn h' = hashfn h ∧
    replicationFactor h' = replicationFactor h ∧
    nodes h' = delete (Key m) (nodes h) ∧
    virtualNodes h ≡ₚ nr_virtualNodes rec ++ virtualNodes h' ∧
    StronglySorted strictlyBefore (virtualNodes h') ∧
    virtualNodes h' ≡ₚ owned (nodes h').
Proof.
  intros Hinv Hstrict Hown Hm.
  pose proof (owned_delete _ _ _ Hm) as Hsplit.
  assert (NoDup (nr_virtualNodes rec)) as Hnd.
  { pose proof (strictlyBefore_NoDup _ Hstrict) as Hnd.
    rewrite Hown, Hsplit in Hnd. now apply NoDup_app in Hnd as [Hnd _]. }
  assert (∀ v, v ∈ nr_virtualNodes rec → v ∈ virtualNodes h) as Hin.
  { intros v Hv. rewrite Hown, Hsplit. apply elem_of_app. now left. }
  destruct (findIndexes_exact (virtualNodes h) (nr_virtualNodes rec) Hstrict Hin [])
    as (idxs & Hfind & Hat).
  cbn [app] in Hfind.
  pose proof (Forall2_length _ _ _ Hat) as Hlen.
  rewrite (inv_records h Hinv _ _ Hm) in Hlen.
  pose proof (inv_factor h Hinv) as HR.
  destruct (swapOut_Permutation (sortDescending idxs) (virtualNodes h)
              (length (virtualNodes h))) as (vs & Hrun & Hvs & Hperm).
  { lia. }
  { apply descending_strict; [apply sortDescending_Sorted|].
    rewrite sortDescending_Permutation. exact (indexes_NoDup _ _ _ Hat Hnd). }
  { rewrite sortDescending_Permutation.
    rewrite Forall_forall. intros i Hi. apply list_elem_of_lookup_1 in Hi as [j Hj].
    destruct (Forall2_lookup_r _ _ _ _ _ Hat Hj) as (w & _ & Hlook).
    exact (lookup_lt_Some _ _ _ Hlook). }
  rewrite Nat.sub_diag in Hrun. rewrite firstn_all in Hperm.
  assert (picks (virtualNodes h) (sortDescending idxs) ≡ₚ nr_virtualNodes rec) as Hpk.
  { unfold picks. rewrite sortDescending_Permutation.
    fold (picks (virtualNodes h) idxs). now rewrite (picks_exact _ _ _ Hat). }
  rewrite Hpk, sortDescending_length in Hperm.
  assert (length idxs ≤ length (virtualNodes h))%nat as Hle.
  { apply Permutation_length in Hperm. rewrite length_app in Hperm.
    pose proof (Forall2_length _ _ _ Hat). lia. }
  unfold Remove. rewrite Hm, Hfind, sortDescending_length, <- Hlen.
  rewrite Z2Nat.id, Z.eqb_refl by lia. cbn [negb]. rewrite Hrun, Hvs.
  destruct (Nat.ltb_spec (length (virtualNodes h)) (Z.to_nat (replicationFactor h)))
    as [|_]; [lia|].
  eexists. split; [reflexivity|]. cbn [hashfn replicationFactor nodes virtualNodes].
  rewrite <- Hlen in Hperm.
  set (rest := take (length (virtualNodes h) - Z.to_nat (replicationFactor h)) vs) in *.
  assert (virtualNodes h ≡ₚ nr_virtualNodes rec ++ SortFunc rest cmpVnode) as Hfinal.
  { rewrite SortFunc_Permutation, <- Hperm. apply Permutation_app_comm. }
  repeat split; try reflexivity.
  - exact Hfinal.
  - apply (strictlyBefore_sub (virtualNodes h)); [exact Hstrict | | |].
    + apply SortFunc_Sorted; apply _.
    + pose proof (strictlyBefore_NoDup _ Hstrict) as Hnd'.
      rewrite Hfinal in Hnd'. now apply NoDup_app in Hnd' as (_ & _ & Hnd').
    + intros x Hx. rewrite Hfinal. apply elem_of_app. now right.
  - apply (Permutation_app_inv_l (nr_virtualNodes rec)).
    now rewrite <- Hfinal, Hown, Hsplit.
Qed.

(** The error returns of [Remove]: [ErrMemberNotFound] for a key that is not
    in [nodes], and after any error the ring is the ring as it was before
    the call, [nodes] and virtual nodes alike. *)
Theorem Remove_errors (h : Ring) (m : M) :
  (nodes h !! Key m = None → Remove h m = Done (h, Some ErrMemberNotFound)) ∧
  ∀ (h' : Ring) (err : error), Remove h m = Done (h', Some err) → h' = h.
Proof.
  split; [apply Remove_absent|]. intros h' err. apply Remove_error_unchanged.
Qed.

(** *** Rings without ties *)

(** Every record lists at least one virtual node, and each of them names
    the record's key as its owner's. *)
Definition wellKeyed (h : Ring) : Prop :=
  ∀ (k : string) (rec : nodeRecord),
    nodes h !! k = Some rec →
    nr_virtualNodes rec ≠ [] ∧
    Forall (λ v, nodeKey (members v) = k) (nr_virtualNodes rec).

Record tieFree (h : Ring) : Prop := {
  tf_inv : ringInv h;
  tf_strict : StronglySorted strictlyBefore (virtualNodes h);
  tf_owned : virtualNodes h ≡ₚ owned (nodes h);
  tf_keyed : wellKeyed h }.

(** The rings reached when no member that is added has two virtual nodes
    with one hash. *)
Inductive reachableWithoutTies : Ring → Prop :=
| withoutTies_New (hf : HashFunc) (R : Z) (h : Ring) :
    New hf R = (Some h, None) → reachableWithoutTies h
| withoutTies_Add (h : Ring) (m : M) :
    reachableWithoutTies h →
    distinctHashes (hashfn h) (replicationFactor h) m →
    reachableWithoutTies (Add h m).1
| withoutTies_Remove (h h' : Ring) (m : M) (err : option error) :
    reachableWithoutTies h → Remove h m = Done (h', err) → reachableWithoutTies h'.

Lemma strictlyBefore_of_distinct (l : list virtualNode) :
  StronglySorted (notAfter cmpVnode) l → NoDup l →
  (∀ a b, a ∈ l → b ∈ l → a ≠ b → cmpVnode a b ≠ 0) →
  StronglySorted strictlyBefore l.
Proof.
  induction 1 as [|a l _ IH Ha]; intros Hnd Hne; constructor.
  - apply NoDup_cons in Hnd as [_ Hnd]. apply IH; [exact Hnd|].
    intros x y Hx Hy. apply Hne; now right.
  - apply NoDup_cons in Hnd as [Hnotin _]. rewrite Forall_forall in Ha |- *.
    intros b Hb. specialize (Ha b Hb).
    assert (cmpVnode a b ≠ 0) as Hab.
    { apply Hne; [left | now right | congruence]. }
    unfold strictlyBefore, notAfter in *. lia.
Qed.

Lemma owned_key (h : Ring) (v : virtualNode) :
  wellKeyed h → v ∈ owned (nodes h) → is_Some (nodes h !! nodeKey (members v)).
Proof.
  intros Hk Hv. unfold owned in Hv.
  apply list_elem_of_bind in Hv as ([k rec] & Hv & Hrec).
  apply elem_of_map_to_list in Hrec. cbn in Hv.
  destruct (Hk k rec Hrec) as [_ Hall]. rewrite Forall_forall in Hall.
  rewrite (Hall v Hv). eauto.
Qed.

Lemma owned_has_key (h : Ring) (k : string) :
  wellKeyed h → is_Some (nodes h !! k) →
  ∃ v : virtualNode, v ∈ owned (nodes h) ∧ nodeKey (members v) = k.
Proof.
  intros Hk [rec Hrec]. destruct (Hk k rec Hrec) as [Hne Hall].
  destruct (nr_virtualNodes rec) as [|v vs] eqn:Hvs; [contradiction|].
  apply Forall_cons in Hall as [Hv _]. exists v. split; [|exact Hv].
  rewrite (owned_delete _ _ _ Hrec), Hvs. left.
Qed.

Lemma tieFree_New (hf : HashFunc) (R : Z) (h : Ring) :
  New hf R = (Some h, None) → tieFree h.
Proof.
  intros HN. pose proof (New_empty hf R h HN) as (_ & _ & Hn & Hv).
  split.
  - exact (ringInv_New hf R h HN).
  - rewrite Hv. constructor.
  - now rewrite Hn, Hv.
  - intros k rec Hk. now rewrite Hn, lookup_empty in Hk.
Qed.

Lemma tieFree_Add (h : Ring) (m : M) :
  tieFree h → distinctHashes (hashfn h) (replicationFactor h) m → tieFree (Add h m).1.
Proof.
  intros [Hinv Hstrict Hown Hkeyed] Hdist.
  destruct (nodes h !! Key m) as [old|] eqn:Hm.
  { rewrite Add_present by eauto. now split. }
  pose proof (ringInv_Add h m Hinv) as Hinv'.
  pose proof (Add_owned h m Hown) as Hown'.
  rewrite Add_fresh in * by exact Hm. cbn [fst nodes virtualNodes] in *.
  destruct (newNode_spec (hashfn h) (replicationFactor h) m) as (Hrec & Hlen & Hnew).
  unfold distinctHashes in Hdist.
  set (new := (newNode (hashfn h) (replicationFactor h) m).2) in *.
  assert (∀ v, v ∈ new → nodeKey (members v) = Key m) as Hnewkey.
  { intros v Hv. apply list_elem_of_lookup_1 in Hv as [j Hj].
    now destruct (newNode_owner _ _ _ _ _ Hj). }
  assert (∀ v, v ∈ virtualNodes h → nodeKey (members v) ≠ Key m) as Holdkey.
  { intros v Hv. rewrite Hown in Hv. apply (owned_key h v Hkeyed) in Hv as [rec Hv].
    congruence. }
  assert (NoDup new) as Hndnew by exact (NoDup_fmap_1 _ _ Hdist).
  split; cbn [nodes virtualNodes].
  - exact Hinv'.
  - apply strictlyBefore_of_distinct.
    + apply SortFunc_Sorted; apply _.
    + rewrite SortFunc_Permutation. apply NoDup_app. split; [|split].
      * now apply strictlyBefore_NoDup.
      * intros v Hv Hv'. now apply (Holdkey v Hv), Hnewkey.
      * exact Hndnew.
    + intros a b Ha Hb Hab Hcmp.
      pose proof (proj1 (cmpVnode_eq a b) Hcmp) as (Hh & _ & Hk).
      rewrite SortFunc_Permutation in Ha, Hb.
      apply elem_of_app in Ha as [Ha|Ha], Hb as [Hb|Hb].
      * exact (strictlyBefore_distinct _ a b Hstrict Ha Hb Hab Hcmp).
      * apply (Holdkey a Ha). rewrite Hk. now apply Hnewkey.
      * apply (Holdkey b Hb). rewrite <- Hk. now apply Hnewkey.
      * apply Hab.
        apply list_elem_of_lookup_1 in Ha as [ja Hja], Hb as [jb Hjb].
        assert (ja = jb) as <-.
        { apply (NoDup_lookup _ _ _ (hashvalue a) Hdist);
            rewrite list_lookup_fmap; [now rewrite Hja | now rewrite Hjb, Hh]. }
        congruence.
  - exact Hown'.
  - intros k rec Hk. cbn [nodes] in Hk.
    apply lookup_insert_Some in Hk as [[<- <-]|[_ Hk]].
    + rewrite Hrec. cbn [nr_virtualNodes]. split.
      * intros Hnil. pose proof (inv_factor h Hinv).
        fold new in Hnil. rewrite Hnil in Hlen. cbn in Hlen. lia.
      * rewrite Forall_forall. exact Hnewkey.
    + now apply Hkeyed.
Qed.

Lemma tieFree_Remove (h h' : Ring) (m : M) (err : option error) :
  tieFree h → Remove h m = Done (h', err) → tieFree h'.
Proof.
  intros [Hinv Hstrict Hown Hkeyed] Hr.
  destruct (nodes h !! Key m) as [rec|] eqn:Hm.
  - destruct (Remove_without_ties h m rec Hinv Hstrict Hown Hm)
      as (h2 & Hrun & _ & _ & Hnodes & _ & Hstrict' & Hown').
    rewrite Hrun in Hr. injection Hr as <- <-. split.
    + exact (ringInv_Remove h h2 m None Hinv Hrun).
    + exact Hstrict'.
    + exact Hown'.
    + intros k rec' Hk. rewrite Hnodes in Hk.
      apply lookup_delete_Some in Hk as [_ Hk]. now apply Hkeyed.
  - rewrite Remove_absent in Hr by exact Hm. injection Hr as <- <-. now split.
Qed.

Lemma reachableWithoutTies_tieFree (h : Ring) : reachableWithoutTies h → tieFree h.
Proof.
  induction 1 as [hf R h HN|h m _ IH Hd|h h' m err _ IH Hr].
  - exact (tieFree_New hf R h HN).
  - exact (tieFree_Add h m IH Hd).
  - exact (tieFree_Remove h h' m err IH Hr).
Qed.

(** On a ring built without ties the two promises that ties break hold:
    [FindN] returns exactly as many members as asked for whenever the ring
    has that many, and [Remove] of a member of the ring succeeds, takes all
    of the member's [R] virtual nodes off the ring and nothing else, and
    deletes its key. *)
Theorem ring_without_ties (h : Ring) :
  reachableWithoutTies h →
  (∀ (key : list byte) (num : nat),
      (num ≤ size (nodes h))%nat →
      (FindN h key num).2 = None ∧ length (FindN h key num).1 = num) ∧
  (∀ (m : M) (rec : nodeRecord),
      nodes h !! Key m = Some rec →
      ∃ h' : Ring,
        Remove h m = Done (h', None) ∧
        nodes h' = delete (Key m) (nodes h) ∧
        Z.of_nat (length (nr_virtualNodes rec)) = replicationFactor h ∧
        virtualNodes h ≡ₚ nr_virtualNodes rec ++ virtualNodes h' ∧
        ∀ v : virtualNode, v ∈ virtualNodes h' → nodeKey (members v) ≠ Key m).
Proof.
  intros Hr. pose proof (reachableWithoutTies_tieFree h Hr) as Htf.
  destruct Htf as [Hinv Hstrict Hown Hkeyed]. split.
  - intros key num Hnum.
    destruct (FindN_sorted h key num (strictlyBefore_notAfter _ Hstrict))
      as (_ & Hok & Hlen).
    split; [now rewrite (Hok Hnum)|]. apply Hlen; [exact Hnum|].
    intros k Hk. destruct (owned_has_key h k Hkeyed Hk) as (v & Hv & Hvk).
    exists v. split; [now rewrite Hown | exact Hvk].
  - intros m rec Hm.
    destruct (Remove_without_ties h m rec Hinv Hstrict Hown Hm)
      as (h' & Hrun & _ & _ & Hnodes & Hperm & _ & Hown').
    exists h'. split; [exact Hrun|]. split; [exact Hnodes|]. split.
    + rewrite (inv_records h Hinv _ _ Hm). pose proof (inv_factor h Hinv). lia.
    + split; [exact Hperm|]. intros v Hv Hkey.
      pose proof (tieFree_Remove h h' m None
                    {| tf_inv := Hinv; tf_strict := Hstrict; tf_owned := Hown;
                       tf_keyed := Hkeyed |} Hrun) as [_ _ _ Hkeyed'].
      rewrite Hown' in Hv. apply (owned_key h' v Hkeyed') in Hv as [rec' Hv].
      rewrite Hkey, Hnodes, lookup_delete_eq in Hv. discriminate.
Qed.

(** *** Records, owners and [Members] *)

(** [MustNew]: [New], with a panic in place of the error. *)
Definition MustNew (hasher : HashFunc) (replicationFactor : Z) : exec (option Ring) :=
  match New hasher replicationFactor with
  | (_, Some _) => Panicked
  | (hr, None) => Done hr
  end.

(** [less], the comparison of the earlier version of the package: whether
    [a] goes strictly before [b]. *)
Definition less (a b : virtualNode) : bool :=
  if hashvalue a =? hashvalue b then
    if nr_hashvalue (members a) =? nr_hashvalue (members b) then
      strings_Compare (nodeKey (members a)) (nodeKey (members b)) <? 0
    else nr_hashvalue (members a) <? nr_hashvalue (members b)
  else hashvalue a <? hashvalue b.

(** Every record is the one [Add] made for its member, stored under the
    member's key. *)
Definition madeByAdd (h : Ring) : Prop :=
  ∀ (k : string) (rec : nodeRecord),
    nodes h !! k = Some rec →
    Key (member rec) = k ∧
    rec = (newNode (hashfn h) (replicationFactor h) (member rec)).1.

(** Every virtual node on the ring carries the key of the member it
    carries. *)
Definition ownKeys (vnodes : list virtualNode) : Prop :=
  Forall (λ v, Key (member (members v)) = nodeKey (members v)) vnodes.

Lemma swapOut_elem (idxs : list nat) :
  ∀ (vnodes vnodes' : list virtualNode) (i : nat),
    swapOut vnodes i idxs = Done vnodes' →
    ∀ x : virtualNode, x ∈ vnodes' → x ∈ vnodes.
Proof.
  induction idxs as [|idx idxs IH]; intros vnodes vnodes' i Hs x Hx.
  - cbn in Hs. now injection Hs as <-.
  - cbn [swapOut] in Hs.
    destruct (length vnodes <? 1 + i)%nat; [discriminate|].
    destruct (vnodes !! (length vnodes - 1 - i)%nat) as [later|] eqn:Hl; [|discriminate].
    destruct (idx <? length vnodes)%nat; [|discriminate].
    specialize (IH _ _ _ Hs x Hx).
    apply list_elem_of_lookup in IH as [j Hj].
    destruct (decide (j = idx)) as [->|Hne].
    + rewrite list_lookup_insert_eq in Hj
        by (apply lookup_lt_Some in Hj; now rewrite length_insert in Hj).
      injection Hj as <-. eapply list_elem_of_lookup_2, Hl.
    + rewrite list_lookup_insert_ne in Hj by congruence.
      eapply list_elem_of_lookup_2, Hj.
Qed.

(** A successful [Remove]: the hash function and the replication factor are
    kept, the key is deleted, and no virtual node is new. *)
Lemma Remove_shape (h h' : Ring) (m : M) :
  Remove h m = Done (h', None) →
  hashfn h' = hashfn h ∧
  replicationFactor h' = replicationFactor h ∧
  nodes h' = delete (Key m) (nodes h) ∧
  ∀ x : virtualNode, x ∈ virtualNodes h' → x ∈ virtualNodes h.
Proof.
  unfold Remove. intros Hr.
  destruct (nodes h !! Key m) as [rec|]; [|discriminate].
  destruct (findIndexes _ _ _) as [idxs|e]; [|discriminate].
  destruct (negb _); [discriminate|].
  destruct (swapOut _ _ _) as [vnodes|] eqn:Hs; [|discriminate].
  destruct (_ <? _)%nat; [discriminate|].
  injection Hr as <-. cbn. repeat split; try reflexivity.
  intros x Hx. rewrite SortFunc_Permutation in Hx.
  apply (swapOut_elem _ _ _ _ Hs). eapply subseteq_take, Hx.
Qed.

Lemma Remove_cases (h h' : Ring) (m : M) (err : option error) :
  Remove h m = Done (h', err) →
  h' = h ∨ (err = None ∧ Remove h m = Done (h', None)).
Proof.
  destruct err as [e|]; intros Hr.
  - left. exact (Remove_error_unchanged _ _ _ _ Hr).
  - now right.
Qed.

Lemma newNode_record (hf : HashFunc) (R : Z) (m : M) :
  member (newNode hf R m).1 = m ∧
  nodeKey (newNode hf R m).1 = Key m ∧
  nr_virtualNodes (newNode hf R m).1 = (newNode hf R m).2.
Proof.
  destruct (newNode_spec hf R m) as (-> & _). cbn. auto.
Qed.

Lemma newNode_members (hf : HashFunc) (R : Z) (m : M) (v : virtualNode) :
  v ∈ (newNode hf R m).2 →
  nodeKey (members v) = Key m ∧ member (members v) = m.
Proof.
  intros Hv. apply list_elem_of_lookup in Hv as [j Hj].
  destruct (newNode_spec hf R m) as (_ & _ & Hnew).
  destruct (Hnew j v Hj) as [_ ->]. cbn. auto.
Qed.

Lemma madeByAdd_reachable (h : Ring) : reachable h → madeByAdd h.
Proof.
  induction 1 as [hf R h Hnew | h m _ IH | h h' m err _ IH Hr].
  - unfold New in Hnew. destruct (R <? 1); [discriminate|].
    injection Hnew as <-. intros k rec Hk. cbn in Hk. now rewrite lookup_empty in Hk.
  - destruct (nodes h !! Key m) as [rec0|] eqn:Hm.
    + rewrite Add_present by eauto. exact IH.
    + rewrite Add_fresh by exact Hm. intros k rec. cbn [fst nodes hashfn replicationFactor].
      destruct (decide (k = Key m)) as [->|Hne].
      * rewrite lookup_insert_eq. intros [= <-].
        destruct (newNode_record (hashfn h) (replicationFactor h) m) as (-> & _).
        auto.
      * rewrite lookup_insert_ne by congruence. apply IH.
  - destruct (Remove_cases _ _ _ _ Hr) as [->|[_ Hok]]; [exact IH|].
    destruct (Remove_shape _ _ _ Hok) as (Hhf & HR & Hn & _).
    intros k rec Hk. rewrite Hn in Hk. apply lookup_delete_Some in Hk as [_ Hk].
    rewrite Hhf, HR. now apply IH.
Qed.

Lemma ownKeys_reachable (h : Ring) : reachable h → ownKeys (virtualNodes h).
Proof.
  unfold ownKeys.
  induction 1 as [hf R h Hnew | h m _ IH | h h' m err _ IH Hr].
  - unfold New in Hnew. destruct (R <? 1); [discriminate|].
    injection Hnew as <-. constructor.
  - destruct (nodes h !! Key m) as [rec0|] eqn:Hm.
    + rewrite Add_present by eauto. exact IH.
    + rewrite Add_fresh by exact Hm. cbn [fst virtualNodes].
      rewrite SortFunc_Permutation. apply Forall_app. split; [exact IH|].
      apply Forall_forall. intros v Hv.
      now destruct (newNode_members _ _ _ _ Hv) as [-> ->].
  - destruct (Remove_cases _ _ _ _ Hr) as [->|[_ Hok]]; [exact IH|].
    destruct (Remove_shape _ _ _ Hok) as (_ & _ & _ & Hsub).
    apply Forall_forall. intros v Hv. rewrite Forall_forall in IH. auto.
Qed.

Lemma reachableWithoutTies_reachable (h : Ring) : reachableWithoutTies h → reachable h.
Proof.
  induction 1 as [hf R h Hnew | h m _ IH _ | h h' m err _ IH Hr].
  - exact (reachable_New _ _ _ Hnew).
  - now apply reachable_Add.
  - exact (reachable_Remove _ _ _ _ IH Hr).
Qed.

(** On a ring that holds the virtual nodes its records list, every virtual
    node has its owner in [nodes], with the member it carries. *)
Lemma owned_record (h : Ring) (v : virtualNode) :
  madeByAdd h → v ∈ owned (nodes h) →
  ∃ rec : nodeRecord,
    nodes h !! nodeKey (members v) = Some rec ∧
    member rec = member (members v) ∧
    Key (member (members v)) = nodeKey (members v).
Proof.
  intros Hmade Hv. unfold owned in Hv.
  apply list_elem_of_bind in Hv as ([k rec] & Hv & Hin).
  apply elem_of_map_to_list in Hin. cbn [snd] in Hv.
  destruct (Hmade k rec Hin) as [Hk Hrec].
  rewrite Hrec in Hv.
  destruct (newNode_record (hashfn h) (replicationFactor h) (member rec)) as (_ & _ & Hvs).
  rewrite Hvs in Hv.
  destruct (newNode_members _ _ _ _ Hv) as [Hvk Hvm].
  exists rec. rewrite Hvk, Hvm, Hk. auto.
Qed.

(** The owners [distinctOwners] lists have pairwise distinct keys, none of
    them in [seen], and each owns one of the virtual nodes. *)
Lemma distinctOwners_keys (vnodes : list virtualNode) :
  ownKeys vnodes →
  ∀ seen : gset string,
    NoDup (Key <$> distinctOwners seen vnodes) ∧
    ∀ x : M, x ∈ distinctOwners seen vnodes →
      (Key x ∉ seen) ∧
      ∃ v : virtualNode, v ∈ vnodes ∧ member (members v) = x ∧ nodeKey (members v) = Key x.
Proof.
  unfold ownKeys.
  induction vnodes as [|v vnodes IH]; intros Hown seen.
  - cbn. split; [constructor|]. intros x Hx. now apply elem_of_nil in Hx.
  - apply Forall_cons in Hown as [Hv Hown]. cbn [distinctOwners].
    destruct (decide (nodeKey (members v) ∈ seen)) as [Hin|Hnotin].
    + destruct (IH Hown seen) as [Hnd Hall]. split; [exact Hnd|].
      intros x Hx. destruct (Hall x Hx) as (Hk & w & Hw & Hm & Hwk).
      split; [exact Hk|]. exists w. split; [now right | auto].
    + destruct (IH Hown ({[nodeKey (members v)]} ∪ seen)) as [Hnd Hall]. split.
      * cbn [fmap list_fmap]. apply NoDup_cons. split; [|exact Hnd].
        intros Hdup. apply list_elem_of_fmap in Hdup as (y & Hy & Hyin).
        destruct (Hall y Hyin) as [Hk _]. apply Hk. rewrite <- Hy, Hv. set_solver.
      * intros x Hx. apply elem_of_cons in Hx as [->|Hx].
        -- split; [now rewrite Hv|]. exists v. split; [now left | auto].
        -- destruct (Hall x Hx) as (Hk & w & Hw & Hm & Hwk).
           split; [set_solver|]. exists w. split; [now right | auto].
Qed.

Lemma circular_Permutation (start : nat) (vnodes : list virtualNode) :
  circular start vnodes ≡ₚ vnodes.
Proof.
  unfold circular. rewrite Permutation_app_comm. now rewrite take_drop.
Qed.

(** What [FindN] lists on sorted virtual nodes: at most [num] owners of
    virtual nodes of the ring, with pairwise distinct keys. *)
Lemma FindN_owners (h : Ring) (key : list byte) (num : nat) :
  StronglySorted (notAfter cmpVnode) (virtualNodes h) →
  ownKeys (virtualNodes h) →
  (length (FindN h key num).1 ≤ num)%nat ∧
  NoDup (Key <$> (FindN h key num).1) ∧
  ∀ x : M, x ∈ (FindN h key num).1 →
    ∃ v : virtualNode,
      v ∈ virtualNodes h ∧ member (members v) = x ∧ nodeKey (members v) = Key x.
Proof.
  intros Hsorted Hown.
  destruct (FindN_sorted h key num Hsorted) as (Herr & Hok & _).
  destruct (decide (num ≤ size (nodes h))%nat) as [Hle|Hgt].
  - rewrite (Hok Hle). cbn [fst].
    set (c := circular _ _).
    assert (ownKeys c) as Hc.
    { unfold ownKeys, c. now rewrite circular_Permutation. }
    destruct (distinctOwners_keys c Hc ∅) as [Hnd Hall].
    split; [rewrite length_take; lia|]. split.
    + rewrite fmap_take. clear -Hnd.
      revert Hnd. generalize (Key <$> distinctOwners ∅ c). intros l Hnd.
      rewrite <- (take_drop num l) in Hnd. now apply NoDup_app in Hnd as [Hnd _].
    + intros x Hx. apply subseteq_take in Hx.
      destruct (Hall x Hx) as (_ & v & Hv & Hm & Hk).
      exists v. unfold c in Hv. rewrite circular_Permutation in Hv. auto.
  - unfold FindN. destruct (Nat.ltb_spec (size (nodes h)) num) as [_|]; [|lia].
    cbn. split; [lia|]. split; [constructor|].
    intros x Hx. now apply elem_of_nil in Hx.
Qed.

(** [Add]: [ErrMemberAlreadyExists], and the ring as it was, exactly when
    the member's key is in [nodes], whatever member is stored under it;
    otherwise nil, with a record for the member stored under its key and
    the record's [R] virtual nodes, all owned by the member, put in their
    places among the others. The hash function and the replication factor
    stay. *)
Theorem Add_effect (h : Ring) (m : M) :
  (is_Some (nodes h !! Key m) ↔ (Add h m).2 = Some ErrMemberAlreadyExists) ∧
  (is_Some (nodes h !! Key m) → (Add h m).1 = h) ∧
  (nodes h !! Key m = None →
     ∃ rec : nodeRecord,
       (Add h m).2 = None ∧
       nodes (Add h m).1 = <[Key m := rec]> (nodes h) ∧
       member rec = m ∧
       length (nr_virtualNodes rec) = Z.to_nat (replicationFactor h) ∧
       Forall (λ v, nodeKey (members v) = Key m ∧ member (members v) = m)
         (nr_virtualNodes rec) ∧
       virtualNodes (Add h m).1 ≡ₚ virtualNodes h ++ nr_virtualNodes rec ∧
       StronglySorted vnode_le (virtualNodes (Add h m).1)) ∧
  hashfn (Add h m).1 = hashfn h ∧
  replicationFactor (Add h m).1 = replicationFactor h.
Proof.
  split; [|split; [|split]].
  - split.
    + intros Hsome. now rewrite Add_present.
    + destruct (nodes h !! Key m) as [rec|] eqn:Hm; [eauto|].
      rewrite Add_fresh by exact Hm. discriminate.
  - intros Hsome. now rewrite Add_present.
  - intros Hm. rewrite Add_fresh by exact Hm. cbn [fst snd nodes virtualNodes].
    exists (newNode (hashfn h) (replicationFactor h) m).1.
    destruct (newNode_record (hashfn h) (replicationFactor h) m) as (Hmem & _ & Hvs).
    destruct (newNode_spec (hashfn h) (replicationFactor h) m) as (_ & Hlen & _).
    rewrite Hvs. repeat split; try reflexivity; try assumption.
    + apply Forall_forall. intros v Hv. exact (newNode_members _ _ _ _ Hv).
    + apply SortFunc_Permutation.
    + apply Sorted_vnode_le, SortFunc_Sorted; apply _.
  - split; [apply Add_hashfn | apply Add_replicationFactor].
Qed.

(** [Members] on a reachable ring: one member for each key of [nodes], the
    member [Add] stored under it. A successful [Add] puts the member on the
    list, a successful [Remove] takes the stored member with that key off
    it, and the other members stay. *)
Theorem Members_spec (h : Ring) :
  reachable h →
  length (Members h) = size (nodes h) ∧
  NoDup (Key <$> Members h) ∧
  (∀ x : M, x ∈ Members h ↔ ∃ rec : nodeRecord,
      nodes h !! Key x = Some rec ∧ member rec = x) ∧
  (∀ m : M, nodes h !! Key m = None → Members (Add h m).1 ≡ₚ m :: Members h) ∧
  (∀ (m : M) (h' : Ring) (rec : nodeRecord),
      nodes h !! Key m = Some rec → Remove h m = Done (h', None) →
      Members h ≡ₚ member rec :: Members h').
Proof.
  intros Hr. pose proof (madeByAdd_reachable h Hr) as Hmade.
  unfold Members. split; [|split; [|split; [|split]]].
  - now rewrite length_fmap, length_map_to_list.
  - rewrite <- list_fmap_compose.
    rewrite (list_fmap_ext _ fst).
    + apply NoDup_fst_map_to_list.
    + intros i [k rec] Hi. cbn.
      apply list_elem_of_lookup_2, elem_of_map_to_list in Hi.
      now destruct (Hmade k rec Hi).
  - intros x. rewrite list_elem_of_fmap. split.
    + intros ([k rec] & -> & Hin). apply elem_of_map_to_list in Hin. cbn.
      destruct (Hmade k rec Hin) as [-> _]. eauto.
    + intros (rec & Hrec & <-). exists (Key (member rec), rec).
      split; [reflexivity | now apply elem_of_map_to_list].
  - intros m Hm. rewrite Add_fresh by exact Hm. cbn [fst nodes].
    rewrite (map_to_list_insert _ _ _ Hm). cbn [fmap list_fmap snd].
    now destruct (newNode_record (hashfn h) (replicationFactor h) m) as (-> & _).
  - intros m h' rec Hrec Hok.
    destruct (Remove_shape _ _ _ Hok) as (_ & _ & -> & _).
    now rewrite <- (map_to_list_delete _ _ _ Hrec).
Qed.

(** [FindN] on a reachable ring never returns more members than asked for,
    never two members with one key, and never a member that owns no
    virtual node on the ring. *)
Theorem FindN_distinct (h : Ring) (key : list byte) (num : nat) :
  reachable h →
  (length (FindN h key num).1 ≤ num)%nat ∧
  NoDup (Key <$> (FindN h key num).1) ∧
  ∀ x : M, x ∈ (FindN h key num).1 →
    ∃ v : virtualNode,
      v ∈ virtualNodes h ∧ member (members v) = x ∧ nodeKey (members v) = Key x.
Proof.
  intros Hr. apply FindN_owners.
  - exact (inv_sorted _ (reachable_ringInv _ Hr)).
  - exact (ownKeys_reachable _ Hr).
Qed.

Lemma FindN_stored (h : Ring) (key : list byte) (num : nat) (x : M) :
  reachableWithoutTies h →
  x ∈ (FindN h key num).1 →
  ∃ rec : nodeRecord, nodes h !! Key x = Some rec ∧ member rec = x.
Proof.
  intros Hr Hx.
  pose proof (reachableWithoutTies_reachable _ Hr) as Hreach.
  pose proof (madeByAdd_reachable _ Hreach) as Hmade.
  pose proof (reachableWithoutTies_tieFree _ Hr) as Htf.
  destruct (FindN_owners h key num (inv_sorted _ (tf_inv _ Htf))
              (ownKeys_reachable _ Hreach)) as (_ & _ & Hall).
  destruct (Hall x Hx) as (v & Hv & Hm & Hk).
  rewrite (tf_owned _ Htf) in Hv.
  destruct (owned_record h v Hmade Hv) as (rec & Hrec & Hmem & _).
  exists rec. rewrite <- Hk, Hmem. auto.
Qed.

(** Whether a member has two virtual nodes with one hash depends on its key
    only. *)
Lemma distinctHashes_Key (hf : HashFunc) (R : Z) (m m' : M) :
  Key m = Key m' → distinctHashes hf R m → distinctHashes hf R m'.
Proof.
  intros Hkey. unfold distinctHashes.
  enough (hashvalue <$> (newNode hf R m).2 = hashvalue <$> (newNode hf R m').2) as ->
    by auto.
  destruct (newNode_spec hf R m) as (_ & Hlen & Hnew).
  destruct (newNode_spec hf R m') as (_ & Hlen' & Hnew').
  apply list_eq. intros j. rewrite !list_lookup_fmap.
  destruct ((newNode hf R m).2 !! j) as [v|] eqn:Hj;
    destruct ((newNode hf R m').2 !! j) as [v'|] eqn:Hj'; cbn.
  - destruct (Hnew j v Hj) as [-> _]. destruct (Hnew' j v' Hj') as [-> _].
    now rewrite Hkey.
  - apply lookup_lt_Some in Hj. apply lookup_ge_None in Hj'. lia.
  - apply lookup_ge_None in Hj. apply lookup_lt_Some in Hj'. lia.
  - reflexivity.
Qed.

(** On a ring built without ties every member [FindN] returns is a member
    of the ring: its key is in [nodes], and it is the member stored there,
    so that [Members] lists it. *)
Theorem FindN_members (h : Ring) (key : list byte) (num : nat) (x : M) :
  reachableWithoutTies h →
  x ∈ (FindN h key num).1 →
  (∃ rec : nodeRecord, nodes h !! Key x = Some rec ∧ member rec = x) ∧
  x ∈ Members h.
Proof.
  intros Hr Hx.
  destruct (FindN_stored h key num x Hr Hx) as (rec & Hrec & Hmem).
  split; [eauto|]. unfold Members.
  apply list_elem_of_fmap. exists (Key x, rec).
  split; [cbn; congruence | now apply elem_of_map_to_list].
Qed.

(** *** [FindN] before and after a change of membership *)

Lemma StronglySorted_filter {A : Type} (R : relation A) (P : A → Prop)
    `{!∀ x, Decision (P x)} (l : list A) :
  StronglySorted R l → StronglySorted R (filter P l).
Proof.
  induction 1 as [|x l Hl IH Hx]; [constructor|].
  rewrite filter_cons. destruct (decide (P x)); [|exact IH].
  constructor; [exact IH|]. apply Forall_forall. intros y Hy.
  apply list_elem_of_filter in Hy as [_ Hy]. rewrite Forall_forall in Hx. auto.
Qed.

Lemma filter_all {A : Type} (P : A → Prop) `{!∀ x, Decision (P x)} (l : list A) :
  Forall P l → filter P l = l.
Proof.
  induction 1 as [|x l Hx _ IH]; [reflexivity|].
  now rewrite filter_cons_True, IH.
Qed.

Lemma filter_none {A : Type} (P : A → Prop) `{!∀ x, Decision (P x)} (l : list A) :
  Forall (λ x, ¬ P x) l → filter P l = [].
Proof.
  induction 1 as [|x l Hx _ IH]; [reflexivity|].
  now rewrite filter_cons_False.
Qed.

Lemma filter_filter_comm {A : Type} (P Q : A → Prop) `{!∀ x, Decision (P x)}
    `{!∀ x, Decision (Q x)} (l : list A) :
  filter P (filter Q l) = filter Q (filter P l).
Proof.
  induction l as [|a l IH]; [reflexivity|].
  rewrite (filter_cons Q a l), (filter_cons P a l).
  destruct (decide (Q a)) as [Hq|Hq], (decide (P a)) as [Hp|Hp];
    rewrite ?(filter_cons_True P a) by exact Hp;
    rewrite ?(filter_cons_False P a) by exact Hp;
    rewrite ?(filter_cons_True Q a) by exact Hq;
    rewrite ?(filter_cons_False Q a) by exact Hq;
    now rewrite IH.
Qed.

Lemma filter_take_prefix {A : Type} (P : A → Prop) `{!∀ x, Decision (P x)}
    (l : list A) (n : nat) :
  filter P (take n l) `prefix_of` take n (filter P l).
Proof.
  rewrite <- (take_drop n l) at 2. rewrite filter_app, take_app.
  rewrite (take_ge (filter P (take n l))).
  - now apply prefix_app_r.
  - etransitivity; [apply length_filter|]. rewrite length_take. lia.
Qed.

Lemma strictlyBefore_inj (l : list virtualNode) (a b : virtualNode) :
  StronglySorted strictlyBefore l → a ∈ l → b ∈ l → cmpVnode a b = 0 → a = b.
Proof.
  intros Hs Ha Hb Hcmp.
  apply list_elem_of_lookup in Ha as [i Hi], Hb as [j Hj].
  destruct (Nat.lt_trichotomy i j) as [Hlt|[->|Hlt]].
  - pose proof (StronglySorted_lookup_le _ _ _ _ _ _ Hs Hlt Hi Hj) as Hab.
    unfold strictlyBefore in Hab. lia.
  - congruence.
  - pose proof (StronglySorted_lookup_le _ _ _ _ _ _ Hs Hlt Hj Hi) as Hba.
    unfold strictlyBefore in Hba. rewrite (cmpVnode_antisym b a) in Hba. lia.
Qed.

(** The walk of [FindN] reads the sorted virtual nodes from the first hash
    at or above the key's to the end, and then those below it. *)
Lemma circular_startIndex (vnodes : list virtualNode) (keyHash : Z) :
  StronglySorted (notAfter cmpVnode) vnodes →
  circular (startIndex vnodes keyHash) vnodes =
    filter (λ v, keyHash ≤ hashvalue v) vnodes ++
    filter (λ v, hashvalue v < keyHash) vnodes.
Proof.
  intros Hs. unfold circular, startIndex.
  destruct (list_find _ vnodes) as [[i v]|] eqn:Hfind.
  - apply list_find_Some in Hfind as (Hi & Hv & Hbelow).
    rewrite <- (take_drop i vnodes) at 3 4. rewrite !filter_app.
    rewrite (filter_none (λ v, keyHash ≤ hashvalue v) (take i vnodes)).
    + rewrite (filter_all (λ v, keyHash ≤ hashvalue v) (drop i vnodes)).
      * rewrite (filter_all (λ v, hashvalue v < keyHash) (take i vnodes)).
        -- rewrite (filter_none (λ v, hashvalue v < keyHash) (drop i vnodes)).
           ++ now rewrite app_nil_r.
           ++ apply Forall_forall. intros y Hy.
              apply list_elem_of_lookup in Hy as [j Hj]. rewrite lookup_drop in Hj.
              destruct j as [|j].
              ** rewrite Nat.add_0_r, Hi in Hj. injection Hj as <-. lia.
              ** assert (i < i + S j)%nat as Hlt by lia.
                 pose proof (StronglySorted_lookup_le _ _ _ _ _ _ Hs Hlt Hi Hj) as Hle.
                 apply cmpVnode_hashvalue in Hle. lia.
        -- apply Forall_forall. intros y Hy.
           apply elem_of_take in Hy as (j & Hj & Hlt).
           specialize (Hbelow j y Hj Hlt). lia.
      * apply Forall_forall. intros y Hy.
        apply list_elem_of_lookup in Hy as [j Hj]. rewrite lookup_drop in Hj.
        destruct j as [|j].
        -- rewrite Nat.add_0_r, Hi in Hj. now injection Hj as <-.
        -- assert (i < i + S j)%nat as Hlt by lia.
           pose proof (StronglySorted_lookup_le _ _ _ _ _ _ Hs Hlt Hi Hj) as Hle.
           apply cmpVnode_hashvalue in Hle. lia.
    + apply Forall_forall. intros y Hy.
      apply elem_of_take in Hy as (j & Hj & Hlt). exact (Hbelow j y Hj Hlt).
  - apply list_find_None in Hfind.
    rewrite (filter_none _ _ Hfind). cbn [drop take app]. rewrite app_nil_r.
    symmetry. apply filter_all.
    eapply Forall_impl; [exact Hfind|]. intros y Hy. cbn in Hy. lia.
Qed.

Lemma distinctOwners_seen (k : string) (vnodes : list virtualNode) :
  Forall (λ v, nodeKey (members v) ≠ k) vnodes →
  ∀ seen : gset string,
    distinctOwners ({[k]} ∪ seen) vnodes = distinctOwners seen vnodes.
Proof.
  induction 1 as [|v vnodes Hv _ IH]; intros seen; [reflexivity|].
  cbn [distinctOwners].
  destruct (decide (nodeKey (members v) ∈ {[k]} ∪ seen)) as [Hin|Hnotin],
    (decide (nodeKey (members v) ∈ seen)) as [Hin'|Hnotin'].
  - apply IH.
  - set_solver.
  - set_solver.
  - f_equal. rewrite <- (IH ({[nodeKey (members v)]} ∪ seen)). f_equal.
    set_solver.
Qed.

(** Striking the members with key [k] out of the owners met along a walk
    gives the owners met along the walk without the virtual nodes of [k]. *)
Lemma distinctOwners_without (k : string) (vnodes : list virtualNode) :
  ownKeys vnodes →
  ∀ seen : gset string,
    filter (λ x, Key x ≠ k) (distinctOwners seen vnodes) =
      distinctOwners seen (filter (λ v, nodeKey (members v) ≠ k) vnodes).
Proof.
  unfold ownKeys.
  induction 1 as [|v vnodes Hv _ IH]; intros seen; [reflexivity|].
  cbn [distinctOwners]. rewrite filter_cons.
  destruct (decide (nodeKey (members v) ≠ k)) as [Hne|Heq].
  - cbn [distinctOwners].
    destruct (decide (nodeKey (members v) ∈ seen)) as [Hin|Hnotin]; [apply IH|].
    rewrite filter_cons_True by now rewrite Hv.
    f_equal. apply IH.
  - apply dec_stable in Heq.
    destruct (decide (nodeKey (members v) ∈ seen)) as [Hin|Hnotin]; [apply IH|].
    rewrite filter_cons_False by (rewrite Hv; tauto).
    rewrite IH, Heq. apply distinctOwners_seen.
    apply Forall_forall. intros w Hw. now apply list_elem_of_filter in Hw as [Hw _].
Qed.

(** The owners [FindN] walks through on a ring, and on the ring without
    the virtual nodes of key [k]: the second list is the first with the
    members of key [k] struck out. *)
Lemma owners_without (k : string) (big small : list virtualNode) (keyHash : Z) :
  StronglySorted (notAfter cmpVnode) big →
  StronglySorted (notAfter cmpVnode) small →
  ownKeys big →
  filter (λ v, nodeKey (members v) ≠ k) big = small →
  distinctOwners ∅ (circular (startIndex small keyHash) small) =
    filter (λ x, Key x ≠ k) (distinctOwners ∅ (circular (startIndex big keyHash) big)).
Proof.
  intros Hbig Hsmall Hown Hf.
  rewrite (circular_startIndex big keyHash Hbig), (circular_startIndex small keyHash Hsmall).
  rewrite distinctOwners_without.
  - rewrite filter_app, <- Hf.
    now rewrite (filter_filter_comm _ (λ v, keyHash ≤ hashvalue v)),
      (filter_filter_comm _ (λ v, hashvalue v < keyHash)).
  - unfold ownKeys in *. apply Forall_app. split;
      (apply Forall_forall; intros v Hv; apply list_elem_of_filter in Hv as [_ Hv];
       rewrite Forall_forall in Hown; auto).
Qed.

(** A ring without ties, less the virtual nodes of one key, is what is left
    when they are filtered out. *)
Lemma filter_owner_unique (k : string) (big small others : list virtualNode) :
  StronglySorted strictlyBefore big →
  StronglySorted (notAfter cmpVnode) small →
  big ≡ₚ small ++ others →
  Forall (λ v, nodeKey (members v) ≠ k) small →
  Forall (λ v, nodeKey (members v) = k) others →
  filter (λ v, nodeKey (members v) ≠ k) big = small.
Proof.
  intros Hbig Hsmall Hperm Hs Ho.
  apply (StronglySorted_unique_strong (notAfter cmpVnode)).
  - intros x1 x2 H1 H2 H12 H21.
    apply (strictlyBefore_inj big).
    + exact Hbig.
    + now apply list_elem_of_filter in H1 as [_ H1].
    + rewrite Hperm. apply elem_of_app. now left.
    + now apply cmpVnode_same.
  - apply StronglySorted_filter, strictlyBefore_notAfter, Hbig.
  - exact Hsmall.
  - rewrite Hperm, filter_app, (filter_all _ _ Hs), filter_none, app_nil_r; [reflexivity|].
    eapply Forall_impl; [exact Ho|]. intros v Hv. cbn in *. tauto.
Qed.

(** [FindN] on a ring without ties that has [num] members or more. *)
Lemma tieFree_FindN (h : Ring) (key : list byte) (num : nat) :
  tieFree h → (num ≤ size (nodes h))%nat →
  FindN h key num =
    (take num (distinctOwners ∅
                 (circular (startIndex (virtualNodes h) (hashfn h key)) (virtualNodes h))),
     None) ∧
  length (FindN h key num).1 = num.
Proof.
  intros [Hinv Hstrict Hown Hkeyed] Hnum.
  destruct (FindN_sorted h key num (strictlyBefore_notAfter _ Hstrict)) as (_ & Hok & Hlen).
  split; [exact (Hok Hnum)|]. apply Hlen; [exact Hnum|].
  intros k Hk. destruct (owned_has_key h k Hkeyed Hk) as (v & Hv & Hvk).
  exists v. split; [now rewrite Hown | exact Hvk].
Qed.

(** Consistency when a member joins. On a ring built without ties, with
    [num] members or more, [Add] of a new member [m] changes what
    [FindN(key, num)] returns by [m] alone: the new result with [m] struck
    out is a front part of the old result, in the old order; [m] is the only
    member of its key in it and occurs at most once; and where [m] is not
    returned the result is the old one. *)
Theorem Add_consistent (h : Ring) (m : M) (key : list byte) (num : nat) :
  reachableWithoutTies h →
  distinctHashes (hashfn h) (replicationFactor h) m →
  nodes h !! Key m = None →
  (num ≤ size (nodes h))%nat →
  let old := (FindN h key num).1 in
  let new := (FindN (Add h m).1 key num).1 in
  filter (λ x, Key x ≠ Key m) new `prefix_of` old ∧
  (∀ x : M, x ∈ new → Key x = Key m → x = m) ∧
  NoDup (Key <$> new) ∧
  length new = num ∧ length old = num ∧
  (m ∉ new → new = old).
Proof.
  intros Hr Hdist Hfresh Hnum old new.
  pose proof (reachableWithoutTies_tieFree _ Hr) as Htf.
  pose proof (tieFree_Add h m Htf Hdist) as Htf'.
  pose proof (reachableWithoutTies_reachable _ Hr) as Hreach.
  pose proof (madeByAdd_reachable _ Hreach) as Hmade.
  pose proof (ownKeys_reachable _ (reachable_Add h m Hreach)) as Hown'.
  assert (virtualNodes (Add h m).1 ≡ₚ
            virtualNodes h ++ (newNode (hashfn h) (replicationFactor h) m).2) as Hperm.
  { rewrite Add_fresh by exact Hfresh. cbn [fst virtualNodes]. apply SortFunc_Permutation. }
  assert (Forall (λ v, nodeKey (members v) ≠ Key m) (virtualNodes h)) as Hold.
  { apply Forall_forall. intros v Hv Hk. rewrite (tf_owned _ Htf) in Hv.
    destruct (owned_record h v Hmade Hv) as (rec & Hrec & _).
    rewrite Hk, Hfresh in Hrec. discriminate. }
  assert (filter (λ v, nodeKey (members v) ≠ Key m) (virtualNodes (Add h m).1) =
            virtualNodes h) as Hf.
  { apply (filter_owner_unique _ _ _ (newNode (hashfn h) (replicationFactor h) m).2).
    - exact (tf_strict _ Htf').
    - exact (inv_sorted _ (tf_inv _ Htf)).
    - exact Hperm.
    - exact Hold.
    - apply Forall_forall. intros v Hv. now destruct (newNode_members _ _ _ _ Hv). }
  assert (size (nodes (Add h m).1) = S (size (nodes h))) as Hsize.
  { rewrite Add_fresh by exact Hfresh. cbn [fst nodes].
    now apply map_size_insert_None. }
  destruct (tieFree_FindN h key num Htf Hnum) as [Hfind Hlen].
  destruct (tieFree_FindN (Add h m).1 key num Htf') as [Hfind' Hlen']; [lia|].
  rewrite Add_hashfn in Hfind'.
  pose proof (owners_without (Key m) (virtualNodes (Add h m).1) (virtualNodes h)
                (hashfn h key) (inv_sorted _ (tf_inv _ Htf')) (inv_sorted _ (tf_inv _ Htf))
                Hown' Hf) as Howners.
  destruct (FindN_owners (Add h m).1 key num (inv_sorted _ (tf_inv _ Htf')) Hown')
    as (_ & Hnd & Hall).
  assert (filter (λ x, Key x ≠ Key m) new `prefix_of` old) as Hprefix.
  { subst old new. rewrite Hfind, Hfind'. cbn [fst]. rewrite Howners.
    apply filter_take_prefix. }
  assert (∀ x : M, x ∈ new → Key x = Key m → x = m) as Honly.
  { intros x Hx Hk. destruct (Hall x Hx) as (v & Hv & Hvm & Hvk).
    rewrite Hperm in Hv. apply elem_of_app in Hv as [Hv|Hv].
    - rewrite Forall_forall in Hold. destruct (Hold v Hv). congruence.
    - destruct (newNode_members _ _ _ _ Hv) as [_ Hmem]. congruence. }
  split; [exact Hprefix|]. split; [exact Honly|]. split; [exact Hnd|].
  split; [exact Hlen'|]. split; [exact Hlen|].
  intros Hnotin. apply prefix_length_eq.
  - rewrite <- (filter_all (λ x, Key x ≠ Key m) new); [exact Hprefix|].
    apply Forall_forall. intros x Hx Hk. apply Hnotin.
    now rewrite <- (Honly x Hx Hk).
  - subst old new. lia.
Qed.

(** Consistency when a member leaves. On a ring built without ties, [Remove]
    of a member leaves every other member where [FindN(key, num)] had it:
    the old result with the members of the removed key struck out is a
    front part of the new result, in the old order; the new result has no
    member of that key; and where the old result had none the result is
    unchanged. *)
Theorem Remove_consistent (h : Ring) (m : M) (key : list byte) (num : nat) :
  reachableWithoutTies h →
  is_Some (nodes h !! Key m) →
  (num < size (nodes h))%nat →
  ∃ h' : Ring,
    Remove h m = Done (h', None) ∧
    let old := (FindN h key num).1 in
    let new := (FindN h' key num).1 in
    filter (λ x, Key x ≠ Key m) old `prefix_of` new ∧
    (∀ x : M, x ∈ new → Key x ≠ Key m) ∧
    length new = num ∧ length old = num ∧
    ((∀ x : M, x ∈ old → Key x ≠ Key m) → new = old).
Proof.
  intros Hr [rec Hrec] Hnum.
  pose proof (reachableWithoutTies_tieFree _ Hr) as Htf.
  pose proof (reachableWithoutTies_reachable _ Hr) as Hreach.
  pose proof (ownKeys_reachable _ Hreach) as Hown.
  destruct (Remove_without_ties h m rec (tf_inv _ Htf) (tf_strict _ Htf) (tf_owned _ Htf)
              Hrec) as (h' & Hrun & Hhf & _ & Hnodes & Hperm & Hstrict' & Hown').
  pose proof (tieFree_Remove h h' m None Htf Hrun) as Htf'.
  exists h'. split; [exact Hrun|]. intros old new.
  assert (filter (λ v, nodeKey (members v) ≠ Key m) (virtualNodes h) = virtualNodes h')
    as Hf.
  { apply (filter_owner_unique _ _ _ (nr_virtualNodes rec)).
    - exact (tf_strict _ Htf).
    - exact (inv_sorted _ (tf_inv _ Htf')).
    - rewrite Hperm. apply Permutation_app_comm.
    - apply Forall_forall. intros v Hv Hk. rewrite Hown' in Hv.
      apply (owned_key h' v (tf_keyed _ Htf')) in Hv as [rec' Hv].
      rewrite Hk, Hnodes, lookup_delete_eq in Hv. discriminate.
    - exact (proj2 (tf_keyed _ Htf _ _ Hrec)). }
  assert (size (nodes h') = pred (size (nodes h))) as Hsize.
  { rewrite Hnodes. apply map_size_delete_Some. eauto. }
  destruct (tieFree_FindN h key num Htf) as [Hfind Hlen]; [lia|].
  destruct (tieFree_FindN h' key num Htf') as [Hfind' Hlen']; [lia|].
  rewrite Hhf in Hfind'.
  pose proof (owners_without (Key m) (virtualNodes h) (virtualNodes h')
                (hashfn h key) (inv_sorted _ (tf_inv _ Htf)) (inv_sorted _ (tf_inv _ Htf'))
                Hown Hf) as Howners.
  assert (filter (λ x, Key x ≠ Key m) old `prefix_of` new) as Hprefix.
  { subst old new. rewrite Hfind, Hfind'. cbn [fst]. rewrite Howners.
    apply filter_take_prefix. }
  split; [exact Hprefix|]. split; [|split; [exact Hlen'|split; [exact Hlen|]]].
  - intros x Hx. subst new. rewrite Hfind' in Hx. cbn [fst] in Hx.
    apply subseteq_take in Hx. rewrite Howners in Hx.
    now apply list_elem_of_filter in Hx as [Hx _].
  - intros Hnone. symmetry. apply prefix_length_eq.
    + rewrite <- (filter_all (λ x, Key x ≠ Key m) old); [exact Hprefix|].
      apply Forall_forall. exact Hnone.
    + subst old new. lia.
Qed.

(** [Add] and then [Remove] of the same member, on a ring built without
    ties that did not have its key: the ring is the ring as it was before
    the two calls, records and virtual nodes alike. *)
Theorem Add_Remove_restores (h : Ring) (m : M) :
  reachableWithoutTies h →
  distinctHashes (hashfn h) (replicationFactor h) m →
  nodes h !! Key m = None →
  (Add h m).2 = None ∧ Remove (Add h m).1 m = Done (h, None).
Proof.
  intros Hr Hdist Hfresh.
  pose proof (reachableWithoutTies_tieFree _ Hr) as Htf.
  pose proof (tieFree_Add h m Htf Hdist) as Htf'.
  split; [now rewrite Add_fresh|].
  assert (nodes (Add h m).1 !! Key m =
            Some (newNode (hashfn h) (replicationFactor h) m).1) as Hrec.
  { rewrite Add_fresh by exact Hfresh. cbn [fst nodes]. apply lookup_insert_eq. }
  destruct (Remove_without_ties (Add h m).1 m _ (tf_inv _ Htf') (tf_strict _ Htf')
              (tf_owned _ Htf') Hrec)
    as (h' & Hrun & Hhf & HR & Hnodes & Hperm & Hstrict' & _).
  rewrite Hrun. do 2 f_equal.
  rewrite Add_hashfn in Hhf. rewrite Add_replicationFactor in HR.
  assert (nodes h' = nodes h) as Hn.
  { rewrite Hnodes, Add_fresh by exact Hfresh. cbn [fst nodes].
    now apply delete_insert_id. }
  assert (virtualNodes h' = virtualNodes h) as Hv.
  { assert (virtualNodes h' ≡ₚ virtualNodes h) as Hp.
    { destruct (newNode_record (hashfn h) (replicationFactor h) m) as (_ & _ & Hvs).
      rewrite Hvs in Hperm. rewrite Add_fresh in Hperm by exact Hfresh.
      cbn [fst virtualNodes] in Hperm. rewrite SortFunc_Permutation in Hperm.
      rewrite (Permutation_app_comm (virtualNodes h)) in Hperm.
      symmetry. exact (Permutation_app_inv_l _ _ _ Hperm). }
    apply (StronglySorted_unique_strong (notAfter cmpVnode)).
    - intros x1 x2 H1 H2 H12 H21. apply (strictlyBefore_inj (virtualNodes h)).
      + exact (tf_strict _ Htf).
      + now rewrite <- Hp.
      + exact H2.
      + now apply cmpVnode_same.
    - exact (strictlyBefore_notAfter _ Hstrict').
    - exact (inv_sorted _ (tf_inv _ Htf)).
    - exact Hp. }
  destruct h' as [hf' R' nodes' vnodes'], h as [hf R0 nodes0 vnodes0].
  cbn in Hhf, HR, Hn, Hv. now subst.
Qed.

(** [Remove] of a member and then [Add] of the member that was stored, on
    a ring built without ties: the ring is the ring as it was before the
    two calls. What the ring holds depends on its members only, not on the
    calls that brought them. *)
Theorem Remove_Add_restores (h : Ring) (m : M) (rec : nodeRecord) :
  reachableWithoutTies h →
  nodes h !! Key m = Some rec →
  ∃ h' : Ring,
    Remove h m = Done (h', None) ∧ Add h' (member rec) = (h, None).
Proof.
  intros Hr Hrec.
  pose proof (reachableWithoutTies_tieFree _ Hr) as Htf.
  pose proof (madeByAdd_reachable _ (reachableWithoutTies_reachable _ Hr)) as Hmade.
  destruct (Hmade _ _ Hrec) as [Hkey Hmk].
  destruct (Remove_without_ties h m rec (tf_inv _ Htf) (tf_strict _ Htf) (tf_owned _ Htf)
              Hrec) as (h' & Hrun & Hhf & HR & Hnodes & Hperm & _ & _).
  exists h'. split; [exact Hrun|].
  rewrite Add_fresh by (rewrite Hkey, Hnodes; apply lookup_delete_eq).
  rewrite Hhf, HR, Hkey, <- Hmk. f_equal.
  assert (<[Key m := rec]> (nodes h') = nodes h) as Hn.
  { rewrite Hnodes. now apply insert_delete_id. }
  destruct (newNode_record (hashfn h) (replicationFactor h) (member rec)) as (_ & _ & Hvs).
  rewrite <- Hmk in Hvs. rewrite <- Hvs.
  assert (SortFunc (virtualNodes h' ++ nr_virtualNodes rec) cmpVnode = virtualNodes h)
    as Hv.
  { apply (StronglySorted_unique_strong (notAfter cmpVnode)).
    - intros x1 x2 H1 H2 H12 H21. apply (strictlyBefore_inj (virtualNodes h)).
      + exact (tf_strict _ Htf).
      + rewrite SortFunc_Permutation, Permutation_app_comm, <- Hperm in H1. exact H1.
      + exact H2.
      + now apply cmpVnode_same.
    - apply SortFunc_Sorted; apply _.
    - exact (inv_sorted _ (tf_inv _ Htf)).
    - now rewrite SortFunc_Permutation, Permutation_app_comm. }
  rewrite Hn, Hv. now destruct h.
Qed.

(** Asking [FindN] for more members never changes the first ones: on a
    reachable ring, the answer for [num] members is the first [num] of the
    answer for any larger number the ring can serve. *)
Theorem FindN_prefix (h : Ring) (key : list byte) (num num' : nat) :
  reachable h →
  (num ≤ num')%nat → (num' ≤ size (nodes h))%nat →
  FindN h key num = (take num (FindN h key num').1, None).
Proof.
  intros Hr Hle Hsize.
  pose proof (inv_sorted _ (reachable_ringInv _ Hr)) as Hsorted.
  destruct (FindN_sorted h key num Hsorted) as (_ & Hok & _).
  destruct (FindN_sorted h key num' Hsorted) as (_ & Hok' & _).
  rewrite (Hok ltac:(lia)), (Hok' Hsize). cbn [fst].
  rewrite take_take. do 2 f_equal. lia.
Qed.

(** A ring built without ties is determined by its hash function, its
    replication factor and its members, whatever calls of [Add] and [Remove]
    brought them: two such rings with the same members under the same keys
    are equal, records and virtual nodes alike, so that every call answers
    alike on both. *)
Theorem ring_history_independent (h1 h2 : Ring) :
  reachableWithoutTies h1 →
  reachableWithoutTies h2 →
  hashfn h1 = hashfn h2 →
  replicationFactor h1 = replicationFactor h2 →
  (∀ k : string, member <$> nodes h1 !! k = member <$> nodes h2 !! k) →
  h1 = h2.
Proof.
  intros Hr1 Hr2 Hhf HR Hmembers.
  pose proof (reachableWithoutTies_tieFree _ Hr1) as Htf1.
  pose proof (reachableWithoutTies_tieFree _ Hr2) as Htf2.
  pose proof (madeByAdd_reachable _ (reachableWithoutTies_reachable _ Hr1)) as Hmade1.
  pose proof (madeByAdd_reachable _ (reachableWithoutTies_reachable _ Hr2)) as Hmade2.
  assert (nodes h1 = nodes h2) as Hnodes.
  { apply map_eq. intros k. specialize (Hmembers k).
    destruct (nodes h1 !! k) as [rec1|] eqn:H1, (nodes h2 !! k) as [rec2|] eqn:H2;
      cbn in Hmembers; try discriminate; [|reflexivity].
    injection Hmembers as Hm.
    destruct (Hmade1 _ _ H1) as [_ ->], (Hmade2 _ _ H2) as [_ ->].
    now rewrite Hhf, HR, Hm. }
  assert (virtualNodes h1 = virtualNodes h2) as Hvnodes.
  { assert (virtualNodes h1 ≡ₚ virtualNodes h2) as Hperm
      by now rewrite (tf_owned _ Htf1), (tf_owned _ Htf2), Hnodes.
    apply (StronglySorted_unique_strong (notAfter cmpVnode)).
    - intros x1 x2 H1 H2 H12 H21. apply (strictlyBefore_inj (virtualNodes h2)).
      + exact (tf_strict _ Htf2).
      + now rewrite <- Hperm.
      + exact H2.
      + now apply cmpVnode_same.
    - exact (inv_sorted _ (tf_inv _ Htf1)).
    - exact (inv_sorted _ (tf_inv _ Htf2)).
    - exact Hperm. }
  destruct h1, h2. cbn in *. now subst.
Qed.

(** [cmpVnode] is a three-way comparison: it returns -1, 0 or +1, swapping
    the arguments negates it, it is 0 exactly for virtual nodes with the
    same hash, the same owner hash and the same owner key, and "not after"
    is transitive. [less], the comparison of the earlier version, is its
    strict part. *)
Theorem cmpVnode_order (a b c : virtualNode) :
  (cmpVnode a b = -1 ∨ cmpVnode a b = 0 ∨ cmpVnode a b = 1) ∧
  cmpVnode b a = - cmpVnode a b ∧
  (cmpVnode a b = 0 ↔
     hashvalue a = hashvalue b ∧
     nr_hashvalue (members a) = nr_hashvalue (members b) ∧
     nodeKey (members a) = nodeKey (members b)) ∧
  (cmpVnode a b ≤ 0 → cmpVnode b c ≤ 0 → cmpVnode a c ≤ 0) ∧
  (less a b = true ↔ cmpVnode a b < 0) ∧
  (less a b = false ∧ less b a = false ↔ cmpVnode a b = 0).
Proof.
  assert (∀ x y : virtualNode, less x y = true ↔ cmpVnode x y < 0) as Hless.
  { intros x y. unfold less, cmpVnode, compareUint64.
    repeat match goal with
           | |- context [?u =? ?v] => destruct (Z.eqb_spec u v)
           | |- context [?u <? ?v] => destruct (Z.ltb_spec u v)
           | |- context [?u >? ?v] => rewrite (Z.gtb_ltb u v)
           end; split; intros; try lia; try discriminate; reflexivity. }
  split; [|split; [|split; [|split; [|split]]]].
  - pose proof (strings_Compare_range (nodeKey (members a)) (nodeKey (members b))).
    unfold cmpVnode, compareUint64.
    repeat match goal with
           | |- context [?u =? ?v] => destruct (Z.eqb_spec u v)
           | |- context [?u <? ?v] => destruct (Z.ltb_spec u v)
           | |- context [?u >? ?v] => rewrite (Z.gtb_ltb u v)
           end; lia.
  - apply cmpVnode_antisym.
  - apply cmpVnode_eq.
  - intros Hab Hbc. exact (cmpVnode_trans a b c Hab Hbc).
  - apply Hless.
  - pose proof (Hless a b) as Hab. pose proof (Hless b a) as Hba.
    rewrite (cmpVnode_antisym b a) in Hba. split.
    + intros [Hf1 Hf2].
      destruct (Z.lt_trichotomy (cmpVnode a b) 0) as [Hlt|[Heq|Hgt]]; [|exact Heq|].
      * apply Hab in Hlt. congruence.
      * assert (- cmpVnode a b < 0) as Hneg by lia. apply Hba in Hneg. congruence.
    + intros Heq. split.
      * destruct (less a b); [|reflexivity].
        apply proj1 in Hab. specialize (Hab eq_refl). lia.
      * destruct (less b a); [|reflexivity].
        apply proj1 in Hba. specialize (Hba eq_refl). lia.
Qed.

(** [New] and [MustNew] at the edge. A replication factor of 0 makes [New]
    return [ErrInvalidReplicationFactor] and no ring, and [MustNew] panic;
    any other makes both return an empty ring, on which [FindN] returns no
    members and nil when asked for none, [ErrNotEnoughMembers] when asked
    for one or more, [Remove] returns [ErrMemberNotFound], and [Members] is
    empty. *)
Theorem New_ring (hf : HashFunc) (R : Z) :
  0 ≤ R < 2 ^ 16 →
  (R = 0 →
     New hf R = (None, Some ErrInvalidReplicationFactor) ∧ MustNew hf R = Panicked) ∧
  (R ≠ 0 →
     ∃ h : Ring,
       New hf R = (Some h, None) ∧ MustNew hf R = Done (Some h) ∧
       hashfn h = hf ∧ replicationFactor h = R ∧
       nodes h = ∅ ∧ virtualNodes h = [] ∧ Members h = [] ∧
       (∀ key : list byte, FindN h key 0 = ([], None)) ∧
       (∀ (key : list byte) (num : nat),
           FindN h key (S num) = ([], Some ErrNotEnoughMembers)) ∧
       (∀ m : M, Remove h m = Done (h, Some ErrMemberNotFound)) ∧
       (∀ m : M, (Add h m).2 = None)).
Proof.
  intros HR. unfold MustNew, New. split.
  - intros ->. cbn. auto.
  - intros Hne. destruct (Z.ltb_spec R 1) as [|_]; [lia|].
    eexists. split; [reflexivity|]. split; [reflexivity|].
    cbn [hashfn replicationFactor nodes virtualNodes].
    repeat split; try reflexivity.
    intros m. now rewrite Add_fresh.
Qed.

(** *** The earlier version of the package: [Hashring] *)

(** The file holds an earlier version of the ring as well, the type
    [Hashring] with [NewHashring], [MustNewHashring] and the same four
    methods. It orders virtual nodes by [less] where the later one uses
    [cmpVnode], and its [ErrInvalidReplicationFactor] reads differently. *)
Definition Hashring_ErrInvalidReplicationFactor : error :=
  errors_New "replicationFactor must be at least 1".

Record Hashring : Type := mkHashring {
  hasher : HashFunc;
  hr_replicationFactor : Z;
  hr_nodes : gmap string nodeRecord;
  hr_virtualNodes : list virtualNode }.

(** [slices.SortFunc(x, less)] of the earlier release of the library: the
    routine of the later release, which asks [less(a, b)] where the later
    one asks [cmp(a, b) < 0]. *)
Definition SortFunc_less {A : Type} (x : list A) (less : A → A → bool) : list A :=
  SortFunc x (λ a b, if less a b then -1 else if less b a then 1 else 0).

Definition NewHashring (hasher : HashFunc) (replicationFactor : Z)
    : option Hashring * option error :=
  if replicationFactor <? 1 then (None, Some Hashring_ErrInvalidReplicationFactor)
  else (Some {| hasher := hasher;
                hr_replicationFactor := replicationFactor;
                hr_nodes := ∅;
                hr_virtualNodes := [] |}, None).

Definition MustNewHashring (hasher : HashFunc) (replicationFactor : Z)
    : exec (option Hashring) :=
  match NewHashring hasher replicationFactor with
  | (_, Some _) => Panicked
  | (hr, None) => Done hr
  end.

Definition Hashring_Add (h : Hashring) (m : M) : Hashring * option error :=
  let nodeKeyString := Key m in
  match hr_nodes h !! nodeKeyString with
  | Some _ => (h, Some ErrMemberAlreadyExists)
  | None =>
      let nodeHash := hasher h (list_byte_of_string nodeKeyString) in
      let newNodeRecord := NodeRecord nodeHash nodeKeyString m [] in
      let virtualNodeBuffer := PutUint64 (make_bytes 10) 0 nodeHash in
      let '(newNodeRecord, vnodes) :=
        addVirtualNodes (hasher h) (Z.to_nat (hr_replicationFactor h)) 0
          virtualNodeBuffer newNodeRecord (hr_virtualNodes h) in
      let vnodes := SortFunc_less vnodes less in
      ({| hasher := hasher h;
          hr_replicationFactor := hr_replicationFactor h;
          hr_nodes := <[nodeKeyString := newNodeRecord]> (hr_nodes h);
          hr_virtualNodes := vnodes |}, None)
  end.

(** The predicate of the earlier [Remove]'s binary search,
    [!less(h.virtualNodes[i], vnode)]. *)
Definition notLess (vnodes : list virtualNode) (vnode : virtualNode) (i : nat) : bool :=
  match vnodes !! i with
  | Some v => negb (less v vnode)
  | None => false
  end.

Fixpoint Hashring_findIndexes (vnodes : list virtualNode) (todo : list virtualNode)
    (indexesToRemove : list nat) : list nat + error :=
  match todo with
  | [] => inl indexesToRemove
  | vnode :: todo' =>
      let vnodeIndex := sort_Search (length vnodes) (notLess vnodes vnode) in
      if (length vnodes <=? vnodeIndex)%nat then inr (vnodeNotFound vnode)
      else Hashring_findIndexes vnodes todo' (indexesToRemove ++ [vnodeIndex])
  end.

Definition Hashring_Remove (h : Hashring) (m : M) : exec (Hashring * option error) :=
  let nodeKeyString := Key m in
  match hr_nodes h !! nodeKeyString with
  | None => Done (h, Some ErrMemberNotFound)
  | Some foundNode =>
      match Hashring_findIndexes (hr_virtualNodes h) (nr_virtualNodes foundNode) [] with
      | inr err => Done (h, Some err)
      | inl indexesToRemove =>
          let indexesToRemove := sortDescending indexesToRemove in
          if negb (Z.of_nat (length indexesToRemove) =? hr_replicationFactor h)
          then Done (h, Some ErrUnexpectedVnodeCount)
          else
            match swapOut (hr_virtualNodes h) 0 indexesToRemove with
            | Panicked => Panicked
            | Done vnodes =>
                if (length vnodes <? length indexesToRemove)%nat then Panicked
                else
                  let vnodes :=
                    take (length vnodes - length indexesToRemove)%nat vnodes in
                  let vnodes := SortFunc_less vnodes less in
                  Done ({| hasher := hasher h;
                           hr_replicationFactor := hr_replicationFactor h;
                           hr_nodes := delete nodeKeyString (hr_nodes h);
                           hr_virtualNodes := vnodes |}, None)
            end
      end
  end.

Definition Hashring_FindN (h : Hashring) (key : list byte) (num : nat)
    : list M * option error :=
  if (size (hr_nodes h) <? num)%nat then ([], Some ErrNotEnoughMembers)
  else
    let keyHash := hasher h key in
    let vnodeIndex :=
      sort_Search (length (hr_virtualNodes h)) (atOrAfter (hr_virtualNodes h) keyHash) in
    (walk (length (hr_virtualNodes h)) (hr_virtualNodes h) vnodeIndex num 0 ∅ [], None).

Definition Hashring_Members (h : Hashring) : list M :=
  (λ kv, member kv.2) <$> map_to_list (hr_nodes h).

(** A [Hashring] read as a [Ring]. *)
Definition toRing (h : Hashring) : Ring :=
  {| hashfn := hasher h;
     replicationFactor := hr_replicationFactor h;
     nodes := hr_nodes h;
     virtualNodes := hr_virtualNodes h |}.

Lemma list_merge_ext {A : Type} (R1 R2 : relation A) `{!RelDecision R1}
    `{!RelDecision R2} :
  (∀ x y : A, R1 x y ↔ R2 x y) →
  ∀ l1 l2 : list A, list_merge R1 l1 l2 = list_merge R2 l1 l2.
Proof.
  intros Hext. induction l1 as [|x1 l1 IH1]; intros l2; [now destruct l2|].
  induction l2 as [|x2 l2 IH2]; [reflexivity|].
  simpl. destruct (decide (R1 x1 x2)) as [H1|H1], (decide (R2 x1 x2)) as [H2|H2].
  - f_equal. apply IH1.
  - destruct H2. now apply Hext.
  - destruct H1. now apply Hext.
  - f_equal. exact IH2.
Qed.

Lemma merge_list_to_stack_ext {A : Type} (R1 R2 : relation A) `{!RelDecision R1}
    `{!RelDecision R2} :
  (∀ x y : A, R1 x y ↔ R2 x y) →
  ∀ (st : list (option (list A))) (l : list A),
    merge_list_to_stack R1 st l = merge_list_to_stack R2 st l.
Proof.
  intros Hext. induction st as [|[l'|] st IH]; intros l; [reflexivity| |reflexivity].
  simpl. f_equal. rewrite (list_merge_ext R1 R2 Hext). apply IH.
Qed.

Lemma merge_stack_ext {A : Type} (R1 R2 : relation A) `{!RelDecision R1}
    `{!RelDecision R2} :
  (∀ x y : A, R1 x y ↔ R2 x y) →
  ∀ st : list (option (list A)), merge_stack R1 st = merge_stack R2 st.
Proof.
  intros Hext. induction st as [|[l'|] st IH]; [reflexivity| |exact IH].
  simpl. rewrite IH. apply (list_merge_ext R1 R2 Hext).
Qed.

(** The sorting routine reads the comparison through its answers only: two
    comparisons that always agree on "not after" give the same outcome. *)
Lemma SortFunc_ext {A : Type} (cmp1 cmp2 : A → A → Z) (x : list A) :
  (∀ a b : A, cmp1 a b ≤ 0 ↔ cmp2 a b ≤ 0) →
  SortFunc x cmp1 = SortFunc x cmp2.
Proof.
  intros Hext. unfold SortFunc, merge_sort.
  generalize (@nil (option (list A))) as st. revert x.
  induction x as [|a x IH]; intros st.
  - apply (merge_stack_ext (notAfter cmp1) (notAfter cmp2) Hext).
  - simpl. rewrite (merge_list_to_stack_ext (notAfter cmp1) (notAfter cmp2) Hext).
    apply IH.
Qed.

Lemma less_cmpVnode (a b : virtualNode) : less a b = (cmpVnode a b <? 0).
Proof.
  unfold less, cmpVnode, compareUint64.
  destruct (Z.eqb_spec (hashvalue a) (hashvalue b)) as [_|_].
  - destruct (Z.eqb_spec (nr_hashvalue (members a)) (nr_hashvalue (members b)))
      as [_|_]; [reflexivity|].
    rewrite Z.gtb_ltb.
    destruct (Z.ltb_spec (nr_hashvalue (members a)) (nr_hashvalue (members b)));
      [reflexivity|].
    now destruct (Z.ltb_spec (nr_hashvalue (members b)) (nr_hashvalue (members a))).
  - rewrite Z.gtb_ltb.
    destruct (Z.ltb_spec (hashvalue a) (hashvalue b)); [reflexivity|].
    now destruct (Z.ltb_spec (hashvalue b) (hashvalue a)).
Qed.

Lemma SortFunc_less_cmpVnode (x : list virtualNode) :
  SortFunc_less x less = SortFunc x cmpVnode.
Proof.
  apply SortFunc_ext. intros a b. rewrite !less_cmpVnode, (cmpVnode_antisym b a).
  destruct (Z.ltb_spec (cmpVnode a b) 0), (Z.ltb_spec (- cmpVnode a b) 0); lia.
Qed.

Lemma Hashring_findIndexes_eq (vnodes todo : list virtualNode) :
  ∀ acc : list nat,
    Hashring_findIndexes vnodes todo acc = findIndexes vnodes todo acc.
Proof.
  induction todo as [|vnode todo IH]; intros acc; [reflexivity|].
  cbn [Hashring_findIndexes findIndexes].
  assert (sort_Search (length vnodes) (notLess vnodes vnode) =
            sort_Search (length vnodes) (notBelow vnodes vnode)) as ->.
  { apply search_loop_ext. intros k _. unfold notLess, notBelow.
    destruct (vnodes !! k) as [v|]; [|reflexivity].
    rewrite less_cmpVnode.
    destruct (Z.ltb_spec (cmpVnode v vnode) 0), (Z.geb_spec (cmpVnode v vnode) 0);
      try reflexivity; lia. }
  destruct (_ <=? _)%nat; [reflexivity | apply IH].
Qed.

(** The earlier version and the later one agree. Read as a [Ring], a
    [Hashring] answers every call as the [Ring] does and is left in the same
    state: [NewHashring] and [New] (but for the text of
    [ErrInvalidReplicationFactor]), [MustNewHashring] and [MustNew], [Add],
    [Remove] (errors and panics included), [FindN] and [Members]. *)
Theorem Hashring_agrees (h : Hashring) (m : M) (key : list byte) (num : nat)
    (hf : HashFunc) (R : Z) :
  (toRing <$> (NewHashring hf R).1 = (New hf R).1 ∧
   ((NewHashring hf R).2 = None ↔ (New hf R).2 = None) ∧
   ((NewHashring hf R).2 = Some Hashring_ErrInvalidReplicationFactor ↔
    (New hf R).2 = Some ErrInvalidReplicationFactor) ∧
   Hashring_ErrInvalidReplicationFactor ≠ ErrInvalidReplicationFactor) ∧
  (match MustNewHashring hf R, MustNew hf R with
   | Done h', Done g' => toRing <$> h' = g'
   | Panicked, Panicked => True
   | _, _ => False
   end) ∧
  (toRing (Hashring_Add h m).1 = (Add (toRing h) m).1 ∧
   (Hashring_Add h m).2 = (Add (toRing h) m).2) ∧
  (match Hashring_Remove h m, Remove (toRing h) m with
   | Done (h', e), Done (g', e') => toRing h' = g' ∧ e = e'
   | Panicked, Panicked => True
   | _, _ => False
   end) ∧
  Hashring_FindN h key num = FindN (toRing h) key num ∧
  Hashring_Members h = Members (toRing h).
Proof.
  split; [|split; [|split; [|split; [|split]]]].
  - unfold NewHashring, New. destruct (R <? 1); cbn.
    + repeat split; intros; try discriminate; reflexivity.
    + repeat split; intros; try discriminate; reflexivity.
  - unfold MustNewHashring, MustNew, NewHashring, New. now destruct (R <? 1).
  - unfold Hashring_Add, Add. cbn [toRing nodes hashfn replicationFactor virtualNodes].
    destruct (hr_nodes h !! Key m); [split; reflexivity|].
    destruct (addVirtualNodes _ _ _ _ _ _) as [rec vnodes].
    cbn [fst snd toRing]. now rewrite SortFunc_less_cmpVnode.
  - unfold Hashring_Remove, Remove.
    cbn [toRing nodes hashfn replicationFactor virtualNodes].
    destruct (hr_nodes h !! Key m) as [rec|]; [|split; reflexivity].
    rewrite Hashring_findIndexes_eq.
    destruct (findIndexes _ _ _) as [idxs|e]; [|split; reflexivity].
    destruct (negb _); [split; reflexivity|].
    destruct (swapOut _ _ _) as [vnodes|]; [|exact I].
    destruct (_ <? _)%nat; [exact I|].
    rewrite SortFunc_less_cmpVnode. split; reflexivity.
  - reflexivity.
  - reflexivity.
Qed.

End Ring.

(** *** Concrete rings *)

(** The member type of the package's tests: a [testNode] is keyed by its
    [nodeKeyAndValue]. *)
Record testNode : Type := { nodeKeyAndValue : string }.

#[global] Instance testNode_Member : Member testNode := nodeKeyAndValue.

(** FNV-1a, 64 bits: a hash function to build rings with. *)
Definition fnv1a : HashFunc :=
  foldl (λ h b, (Z.lxor h (Z_of_byte b) * 1099511628211) mod 2 ^ 64)
    14695981039346656037.

(** The first eight bytes of the input read as a little-endian number: a
    hash function that gives all virtual nodes of a member one hash, since
    their buffers differ in bytes 8 and 9 only. *)
Definition prefixHash : HashFunc := λ b, fromLittleEndian (take 8 b).

Definition nodeA : testNode := {| nodeKeyAndValue := "a" |}.
Definition nodeB : testNode := {| nodeKeyAndValue := "b" |}.
Definition nodeC : testNode := {| nodeKeyAndValue := "c" |}.

Definition emptyRing (hf : HashFunc) (R : Z) : Ring (M := testNode) :=
  {| hashfn := hf; replicationFactor := R; nodes := ∅; virtualNodes := [] |}.

(** [Remove], for a call that returns. *)
Definition removed (h : Ring (M := testNode)) (m : testNode) : Ring :=
  match Remove h m with
  | Done (h', _) => h'
  | Panicked => h
  end.

Lemma reachable_emptyRing (hf : HashFunc) :
  reachable (emptyRing hf 2).
Proof. now apply (reachable_New hf 2). Qed.

Lemma reachable_removed (h : Ring) (m : testNode) :
  reachable h → reachable (removed h m).
Proof.
  intros Hr. unfold removed.
  destruct (Remove h m) as [[h' err]|] eqn:E; [|exact Hr].
  exact (reachable_Remove h h' m err Hr E).
Qed.

Lemma ring_count_and_order_witness :
  let h := addAll (emptyRing fnv1a 2) [nodeA; nodeB; nodeC] in
  length (virtualNodes h) = (size (nodes h) * Z.to_nat (replicationFactor h))%nat ∧
  StronglySorted vnode_le (virtualNodes h) ∧
  ∀ m : testNode, ∃ (h' : Ring) (err : option error), Remove h m = Done (h', err).
Proof.
  apply (ring_count_and_order (addAll (emptyRing fnv1a 2) [nodeA; nodeB; nodeC])).
  apply addAll_reachable, reachable_emptyRing.
Defined.

Lemma Remove_count_never_unexpected_witness :
  let h := removed (addAll (emptyRing fnv1a 2) [nodeA; nodeB; nodeC]) nodeB in
  (∀ (k : string) (rec : nodeRecord),
      nodes h !! k = Some rec →
      Z.of_nat (length (nr_virtualNodes rec)) = replicationFactor h) ∧
  (∀ todo : list (@virtualNode testNode),
      (∃ vnode : @virtualNode testNode,
          findIndexes (virtualNodes h) todo [] = inr (vnodeNotFound vnode)) ∨
      (∃ idxs : list nat,
          findIndexes (virtualNodes h) todo [] = inl idxs ∧ length idxs = length todo)) ∧
  ∀ (h' : Ring) (err : option error),
    Remove h nodeA = Done (h', err) → err ≠ Some ErrUnexpectedVnodeCount.
Proof.
  apply (Remove_count_never_unexpected
           (removed (addAll (emptyRing fnv1a 2) [nodeA; nodeB; nodeC]) nodeB) nodeA).
  apply reachable_removed, addAll_reachable, reachable_emptyRing.
Defined.

Lemma Add_virtual_node_hash_witness :
  let h := emptyRing fnv1a 2 in
  let h' := (Add h nodeA).1 in
  let keyHash := hashfn h (list_byte_of_string (Key nodeA)) in
  ∃ (rec : nodeRecord) (vn : virtualNode) (buffer : list byte),
    nodes h' !! Key nodeA = Some rec ∧
    nr_hashvalue rec = keyHash ∧
    Z.of_nat (length (nr_virtualNodes rec)) = replicationFactor h ∧
    nr_virtualNodes rec !! Z.to_nat 1 = Some vn ∧
    vn ∈ virtualNodes h' ∧
    length buffer = 10%nat ∧
    take 8 buffer = littleEndian 8 keyHash ∧
    drop 8 buffer = littleEndian 2 1 ∧
    hashvalue vn = hashfn h buffer.
Proof.
  apply (Add_virtual_node_hash (emptyRing fnv1a 2) (Add (emptyRing fnv1a 2) nodeA).1
           nodeA 1).
  - now rewrite Add_fresh.
  - cbn. lia.
Defined.


Lemma FindN_spec_witness :
  let h := addAll (emptyRing fnv1a 2) [nodeA; nodeB; nodeC] in
  let key := list_byte_of_string "key" in
  let start := startIndex (virtualNodes h) (hashfn h key) in
  let owners := distinctOwners ∅ (circular start (virtualNodes h)) in
  ((FindN h key 2).2 = Some ErrNotEnoughMembers ↔ (size (nodes h) < 2)%nat) ∧
  ((2 ≤ size (nodes h))%nat → FindN h key 2 = (take 2 owners, None)) ∧
  ((2 ≤ size (nodes h))%nat →
   (∀ k : string, is_Some (nodes h !! k) →
      ∃ v : virtualNode, v ∈ virtualNodes h ∧ nodeKey (members v) = k) →
   length (FindN h key 2).1 = 2%nat).
Proof.
  apply (FindN_spec (addAll (emptyRing fnv1a 2) [nodeA; nodeB; nodeC])
           (list_byte_of_string "key") 2).
  apply addAll_reachable, reachable_emptyRing.
Defined.

Example FindN_run :
  FindN (addAll (emptyRing fnv1a 2) [nodeA; nodeB; nodeC]) (list_byte_of_string "key") 2 =
    ([nodeC; nodeB], None).
Proof. vm_compute. reflexivity. Qed.

Lemma fnv1a_distinctHashes (m : testNode) :
  m ∈ [nodeA; nodeB; nodeC] → distinctHashes fnv1a 2 m.
Proof.
  intros Hm. unfold distinctHashes.
  repeat (apply elem_of_cons in Hm as [->|Hm]);
    [apply (bool_decide_unpack _); vm_compute; exact I ..|].
  now apply elem_of_nil in Hm.
Qed.

Lemma reachableWithoutTies_abc :
  reachableWithoutTies (addAll (emptyRing fnv1a 2) [nodeA; nodeB; nodeC]).
Proof.
  change (addAll (emptyRing fnv1a 2) [nodeA; nodeB; nodeC])
    with (Add (Add (Add (emptyRing fnv1a 2) nodeA).1 nodeB).1 nodeC).1.
  repeat (apply withoutTies_Add;
          [| rewrite ?Add_hashfn, ?Add_replicationFactor;
             apply fnv1a_distinctHashes; set_solver]).
  now apply (withoutTies_New fnv1a 2).
Qed.

Lemma ring_without_ties_witness :
  let h := addAll (emptyRing fnv1a 2) [nodeA; nodeB; nodeC] in
  (∀ (key : list byte) (num : nat),
      (num ≤ size (nodes h))%nat →
      (FindN h key num).2 = None ∧ length (FindN h key num).1 = num) ∧
  (∀ (m : testNode) (rec : nodeRecord),
      nodes h !! Key m = Some rec →
      ∃ h' : Ring,
        Remove h m = Done (h', None) ∧
        nodes h' = delete (Key m) (nodes h) ∧
        Z.of_nat (length (nr_virtualNodes rec)) = replicationFactor h ∧
        virtualNodes h ≡ₚ nr_virtualNodes rec ++ virtualNodes h' ∧
        ∀ v : virtualNode, v ∈ virtualNodes h' → nodeKey (members v) ≠ Key m).
Proof.
  apply (ring_without_ties (addAll (emptyRing fnv1a 2) [nodeA; nodeB; nodeC])).
  exact reachableWithoutTies_abc.
Defined.

Example Remove_run :
  match Remove (addAll (emptyRing fnv1a 2) [nodeA; nodeB; nodeC]) nodeC with
  | Done (h', err) =>
      err = None ∧
      (map_to_list (nodes h')).*1 = ["a"; "b"]%string ∧
      (λ v, nodeKey (members v)) <$> virtualNodes h' = ["a"; "a"; "b"; "b"]%string
  | Panicked => False
  end.
Proof. vm_compute. repeat split; reflexivity. Qed.

(** The ring of the examples below: two members, two virtual nodes each,
    under [prefixHash]. Its virtual nodes are [a, a, b, b], both of a member
    at one place. *)
Definition ringAB : Ring := addAll (emptyRing prefixHash 2) [nodeA; nodeB].

Example ringAB_virtualNodes :
  (λ v, (hashvalue v, nodeKey (members v))) <$> virtualNodes ringAB =
    [(97, "a"); (97, "a"); (98, "b"); (98, "b")]%string.
Proof. vm_compute. reflexivity. Qed.

(** C2, on the code: [Remove] of member [a] from [ringAB] returns nil, yet
    one virtual node of [a] stays on the ring and one of [b] is gone. Both
    searches for [a]'s virtual nodes find index 0 (the two compare equal), so
    the swap loop overwrites index 0 twice, last with the node at index 2,
    and the truncation drops the nodes at indices 2 and 3: [b, a] remains,
    sorted to [a, b]. *)
Theorem Remove_leaves_virtual_node :
  match Remove ringAB nodeA with
  | Done (h', err) =>
      err = None ∧
      nodes h' !! "a"%string = None ∧
      (λ v, (hashvalue v, nodeKey (members v))) <$> virtualNodes h' =
        [(97, "a"); (98, "b")]%string
  | Panicked => False
  end.
Proof. vm_compute. repeat split; reflexivity. Qed.

(** The ring after [Add a; Add b; Remove a; Add a; Remove a; Add a]. *)
Definition ringShort : Ring :=
  addAll (removed (addAll (removed ringAB nodeA) [nodeA]) nodeA) [nodeA].

(** C1, on the code: [ringShort] is reachable and has two members, [a] and
    [b], but all four of its virtual nodes are [a]'s, so that [FindN] for
    two members returns one, with no error. *)
Theorem FindN_returns_fewer :
  reachable ringShort ∧
  (map_to_list (nodes ringShort)).*1 = ["a"; "b"]%string ∧
  (λ v, nodeKey (members v)) <$> virtualNodes ringShort = ["a"; "a"; "a"; "a"]%string ∧
  FindN ringShort (list_byte_of_string "key") 2 = ([nodeA], None).
Proof.
  split.
  - apply addAll_reachable, reachable_removed, addAll_reachable, reachable_removed,
      addAll_reachable, reachable_emptyRing.
  - vm_compute. repeat split; reflexivity.
Qed.

(** *** Concrete rings: members and consistency *)

Definition ringABC : Ring := addAll (emptyRing fnv1a 2) [nodeA; nodeB; nodeC].

Definition ringA_B : Ring := addAll (emptyRing fnv1a 2) [nodeA; nodeB].

Lemma reachableWithoutTies_ab : reachableWithoutTies ringA_B.
Proof.
  change ringA_B with (Add (Add (emptyRing fnv1a 2) nodeA).1 nodeB).1.
  repeat (apply withoutTies_Add;
          [| rewrite ?Add_hashfn, ?Add_replicationFactor;
             apply fnv1a_distinctHashes; set_solver]).
  now apply (withoutTies_New fnv1a 2).
Qed.

Example ringA_B_nodes :
  (map_to_list (nodes ringA_B)).*1 = ["a"; "b"]%string ∧
  nodes ringA_B !! "c"%string = None ∧
  size (nodes ringA_B) = 2%nat.
Proof. vm_compute. repeat split; reflexivity. Qed.

Lemma Members_spec_witness :
  let h := ringABC in
  length (Members h) = size (nodes h) ∧
  NoDup (Key <$> Members h) ∧
  (∀ x : testNode, x ∈ Members h ↔ ∃ rec : nodeRecord,
      nodes h !! Key x = Some rec ∧ member rec = x) ∧
  (∀ m : testNode, nodes h !! Key m = None → Members (Add h m).1 ≡ₚ m :: Members h) ∧
  (∀ (m : testNode) (h' : Ring) (rec : nodeRecord),
      nodes h !! Key m = Some rec → Remove h m = Done (h', None) →
      Members h ≡ₚ member rec :: Members h').
Proof.
  apply (Members_spec ringABC).
  apply addAll_reachable, reachable_emptyRing.
Defined.

Lemma FindN_distinct_witness :
  let h := ringABC in
  let key := list_byte_of_string "key" in
  (length (FindN h key 2).1 ≤ 2)%nat ∧
  NoDup (Key <$> (FindN h key 2).1) ∧
  ∀ x : testNode, x ∈ (FindN h key 2).1 →
    ∃ v : virtualNode,
      v ∈ virtualNodes h ∧ member (members v) = x ∧ nodeKey (members v) = Key x.
Proof.
  apply (FindN_distinct ringABC (list_byte_of_string "key") 2).
  apply addAll_reachable, reachable_emptyRing.
Defined.

Lemma FindN_members_witness :
  (∃ rec : nodeRecord, nodes ringABC !! Key nodeC = Some rec ∧ member rec = nodeC) ∧
  nodeC ∈ Members ringABC.
Proof.
  apply (FindN_members ringABC (list_byte_of_string "key") 2 nodeC).
  - exact reachableWithoutTies_abc.
  - unfold ringABC. rewrite FindN_run. now left.
Defined.

Lemma Add_consistent_witness :
  let h := ringA_B in
  let key := list_byte_of_string "key" in
  let old := (FindN h key 2).1 in
  let new := (FindN (Add h nodeC).1 key 2).1 in
  filter (λ x, Key x ≠ Key nodeC) new `prefix_of` old ∧
  (∀ x : testNode, x ∈ new → Key x = Key nodeC → x = nodeC) ∧
  NoDup (Key <$> new) ∧
  length new = 2%nat ∧ length old = 2%nat ∧
  (nodeC ∉ new → new = old).
Proof.
  apply (Add_consistent ringA_B nodeC (list_byte_of_string "key") 2).
  - exact reachableWithoutTies_ab.
  - unfold ringA_B. rewrite addAll_hashfn, addAll_replicationFactor.
    apply fnv1a_distinctHashes. set_solver.
  - exact (proj1 (proj2 ringA_B_nodes)).
  - now rewrite (proj2 (proj2 ringA_B_nodes)).
Defined.

(** The key "key" is served by [b] and [a] on the ring of [a] and [b]; once
    [c] has joined it is served by [c] and [b], as [FindN_run] shows. *)
Example Add_consistent_run :
  FindN ringA_B (list_byte_of_string "key") 2 = ([nodeB; nodeA], None) ∧
  FindN (Add ringA_B nodeC).1 (list_byte_of_string "key") 2 = ([nodeC; nodeB], None).
Proof. vm_compute. split; reflexivity. Qed.

Lemma Remove_consistent_witness :
  let h := ringABC in
  let key := list_byte_of_string "key" in
  ∃ h' : Ring,
    Remove h nodeC = Done (h', None) ∧
    let old := (FindN h key 2).1 in
    let new := (FindN h' key 2).1 in
    filter (λ x, Key x ≠ Key nodeC) old `prefix_of` new ∧
    (∀ x : testNode, x ∈ new → Key x ≠ Key nodeC) ∧
    length new = 2%nat ∧ length old = 2%nat ∧
    ((∀ x : testNode, x ∈ old → Key x ≠ Key nodeC) → new = old).
Proof.
  apply (Remove_consistent ringABC nodeC (list_byte_of_string "key") 2).
  - exact reachableWithoutTies_abc.
  - unfold ringABC. rewrite addAll_nodes_lookup. cbn. eauto.
  - apply Nat.ltb_lt. vm_compute. reflexivity.
Defined.

Lemma Add_Remove_restores_witness :
  (Add ringA_B nodeC).2 = None ∧ Remove (Add ringA_B nodeC).1 nodeC = Done (ringA_B, None).
Proof.
  apply (Add_Remove_restores ringA_B nodeC).
  - exact reachableWithoutTies_ab.
  - unfold ringA_B. rewrite addAll_hashfn, addAll_replicationFactor.
    apply fnv1a_distinctHashes. set_solver.
  - exact (proj1 (proj2 ringA_B_nodes)).
Defined.

Lemma Remove_Add_restores_witness :
  ∃ h' : Ring,
    Remove ringABC nodeC = Done (h', None) ∧
    Add h' (member (newNode fnv1a 2 nodeC).1) = (ringABC, None).
Proof.
  apply (Remove_Add_restores ringABC nodeC (newNode fnv1a 2 nodeC).1).
  - exact reachableWithoutTies_abc.
  - unfold ringABC. rewrite addAll_nodes_lookup. reflexivity.
Defined.

Lemma New_ring_witness :
  (2 = 0 →
     New (M := testNode) fnv1a 2 = (None, Some ErrInvalidReplicationFactor) ∧
     MustNew (M := testNode) fnv1a 2 = Panicked) ∧
  (2 ≠ 0 →
     ∃ h : Ring (M := testNode),
       New fnv1a 2 = (Some h, None) ∧ MustNew fnv1a 2 = Done (Some h) ∧
       hashfn h = fnv1a ∧ replicationFactor h = 2 ∧
       nodes h = ∅ ∧ virtualNodes h = [] ∧ Members h = [] ∧
       (∀ key : list byte, FindN h key 0 = ([], None)) ∧
       (∀ (key : list byte) (num : nat),
           FindN h key (S num) = ([], Some ErrNotEnoughMembers)) ∧
       (∀ m : testNode, Remove h m = Done (h, Some ErrMemberNotFound)) ∧
       (∀ m : testNode, (Add h m).2 = None)).
Proof.
  apply (New_ring (M := testNode) fnv1a 2). lia.
Defined.

Lemma FindN_prefix_witness :
  FindN ringABC (list_byte_of_string "key") 1 =
    (take 1 (FindN ringABC (list_byte_of_string "key") 2).1, None).
Proof.
  apply (FindN_prefix ringABC (list_byte_of_string "key") 1 2).
  - apply addAll_reachable, reachable_emptyRing.
  - lia.
  - apply Nat.leb_le. vm_compute. reflexivity.
Defined.

Definition ringCBA : Ring := addAll (emptyRing fnv1a 2) [nodeC; nodeB; nodeA].

Lemma reachableWithoutTies_cba : reachableWithoutTies ringCBA.
Proof.
  change ringCBA with (Add (Add (Add (emptyRing fnv1a 2) nodeC).1 nodeB).1 nodeA).1.
  repeat (apply withoutTies_Add;
          [| rewrite ?Add_hashfn, ?Add_replicationFactor;
             apply fnv1a_distinctHashes; set_solver]).
  now apply (withoutTies_New fnv1a 2).
Qed.

Lemma ring_history_independent_witness : ringABC = ringCBA.
Proof.
  apply (ring_history_independent ringABC ringCBA).
  - exact reachableWithoutTies_abc.
  - exact reachableWithoutTies_cba.
  - unfold ringABC, ringCBA. now rewrite !addAll_hashfn.
  - unfold ringABC, ringCBA. now rewrite !addAll_replicationFactor.
  - intros k. unfold ringABC, ringCBA. rewrite !addAll_nodes_lookup. cbn [emptyRing nodes].
    rewrite lookup_empty.
    rewrite (firstWithKey_Permutation k [nodeA; nodeB; nodeC] [nodeC; nodeB; nodeA]).
    + reflexivity.
    + change [nodeC; nodeB; nodeA] with (reverse [nodeA; nodeB; nodeC]).
      symmetry. apply reverse_Permutation.
    + intros m m' _ _ Hk. destruct m, m'. cbn in Hk. now subst.
Defined.

End hashring.

Import hashring.

(** ** Package consistent: the balancer *)

Module consistent.

(** [connectivity.State]. *)
Inductive State : Type := Idle | Connecting | Ready | TransientFailure | Shutdown.

#[global] Instance State_eq_dec : EqDecision State.
Proof. solve_decision. Defined.

(** A [balancer.SubConn] is known by its identity. *)
Definition SubConn : Type := nat.

(** [resolver.Address], by the two fields the balancer reads. *)
Record Address : Type := { ServerName : string; Addr : string }.

#[global] Instance Address_eq_dec : EqDecision Address.
Proof. solve_decision. Defined.

#[global] Instance Address_countable : Countable Address :=
  inj_countable' (λ a, (ServerName a, Addr a))
    (λ p, {| ServerName := p.1; Addr := p.2 |}) (λ a, match a with Build_Address _ _ => eq_refl end).

(** [subConnMember]: a sub-connection with the key it is hashed by. *)
Record subConnMember : Type := { sc_SubConn : SubConn; key : string }.

#[global] Instance subConnMember_Member : Member subConnMember := key.

(** [BalancerConfig]: [ReplicationFactor] is a [uint16], [Spread] a [uint8]. *)
Record BalancerConfig : Type := { ReplicationFactor : Z; Spread : nat }.

Definition ErrBadResolverState : error := errors_New "bad resolver state".
Definition ErrNoSubConnAvailable : error := errors_New "no SubConn is available".

(** A published [balancer.Picker]: [base.NewErrPicker(err)], or a [picker]
    holding the spread and a pointer to a ring; the pointer is the number of
    the ring's allocation. *)
Inductive Picker : Type :=
| ErrPicker (err : option error)
| ringPicker (hashring : nat) (spread : nat).

(** The calls the balancer makes on the runtime, in the order made. *)
Inductive call : Type :=
| RemoveSubConn (sc : SubConn)
| UpdateState (ConnectivityState : State) (picker : Picker)
| Connect (sc : SubConn).

(** The states published by a sequence of calls: the arguments of its
    [UpdateState] calls. *)
Definition published (calls : list call) : list (State * Picker) :=
  omap (λ c, match c with UpdateState s p => Some (s, p) | _ => None end) calls.

(** [balancer.SubConnState]. *)
Record SubConnState : Type := {
  ConnectivityState : State;
  ConnectionError : option error }.

(** [balancer.ClientConnState]: the resolver's addresses and the balancer
    configuration, nil when none came with the update. *)
Record ClientConnState : Type := {
  Addresses : list Address;
  ClientConnState_BalancerConfig : option BalancerConfig }.

Section Balancer.

(** The runtime's side: the state of the [balancer.ClientConn] with its
    [NewSubConn], and [balancer.ConnectivityStateEvaluator] with
    [RecordTransition]. *)
Context {ClientConn : Type}.
Variable NewSubConn : ClientConn → Address → ClientConn * (SubConn + error).
Context {Evaluator : Type}.
Variable RecordTransition : Evaluator → State → State → Evaluator * State.

(** [ringBalancer]; [hashring] is nil or a pointer to a ring, the pointer
    being the number of the ring's allocation. *)
Record ringBalancer : Type := {
  state : State;
  cc : ClientConn;
  picker : Picker;
  csEvltr : Evaluator;
  subConns : gmap Address SubConn;
  scStates : gmap SubConn State;
  config : option BalancerConfig;
  hashring : option (nat * Ring (M := subConnMember));
  hasher : HashFunc;
  resolverErr : option error;
  connErr : option error }.

(** [builder.Build]. *)
Definition Build (hashfn : HashFunc) (cc : ClientConn) (evaluator : Evaluator)
    : ringBalancer :=
  {| state := Connecting;
     cc := cc;
     picker := ErrPicker (Some ErrNoSubConnAvailable);
     csEvltr := evaluator;
     subConns := ∅;
     scStates := ∅;
     config := None;
     hashring := None;
     hasher := hashfn;
     resolverErr := None;
     connErr := None |}.

Definition set_resolverErr (b : ringBalancer) (err : option error) : ringBalancer :=
  {| state := state b; cc := cc b; picker := picker b; csEvltr := csEvltr b;
     subConns := subConns b; scStates := scStates b; config := config b;
     hashring := hashring b; hasher := hasher b;
     resolverErr := err; connErr := connErr b |}.

Definition set_connErr (b : ringBalancer) (err : option error) : ringBalancer :=
  {| state := state b; cc := cc b; picker := picker b; csEvltr := csEvltr b;
     subConns := subConns b; scStates := scStates b; config := config b;
     hashring := hashring b; hasher := hasher b;
     resolverErr := resolverErr b; connErr := err |}.

Definition set_state (b : ringBalancer) (s : State) : ringBalancer :=
  {| state := s; cc := cc b; picker := picker b; csEvltr := csEvltr b;
     subConns := subConns b; scStates := scStates b; config := config b;
     hashring := hashring b; hasher := hasher b;
     resolverErr := resolverErr b; connErr := connErr b |}.

Definition set_picker (b : ringBalancer) (p : Picker) : ringBalancer :=
  {| state := state b; cc := cc b; picker := p; csEvltr := csEvltr b;
     subConns := subConns b; scStates := scStates b; config := config b;
     hashring := hashring b; hasher := hasher b;
     resolverErr := resolverErr b; connErr := connErr b |}.

Definition set_cc (b : ringBalancer) (c : ClientConn) : ringBalancer :=
  {| state := state b; cc := c; picker := picker b; csEvltr := csEvltr b;
     subConns := subConns b; scStates := scStates b; config := config b;
     hashring := hashring b; hasher := hasher b;
     resolverErr := resolverErr b; connErr := connErr b |}.

Definition set_csEvltr (b : ringBalancer) (e : Evaluator) : ringBalancer :=
  {| state := state b; cc := cc b; picker := picker b; csEvltr := e;
     subConns := subConns b; scStates := scStates b; config := config b;
     hashring := hashring b; hasher := hasher b;
     resolverErr := resolverErr b; connErr := connErr b |}.

Definition set_subConns (b : ringBalancer) (m : gmap Address SubConn) : ringBalancer :=
  {| state := state b; cc := cc b; picker := picker b; csEvltr := csEvltr b;
     subConns := m; scStates := scStates b; config := config b;
     hashring := hashring b; hasher := hasher b;
     resolverErr := resolverErr b; connErr := connErr b |}.

Definition set_scStates (b : ringBalancer) (m : gmap SubConn State) : ringBalancer :=
  {| state := state b; cc := cc b; picker := picker b; csEvltr := csEvltr b;
     subConns := subConns b; scStates := m; config := config b;
     hashring := hashring b; hasher := hasher b;
     resolverErr := resolverErr b; connErr := connErr b |}.

Definition set_hashring (b : ringBalancer) (h : option (nat * Ring)) : ringBalancer :=
  {| state := state b; cc := cc b; picker := picker b; csEvltr := csEvltr b;
     subConns := subConns b; scStates := scStates b; config := config b;
     hashring := h; hasher := hasher b;
     resolverErr := resolverErr b; connErr := connErr b |}.

Definition set_config (b : ringBalancer) (c : option BalancerConfig) : ringBalancer :=
  {| state := state b; cc := cc b; picker := picker b; csEvltr := csEvltr b;
     subConns := subConns b; scStates := scStates b; config := c;
     hashring := hashring b; hasher := hasher b;
     resolverErr := resolverErr b; connErr := connErr b |}.

(** [ResolverError]. *)
Definition ResolverError (b : ringBalancer) (err : option error)
    : ringBalancer * list call :=
  let b := set_resolverErr b err in
  let b :=
    if (size (subConns b) =? 0)%nat then
      let b := set_state b TransientFailure in
      set_picker b (ErrPicker (errors_Join [connErr b; resolverErr b]))
    else b in
  if decide (state b ≠ TransientFailure) then (b, [])
  else (b, [UpdateState (state b) (picker b)]).

(** The configuration step of [UpdateClientConnState]. [hashring.MustNew]
    panics when [New] fails. A new ring gets the next allocation number. *)
Definition updateConfig (b : ringBalancer) (s : ClientConnState) : exec ringBalancer :=
  match ClientConnState_BalancerConfig s with
  | None => Done b
  | Some svcConfig =>
      if match config b with
         | None => true
         | Some c => negb (ReplicationFactor svcConfig =? ReplicationFactor c)
         end
      then
        match New (hasher b) (ReplicationFactor svcConfig) with
        | (Some hr, _) =>
            let n := match hashring b with Some (n, _) => S n | None => O end in
            Done (set_config (set_hashring b (Some (n, hr))) (Some svcConfig))
        | (None, _) => Panicked
        end
      else Done b
  end.

(** The first loop of [UpdateClientConnState] on ring [hr]:
    [for _, addr := range s.ResolverState.Addresses]. It ends early when
    [Add] fails. *)
Fixpoint addBackends (b : ringBalancer) (n : nat) (hr : Ring) (addrs : list Address)
    (calls : list call) : ringBalancer * list call * option error :=
  match addrs with
  | [] => (b, calls, None)
  | addr :: rest =>
      match subConns b !! addr with
      | Some _ => addBackends b n hr rest calls
      | None =>
          match NewSubConn (cc b) addr with
          | (cc', inr _) => addBackends (set_cc b cc') n hr rest calls
          | (cc', inl sc) =>
              let b := set_cc b cc' in
              let b := set_subConns b (<[addr := sc]> (subConns b)) in
              let b := set_scStates b (<[sc := Idle]> (scStates b)) in
              let b := set_csEvltr b (RecordTransition (csEvltr b) Shutdown Idle).1 in
              let calls := calls ++ [Connect sc] in
              match Add hr {| sc_SubConn := sc; key := ServerName addr +:+ Addr addr |} with
              | (hr', Some _) =>
                  (set_hashring b (Some (n, hr')), calls,
                   Some (fmt_Errorf "couldn't add to hashring" [] None))
              | (hr', None) =>
                  addBackends (set_hashring b (Some (n, hr'))) n hr' rest calls
              end
          end
      end
  end.

(** The second loop, over the keys the address map had when the loop began:
    [for _, addr := range b.subConns.Keys()]. [addrsSet] holds the
    addresses of the update. *)
Fixpoint removeBackends (b : ringBalancer) (n : nat) (hr : Ring)
    (keys : list Address) (addrsSet : gset Address) (calls : list call)
    : exec (ringBalancer * list call * option error) :=
  match keys with
  | [] => Done (b, calls, None)
  | addr :: rest =>
      match subConns b !! addr with
      | None => Panicked
      | Some sc =>
          if decide (addr ∈ addrsSet) then removeBackends b n hr rest addrsSet calls
          else
            let calls := calls ++ [RemoveSubConn sc] in
            let b := set_subConns b (delete addr (subConns b)) in
            match Remove hr {| sc_SubConn := sc; key := ServerName addr +:+ Addr addr |} with
            | Panicked => Panicked
            | Done (hr', Some _) =>
                Done (set_hashring b (Some (n, hr')), calls,
                      Some (fmt_Errorf "couldn't add to hashring" [] None))
            | Done (hr', None) =>
                removeBackends (set_hashring b (Some (n, hr'))) n hr' rest addrsSet calls
            end
      end
  end.

(** [UpdateClientConnState]. The address map's keys are taken in the order
    of [map_to_list]; Go leaves the order of [Keys()] open. Reading
    [b.config.Spread] through a nil [b.config] panics. *)
Definition UpdateClientConnState (b : ringBalancer) (s : ClientConnState)
    : exec (ringBalancer * list call * option error) :=
  let b := set_resolverErr b None in
  match updateConfig b s with
  | Panicked => Panicked
  | Done b =>
      match hashring b with
      | None =>
          let b := set_picker b (ErrPicker (errors_Join [connErr b; resolverErr b])) in
          Done (b, [UpdateState (state b) (picker b)],
                Some (fmt_Errorf "no hashring configured" [] None))
      | Some (n, hr) =>
          match addBackends b n hr (Addresses s) [] with
          | (b, calls, Some err) => Done (b, calls, Some err)
          | (b, calls, None) =>
              match hashring b with
              | None => Panicked
              | Some (n, hr) =>
                  match removeBackends b n hr (map_to_list (subConns b)).*1
                          (list_to_set (Addresses s)) calls with
                  | Panicked => Panicked
                  | Done (b, calls, Some err) => Done (b, calls, Some err)
                  | Done (b, calls, None) =>
                      if (length (Addresses s) =? 0)%nat then
                        let '(b, calls') :=
                          ResolverError b (Some (errors_New "produced zero addresses")) in
                        Done (b, calls ++ calls', Some ErrBadResolverState)
                      else if decide (state b = TransientFailure) then
                        let b :=
                          set_picker b
                            (ErrPicker (errors_Join [connErr b; resolverErr b])) in
                        Done (b, calls ++ [UpdateState (state b) (picker b)], None)
                      else
                        match config b with
                        | None => Panicked
                        | Some c =>
                            let b := set_picker b (ringPicker n (Spread c)) in
                            Done (b, calls ++ [UpdateState (state b) (picker b)], None)
                        end
                  end
              end
          end
      end
  end.

(** [UpdateSubConnState]. *)
Definition UpdateSubConnState (b : ringBalancer) (sc : SubConn) (st : SubConnState)
    : ringBalancer * list call :=
  let s := ConnectivityState st in
  match scStates b !! sc with
  | None => (b, [])
  | Some oldS =>
      if bool_decide (oldS = TransientFailure) &&
         (bool_decide (s = Connecting) || bool_decide (s = Idle))
      then (b, if bool_decide (s = Idle) then [Connect sc] else [])
      else
        let b := set_scStates b (<[sc := s]> (scStates b)) in
        let '(b, calls) :=
          match s with
          | Idle => (b, [Connect sc])
          | Shutdown => (set_scStates b (delete sc (scStates b)), [])
          | TransientFailure => (set_connErr b (ConnectionError st), [])
          | _ => (b, [])
          end in
        let '(e, agg) := RecordTransition (csEvltr b) oldS s in
        let b := set_state (set_csEvltr b e) agg in
        (b, calls ++ [UpdateState (state b) (picker b)])
  end.

End Balancer.

(** *** The picker *)

(** What [info.Ctx.Value(CtxKey)] may hold. *)
Inductive ctxValue : Type :=
| ctxBytes (b : list byte)
| ctxOther.

(** [balancer.PickInfo], by the value its context holds at [CtxKey]. *)
Record PickInfo : Type := { Ctx_Value_CtxKey : option ctxValue }.

(** [balancer.PickResult]; the zero value has no sub-connection. *)
Record PickResult : Type := { PickResult_SubConn : option SubConn }.

(** [int(x)] for a [uint64] on a 64-bit platform, and negation of an [int]:
    both wrap around. *)
Definition int_of_uint64 (x : Z) : Z := if x <? 2 ^ 63 then x else x - 2 ^ 64.
Definition neg_int (x : Z) : Z := (- x + 2 ^ 63) mod 2 ^ 64 - 2 ^ 63.

(** [intn(n)], given the value of [new(maphash.Hash).Sum64()], a [uint64]
    that the runtime draws at random. [%] truncates toward zero and panics
    on a zero divisor. *)
Definition intn (sum64 : Z) (n : nat) : exec Z :=
  let out := int_of_uint64 sum64 in
  let out := if out <? 0 then neg_int out else out in
  if (n =? 0)%nat then Panicked else Done (Z.rem out (Z.of_nat n)).

(** [picker.Pick], on the ring the picker points to as it is at the call. *)
Definition Pick (hr : Ring (M := subConnMember)) (spread : nat) (info : PickInfo)
    (sum64 : Z) : exec (PickResult * option error) :=
  match Ctx_Value_CtxKey info with
  | Some (ctxBytes key) =>
      match FindN hr key spread with
      | (_, Some err) => Done ({| PickResult_SubConn := None |}, Some err)
      | (members, None) =>
          match (if (1 <? spread)%nat then intn sum64 spread else Done 0) with
          | Panicked => Panicked
          | Done index =>
              if index <? 0 then Panicked
              else
                match members !! Z.to_nat index with
                | Some chosen =>
                    Done ({| PickResult_SubConn := Some (sc_SubConn chosen) |}, None)
                | None => Panicked
                end
          end
      end
  | _ => Panicked
  end.

(** *** Properties of the balancer *)

Section BalancerProperties.

Context {ClientConn : Type}.
Variable NewSubConn : ClientConn → Address → ClientConn * (SubConn + error).
Context {Evaluator : Type}.
Variable RecordTransition : Evaluator → State → State → Evaluator * State.

Abbreviation ringBalancer := (@ringBalancer ClientConn Evaluator).

(** C9. [ResolverError(err)] always stores [err] as the resolver error. With
    no backends it also sets the aggregate state to TRANSIENT_FAILURE and
    installs an error picker whose error joins the connection error and the
    resolver error. Whenever the aggregate state is not TRANSIENT_FAILURE
    after that, it returns without publishing, and the picker and the
    aggregate state are as they were; otherwise it publishes the state and
    the picker once. Nothing else of the balancer changes. *)
Theorem ResolverError_effect (b : ringBalancer) (err : option error) :
  let b' := (ResolverError b err).1 in
  let calls := (ResolverError b err).2 in
  resolverErr b' = err ∧
  (size (subConns b) = 0%nat →
     state b' = TransientFailure ∧
     picker b' = ErrPicker (errors_Join [connErr b; err])) ∧
  (state b' ≠ TransientFailure →
     calls = [] ∧ picker b' = picker b ∧ state b' = state b) ∧
  (state b' = TransientFailure → calls = [UpdateState TransientFailure (picker b')]) ∧
  (cc b' = cc b ∧ csEvltr b' = csEvltr b ∧ subConns b' = subConns b ∧
   scStates b' = scStates b ∧ config b' = config b ∧ hashring b' = hashring b ∧
   hasher b' = hasher b ∧ connErr b' = connErr b).
Proof.
  intros b' calls. subst b' calls. unfold ResolverError. cbn [set_resolverErr subConns].
  destruct (Nat.eqb_spec (size (subConns b)) 0) as [Hz|Hnz]; cbn;
    match goal with |- context [decide ?P] => destruct (decide P) as [Hs|Hs] end;
    try apply dec_stable in Hs; cbn in *;
    repeat split; intros; cbn in *; congruence.
Qed.

(** C7. In [UpdateSubConnState], when the recorded state of a known
    sub-connection is TRANSIENT_FAILURE and the new state is IDLE or
    CONNECTING, the transition is dropped: the balancer is left exactly as
    it was (so the recorded state stays TRANSIENT_FAILURE and the state
    evaluator records nothing), no state is published, and the one call made
    is [sc.Connect()] when the new state is IDLE. *)
Theorem UpdateSubConnState_suppressed (b : ringBalancer) (sc : SubConn)
    (st : SubConnState) :
  scStates b !! sc = Some TransientFailure →
  ConnectivityState st = Idle ∨ ConnectivityState st = Connecting →
  let b' := (UpdateSubConnState RecordTransition b sc st).1 in
  let calls := (UpdateSubConnState RecordTransition b sc st).2 in
  b' = b ∧
  scStates b' !! sc = Some TransientFailure ∧
  csEvltr b' = csEvltr b ∧
  published calls = [] ∧
  calls = match ConnectivityState st with Idle => [Connect sc] | _ => [] end.
Proof.
  intros Hold Hnew b' calls. subst b' calls. unfold UpdateSubConnState. rewrite Hold.
  destruct Hnew as [-> | ->]; cbn; repeat split; assumption.
Qed.

(** The fields that neither loop of [UpdateClientConnState] writes. *)
Definition sameOutsideBackends (b b' : ringBalancer) : Prop :=
  state b' = state b ∧ picker b' = picker b ∧ csEvltr b' = csEvltr b ∧
  scStates b' = scStates b ∧ config b' = config b ∧ resolverErr b' = resolverErr b ∧
  connErr b' = connErr b ∧ cc b' = cc b ∧ hasher b' = hasher b.


Lemma updateConfig_frame (b b1 : ringBalancer) (s : ClientConnState) :
  updateConfig b s = Done b1 →
  state b1 = state b ∧ picker b1 = picker b ∧ subConns b1 = subConns b ∧
  connErr b1 = connErr b ∧ resolverErr b1 = resolverErr b.
Proof.
  unfold updateConfig.
  destruct (ClientConnState_BalancerConfig s) as [c|]; [|now intros [= <-]].
  destruct (match config b with Some _ => _ | None => _ end); [|now intros [= <-]].
  destruct (New _ _) as [[hr|] e]; [|discriminate].
  now intros [= <-].
Qed.


Lemma published_app (calls1 calls2 : list call) :
  published (calls1 ++ calls2) = published calls1 ++ published calls2.
Proof. apply omap_app. Qed.



(** *** The callbacks, case by case *)

(** [UpdateSubConnState] in full. It never writes the picker, the ring, the
    address map, the configuration or the resolver error. For a
    sub-connection it does not know it does nothing. For a known one, unless
    the transition is one of the two it drops (TRANSIENT_FAILURE to IDLE or
    CONNECTING), it records the new state (deleting the entry on SHUTDOWN),
    keeps the connection error of a TRANSIENT_FAILURE, feeds the transition
    to the evaluator, takes the aggregate state from it, and publishes that
    state with the picker it already had; on IDLE it first asks the
    sub-connection to connect. *)
Theorem UpdateSubConnState_effect (b : ringBalancer) (sc : SubConn) (st : SubConnState) :
  let s := ConnectivityState st in
  let b' := (UpdateSubConnState RecordTransition b sc st).1 in
  let calls := (UpdateSubConnState RecordTransition b sc st).2 in
  (picker b' = picker b ∧ hashring b' = hashring b ∧ subConns b' = subConns b ∧
   config b' = config b ∧ resolverErr b' = resolverErr b ∧ hasher b' = hasher b ∧
   cc b' = cc b) ∧
  (scStates b !! sc = None → b' = b ∧ calls = []) ∧
  (∀ oldS : State,
      scStates b !! sc = Some oldS →
      ¬ (oldS = TransientFailure ∧ (s = Idle ∨ s = Connecting)) →
      scStates b' =
        (if decide (s = Shutdown) then delete sc (scStates b) else <[sc := s]> (scStates b)) ∧
      connErr b' = (if decide (s = TransientFailure) then ConnectionError st else connErr b) ∧
      (csEvltr b', state b') = RecordTransition (csEvltr b) oldS s ∧
      calls =
        (if decide (s = Idle) then [Connect sc] else []) ++
        [UpdateState (state b') (picker b)]).
Proof.
  intros s b' calls. subst s b' calls. unfold UpdateSubConnState.
  destruct (scStates b !! sc) as [oldS|] eqn:Hold.
  - split; [|split; [discriminate|]].
    + destruct oldS, (ConnectivityState st); cbn;
        try (destruct (RecordTransition _ _ _)); cbn; repeat split; reflexivity.
    + intros oldS' [= <-] Hkeep.
      destruct oldS, (ConnectivityState st) eqn:Hst; cbn;
        try (exfalso; apply Hkeep; split; [reflexivity | auto]; fail);
        destruct (RecordTransition _ _ _) as [e agg] eqn:Hrt; cbn;
        rewrite ?delete_insert_eq, ?Hrt; repeat split; reflexivity.
  - cbn. repeat split; intros; try discriminate; reflexivity.
Qed.

Lemma ResolverError_frame (b : ringBalancer) (err : option error) :
  config (ResolverError b err).1 = config b ∧
  hashring (ResolverError b err).1 = hashring b ∧
  subConns (ResolverError b err).1 = subConns b ∧
  scStates (ResolverError b err).1 = scStates b.
Proof.
  unfold ResolverError. cbn [set_resolverErr subConns].
  destruct (size (subConns b) =? 0)%nat; cbn;
    match goal with |- context [decide ?P] => destruct (decide P) end;
    cbn; repeat split; reflexivity.
Qed.

Lemma UpdateSubConnState_frame (b : ringBalancer) (sc : SubConn) (st : SubConnState) :
  config (UpdateSubConnState RecordTransition b sc st).1 = config b ∧
  hashring (UpdateSubConnState RecordTransition b sc st).1 = hashring b ∧
  subConns (UpdateSubConnState RecordTransition b sc st).1 = subConns b ∧
  picker (UpdateSubConnState RecordTransition b sc st).1 = picker b.
Proof.
  unfold UpdateSubConnState.
  destruct (scStates b !! sc) as [oldS|]; [|cbn; auto].
  destruct oldS, (ConnectivityState st); cbn;
    try (destruct (RecordTransition _ _ _)); cbn; repeat split; reflexivity.
Qed.

(** The balancers a program can hold: made by [Build] and changed by the
    callbacks that gRPC calls, one at a time. *)
Inductive reachableBalancer : ringBalancer → Prop :=
| reachable_Build (hashfn : HashFunc) (c : ClientConn) (e : Evaluator) :
    reachableBalancer (Build hashfn c e)
| reachable_ResolverError (b : ringBalancer) (err : option error) :
    reachableBalancer b → reachableBalancer (ResolverError b err).1
| reachable_UpdateSubConnState (b : ringBalancer) (sc : SubConn) (st : SubConnState) :
    reachableBalancer b →
    reachableBalancer (UpdateSubConnState RecordTransition b sc st).1
| reachable_UpdateClientConnState (b b' : ringBalancer) (s : ClientConnState)
    (calls : list call) (err : option error) :
    reachableBalancer b →
    UpdateClientConnState NewSubConn RecordTransition b s = Done (b', calls, err) →
    reachableBalancer b'.

(** What holds of every such balancer: a stored configuration has a
    replication factor of 1 or more, and a ring, when there is one, is a
    ring made by [hashring.New], [Add] and [Remove] and comes with a
    configuration. *)
Record balancerInv (b : ringBalancer) : Prop := {
  bi_config : ∀ c : BalancerConfig, config b = Some c → 1 ≤ ReplicationFactor c;
  bi_ring : ∀ (n : nat) (hr : Ring),
    hashring b = Some (n, hr) → reachable hr ∧ is_Some (config b) }.

Definition couldntAdd : error := fmt_Errorf "couldn't add to hashring" [] None.

Lemma updateConfig_Panicked (b : ringBalancer) (s : ClientConnState) :
  balancerInv b →
  (updateConfig b s = Panicked ↔
   ∃ c : BalancerConfig,
     ClientConnState_BalancerConfig s = Some c ∧ ReplicationFactor c < 1).
Proof.
  intros [Hcfg _]. unfold updateConfig, New.
  destruct (ClientConnState_BalancerConfig s) as [c|].
  - destruct (config b) as [c0|] eqn:Hc0.
    + specialize (Hcfg c0 eq_refl).
      destruct (Z.eqb_spec (ReplicationFactor c) (ReplicationFactor c0)) as [Heq|Hne]; cbn.
      * split; [discriminate|]. intros (c' & [= <-] & Hlt). lia.
      * destruct (Z.ltb_spec (ReplicationFactor c) 1) as [Hlt|Hge].
        -- split; [eauto|reflexivity].
        -- split; [discriminate|]. intros (c' & [= <-] & Hlt). lia.
    + destruct (Z.ltb_spec (ReplicationFactor c) 1) as [Hlt|Hge].
      * split; [eauto|reflexivity].
      * split; [discriminate|]. intros (c' & [= <-] & Hlt). lia.
  - split; [discriminate|]. intros (c' & Hc' & _). discriminate.
Qed.

Lemma updateConfig_inv (b b1 : ringBalancer) (s : ClientConnState) :
  balancerInv b → updateConfig b s = Done b1 → balancerInv b1.
Proof.
  intros [Hcfg Hring]. unfold updateConfig.
  destruct (ClientConnState_BalancerConfig s) as [c|]; [|now intros [= <-]].
  destruct (match config b with Some _ => _ | None => _ end); [|now intros [= <-]].
  destruct (New _ _) as [[hr|] e] eqn:Hnew; [|discriminate].
  intros [= <-]. split; cbn.
  - intros c' [= <-]. unfold New in Hnew.
    destruct (Z.ltb_spec (ReplicationFactor c) 1); [discriminate | lia].
  - intros n' hr' [= <- <-]. split; [|eauto].
    unfold New in Hnew. destruct (ReplicationFactor c <? 1) eqn:Hlt; [discriminate|].
    injection Hnew as <- <-. apply (reachable_New (hasher b) (ReplicationFactor c)).
    unfold New. now rewrite Hlt.
Qed.

(** The first loop never touches the state, the picker, the configuration
    or the errors; it leaves a ring in place, and it stops with no error or
    with the one error of a refused [Add]. *)
Lemma addBackends_frame (addrs : list Address) :
  ∀ (b : ringBalancer) (n : nat) (hr : Ring) (calls : list call),
    hashring b = Some (n, hr) → reachable hr →
    ∃ (b' : ringBalancer) (calls' : list call) (err : option error) (hr' : Ring),
      addBackends NewSubConn RecordTransition b n hr addrs calls = (b', calls', err) ∧
      hashring b' = Some (n, hr') ∧ reachable hr' ∧
      state b' = state b ∧ picker b' = picker b ∧ config b' = config b ∧
      resolverErr b' = resolverErr b ∧ connErr b' = connErr b ∧ hasher b' = hasher b ∧
      published calls' = published calls ∧
      (err = None ∨ err = Some couldntAdd).
Proof.
  induction addrs as [|addr addrs IH]; intros b n hr calls Hring Hreach.
  - exists b, calls, None, hr. cbn. repeat split; auto.
  - cbn [addBackends]. destruct (subConns b !! addr) as [sc0|]; [now apply IH|].
    destruct (NewSubConn (cc b) addr) as [cc' [sc|e]].
    + destruct (Add hr _) as [hr' [e|]] eqn:HA.
      * exists (set_hashring
                  (set_csEvltr
                     (set_scStates
                        (set_subConns (set_cc b cc') (<[addr := sc]> (subConns b)))
                        (<[sc := Idle]> (scStates b)))
                     (RecordTransition (csEvltr b) Shutdown Idle).1)
                  (Some (n, hr'))), (calls ++ [Connect sc]),
          (Some couldntAdd), hr'.
        cbn. repeat split; auto.
        -- replace hr' with (Add hr {| sc_SubConn := sc;
                                       key := ServerName addr +:+ Addr addr |}).1
             by now rewrite HA.
           now apply reachable_Add.
        -- rewrite published_app. cbn. now rewrite app_nil_r.
      * edestruct (IH (set_hashring
                         (set_csEvltr
                            (set_scStates
                               (set_subConns (set_cc b cc') (<[addr := sc]> (subConns b)))
                               (<[sc := Idle]> (scStates b)))
                            (RecordTransition (csEvltr b) Shutdown Idle).1)
                         (Some (n, hr'))) n hr' (calls ++ [Connect sc]))
          as (b' & calls' & err & hr'' & Hrun & Hr' & Hreach' & Hst & Hpk & Hcfg & Hre &
              Hce & Hh & Hpub & Herr).
        -- reflexivity.
        -- replace hr' with (Add hr {| sc_SubConn := sc;
                                       key := ServerName addr +:+ Addr addr |}).1
             by now rewrite HA.
           now apply reachable_Add.
        -- exists b', calls', err, hr''. cbn in *.
           rewrite published_app in Hpub. cbn in Hpub. rewrite app_nil_r in Hpub.
           repeat split; auto.
    + edestruct (IH (set_cc b cc') n hr calls)
        as (b' & calls' & err & hr'' & Hrun & Hr' & Hreach' & Hst & Hpk & Hcfg & Hre &
            Hce & Hh & Hpub & Herr); [exact Hring | exact Hreach |].
      exists b', calls', err, hr''. cbn in *. repeat split; auto.
Qed.

(** The second loop returns: the keys it walks are keys of the address map,
    and [Remove] on a ring of the package returns. It too leaves a ring in
    place and stops with no error or with the one error of a refused
    [Remove]. *)
Lemma removeBackends_frame (kvs : list (Address * SubConn)) (addrsSet : gset Address) :
  ∀ (b : ringBalancer) (n : nat) (hr : Ring) (calls : list call),
    NoDup kvs.*1 →
    (∀ (a : Address) (sc : SubConn), (a, sc) ∈ kvs → subConns b !! a = Some sc) →
    hashring b = Some (n, hr) → reachable hr →
    ∃ (b' : ringBalancer) (calls' : list call) (err : option error) (hr' : Ring),
      removeBackends b n hr kvs.*1 addrsSet calls = Done (b', calls', err) ∧
      hashring b' = Some (n, hr') ∧ reachable hr' ∧
      sameOutsideBackends b b' ∧
      published calls' = published calls ∧
      (err = None ∨ err = Some couldntAdd).
Proof.
  induction kvs as [|[a sc] kvs IH]; intros b n hr calls Hnd Hkv Hring Hreach.
  - exists b, calls, None, hr. cbn. repeat split; auto.
  - cbn [fmap list_fmap fst removeBackends]. rewrite (Hkv a sc) by left.
    apply NoDup_cons in Hnd as [Hnotin Hnd].
    destruct (decide (a ∈ addrsSet)) as [Hin|Hout].
    + apply IH; auto. intros a' sc' Hin'. apply Hkv. now right.
    + destruct (Remove_returns hr {| sc_SubConn := sc; key := ServerName a +:+ Addr a |}
                  (reachable_ringInv _ Hreach)) as (hr' & err & Hrem).
      rewrite Hrem.
      pose proof (reachable_Remove _ _ _ _ Hreach Hrem) as Hreach'.
      destruct err as [e|].
      * eexists _, _, _, hr'. split; [reflexivity|]. cbn.
        rewrite published_app. cbn. rewrite app_nil_r.
        repeat split; auto.
      * edestruct (IH (set_hashring (set_subConns b (delete a (subConns b)))
                         (Some (n, hr'))) n hr' (calls ++ [RemoveSubConn sc]) Hnd)
          as (b' & calls' & err & hr'' & Hrun & Hr' & Hreach'' & Hsame & Hpub & Herr).
        -- intros a' sc' Hin'. cbn. rewrite lookup_delete_ne.
           ++ apply Hkv. now right.
           ++ intros <-. apply Hnotin. apply list_elem_of_fmap. now exists (a, sc').
        -- reflexivity.
        -- exact Hreach'.
        -- exists b', calls', err, hr''. split; [exact Hrun|].
           rewrite published_app in Hpub. cbn in Hpub. rewrite app_nil_r in Hpub.
           repeat split; auto; apply Hsame.
Qed.

Lemma map_to_list_kvs {K : Type} `{Countable K} {A : Type} (m : gmap K A) :
  NoDup (map_to_list m).*1 ∧
  ∀ (k : K) (x : A), (k, x) ∈ map_to_list m → m !! k = Some x.
Proof.
  split; [apply NoDup_fst_map_to_list|].
  intros k x Hin. now apply elem_of_map_to_list.
Qed.

(** One step of [UpdateClientConnState] on a balancer that satisfies the
    invariant: it panics for one reason only, it keeps the invariant, and
    its errors are three. *)
Lemma UpdateClientConnState_step (b : ringBalancer) (s : ClientConnState) :
  balancerInv b →
  (UpdateClientConnState NewSubConn RecordTransition b s = Panicked ↔
   ∃ c : BalancerConfig,
     ClientConnState_BalancerConfig s = Some c ∧ ReplicationFactor c < 1) ∧
  ∀ (b' : ringBalancer) (calls : list call) (err : option error),
    UpdateClientConnState NewSubConn RecordTransition b s = Done (b', calls, err) →
    balancerInv b' ∧
    (err = None ∨
     err = Some (fmt_Errorf "no hashring configured" [] None) ∨
     err = Some couldntAdd ∨
     err = Some ErrBadResolverState).
Proof.
  intros Hinv.
  assert (balancerInv (set_resolverErr b None)) as Hinv0.
  { destruct Hinv as [Hc Hr]. split; [exact Hc | exact Hr]. }
  pose proof (updateConfig_Panicked _ s Hinv0) as Hpanic.
  unfold UpdateClientConnState.
  destruct (updateConfig (set_resolverErr b None) s) as [b1|] eqn:Hcfg.
  2:{ split; [|discriminate]. split; [intros _; now apply Hpanic | reflexivity]. }
  assert (¬ ∃ c : BalancerConfig,
            ClientConnState_BalancerConfig s = Some c ∧ ReplicationFactor c < 1) as Hno.
  { intros Hex. apply Hpanic in Hex. discriminate. }
  pose proof (updateConfig_inv _ _ _ Hinv0 Hcfg) as [Hc1 Hr1].
  destruct (hashring b1) as [[n hr]|] eqn:Hring.
  2:{ split; [split; [discriminate | tauto]|].
      intros b' calls err [= <- <- <-]. split; [|auto].
      split; cbn; [exact Hc1|]. intros n hr Hn. rewrite Hring in Hn. discriminate. }
  destruct (Hr1 n hr eq_refl) as [Hreach Hsome].
  destruct (addBackends_frame (Addresses s) b1 n hr [] Hring Hreach)
    as (b2 & calls2 & err2 & hr2 & Hadd & Hring2 & Hreach2 & Hst2 & Hpk2 & Hcfg2 & _ & _ &
        _ & _ & Herr2).
  rewrite Hadd.
  assert (balancerInv b2) as Hinv2.
  { split.
    - rewrite Hcfg2. exact Hc1.
    - intros n' hr' Hn'. rewrite Hring2 in Hn'. injection Hn' as <- <-.
      now rewrite Hcfg2. }
  destruct Herr2 as [->| ->].
  2:{ split; [split; [discriminate | tauto]|].
      intros b' calls err [= <- <- <-]. split; [exact Hinv2 | auto]. }
  rewrite Hring2.
  destruct (map_to_list_kvs (subConns b2)) as [Hnd Hkv].
  destruct (removeBackends_frame (map_to_list (subConns b2)) (list_to_set (Addresses s))
              b2 n hr2 calls2 Hnd Hkv Hring2 Hreach2)
    as (b3 & calls3 & err3 & hr3 & Hrem & Hring3 & Hreach3 & Hsame3 & _ & Herr3).
  rewrite Hrem.
  destruct Hsame3 as (Hst3 & Hpk3 & Hev3 & Hscs3 & Hcfg3 & Hre3 & Hce3 & Hcc3 & Hh3).
  assert (balancerInv b3) as Hinv3.
  { split.
    - rewrite Hcfg3, Hcfg2. exact Hc1.
    - intros n' hr' Hn'. rewrite Hring3 in Hn'. injection Hn' as <- <-.
      now rewrite Hcfg3, Hcfg2. }
  destruct Herr3 as [->| ->].
  2:{ split; [split; [discriminate | tauto]|].
      intros b' calls err [= <- <- <-]. split; [exact Hinv3 | auto]. }
  destruct (length (Addresses s) =? 0)%nat.
  { destruct (ResolverError b3 _) as [b4 calls4] eqn:HRE.
    split; [split; [discriminate | tauto]|].
    intros b' calls err [= <- <- <-]. split; [|auto].
    pose proof (ResolverError_frame b3 (Some (errors_New "produced zero addresses")))
      as (Hc4 & Hr4 & _).
    rewrite HRE in Hc4, Hr4. cbn in Hc4, Hr4.
    destruct Hinv3 as [Hc3 Hr3]. split.
    - now rewrite Hc4.
    - intros n' hr'. rewrite Hr4, Hc4. apply Hr3. }
  destruct (decide (state b3 = TransientFailure)).
  { split; [split; [discriminate | tauto]|].
    intros b' calls err [= <- <- <-]. split; [|auto].
    destruct Hinv3 as [Hc3 Hr3]. split; [exact Hc3 | exact Hr3]. }
  destruct (config b3) as [c3|] eqn:Hc3.
  - split; [split; [discriminate | tauto]|].
    intros b' calls err [= <- <- <-]. split; [|auto].
    destruct Hinv3 as [Hc3' Hr3]. split; [exact Hc3' | exact Hr3].
  - destruct Hsome as [c1 Hsome]. congruence.
Qed.

Lemma reachableBalancer_inv (b : ringBalancer) : reachableBalancer b → balancerInv b.
Proof.
  induction 1 as [hf c e | b err _ IH | b sc st _ IH | b b' s calls err _ IH Hrun].
  - split; cbn; discriminate.
  - destruct (ResolverError_frame b err) as (Hc & Hr & _).
    destruct IH as [Hcfg Hring]. split.
    + now rewrite Hc.
    + intros n hr. rewrite Hr, Hc. apply Hring.
  - destruct (UpdateSubConnState_frame b sc st) as (Hc & Hr & _).
    destruct IH as [Hcfg Hring]. split.
    + now rewrite Hc.
    + intros n hr. rewrite Hr, Hc. apply Hring.
  - exact (proj1 (proj2 (UpdateClientConnState_step b s IH) b' calls err Hrun)).
Qed.

(** [UpdateClientConnState] on a balancer made by [Build] and changed by the
    callbacks panics for one reason only: the update carries a configuration
    with replication factor 0, for which [hashring.MustNew] panics. Nothing it
    indexes or dereferences fails otherwise. When it returns an error, the
    error is one of three: "no hashring configured", "couldn't add to
    hashring", or [ErrBadResolverState]. *)
Theorem UpdateClientConnState_panics (b : ringBalancer) (s : ClientConnState) :
  reachableBalancer b →
  (UpdateClientConnState NewSubConn RecordTransition b s = Panicked ↔
   ∃ c : BalancerConfig,
     ClientConnState_BalancerConfig s = Some c ∧ ReplicationFactor c < 1) ∧
  ∀ (b' : ringBalancer) (calls : list call) (err : error),
    UpdateClientConnState NewSubConn RecordTransition b s = Done (b', calls, Some err) →
    err = fmt_Errorf "no hashring configured" [] None ∨
    err = fmt_Errorf "couldn't add to hashring" [] None ∨
    err = ErrBadResolverState.
Proof.
  intros Hr. pose proof (reachableBalancer_inv b Hr) as Hinv.
  destruct (UpdateClientConnState_step b s Hinv) as [Hpanic Hdone].
  split; [exact Hpanic|].
  intros b' calls err Hrun.
  destruct (Hdone b' calls (Some err) Hrun) as [_ [Hn|[He|[He|He]]]];
    [discriminate | injection He as -> ..]; auto.
Qed.

(** The balancers that have not been given a configuration yet. *)
Inductive unconfigured : ringBalancer → Prop :=
| unconfigured_Build (hashfn : HashFunc) (c : ClientConn) (e : Evaluator) :
    unconfigured (Build hashfn c e)
| unconfigured_ResolverError (b : ringBalancer) (err : option error) :
    unconfigured b → unconfigured (ResolverError b err).1
| unconfigured_UpdateSubConnState (b : ringBalancer) (sc : SubConn) (st : SubConnState) :
    unconfigured b → unconfigured (UpdateSubConnState RecordTransition b sc st).1
| unconfigured_UpdateClientConnState (b b' : ringBalancer) (s : ClientConnState)
    (calls : list call) (err : option error) :
    unconfigured b →
    ClientConnState_BalancerConfig s = None →
    UpdateClientConnState NewSubConn RecordTransition b s = Done (b', calls, err) →
    unconfigured b'.

Lemma UpdateClientConnState_without_ring (b : ringBalancer) (s : ClientConnState) :
  hashring b = None → ClientConnState_BalancerConfig s = None →
  UpdateClientConnState NewSubConn RecordTransition b s =
    Done (set_picker (set_resolverErr b None) (ErrPicker (errors_Join [connErr b; None])),
          [UpdateState (state b) (ErrPicker (errors_Join [connErr b; None]))],
          Some (fmt_Errorf "no hashring configured" [] None)).
Proof.
  intros Hring Hcfg. unfold UpdateClientConnState, updateConfig. rewrite Hcfg.
  cbn [set_resolverErr hashring]. now rewrite Hring.
Qed.

(** Until a configuration arrives the balancer has no ring and no backend,
    whatever the callbacks in between: every update without a configuration,
    whatever addresses it carries, creates no sub-connection, publishes the
    state with an error picker once, and returns "no hashring configured";
    a state report for any sub-connection changes nothing. *)
Theorem UpdateClientConnState_unconfigured (b : ringBalancer) (s : ClientConnState) :
  unconfigured b →
  ClientConnState_BalancerConfig s = None →
  hashring b = None ∧ config b = None ∧ subConns b = ∅ ∧ scStates b = ∅ ∧
  (∀ (sc : SubConn) (st : SubConnState),
      UpdateSubConnState RecordTransition b sc st = (b, [])) ∧
  ∃ b' : ringBalancer,
    UpdateClientConnState NewSubConn RecordTransition b s =
      Done (b', [UpdateState (state b) (ErrPicker (errors_Join [connErr b; None]))],
            Some (fmt_Errorf "no hashring configured" [] None)) ∧
    subConns b' = ∅ ∧ hashring b' = None ∧ state b' = state b ∧ cc b' = cc b.
Proof.
  intros Hun Hcfg.
  assert (hashring b = None ∧ config b = None ∧ subConns b = ∅ ∧ scStates b = ∅) as Hempty.
  { clear s Hcfg.
    induction Hun as [hf c e | b err _ IH | b sc st _ IH | b b' s calls err _ IH Hcfg Hrun].
    - cbn. auto.
    - destruct (ResolverError_frame b err) as (-> & -> & -> & ->). exact IH.
    - destruct IH as (Hr & Hc & Hs & Hst). unfold UpdateSubConnState.
      rewrite Hst, lookup_empty. cbn. auto.
    - destruct IH as (Hr & Hc & Hs & Hst).
      rewrite (UpdateClientConnState_without_ring b s Hr Hcfg) in Hrun.
      injection Hrun as <- _ _. cbn. auto. }
  destruct Hempty as (Hr & Hc & Hs & Hst).
  split; [exact Hr|]. split; [exact Hc|]. split; [exact Hs|]. split; [exact Hst|]. split.
  - intros sc st. unfold UpdateSubConnState. now rewrite Hst, lookup_empty.
  - eexists. split; [exact (UpdateClientConnState_without_ring b s Hr Hcfg)|].
    cbn. auto.
Qed.

Lemma addBackends_present (addrs : list Address) (b : ringBalancer) (n : nat) (hr : Ring)
    (calls : list call) :
  (∀ a : Address, a ∈ addrs → is_Some (subConns b !! a)) →
  addBackends NewSubConn RecordTransition b n hr addrs calls = (b, calls, None).
Proof.
  induction addrs as [|addr addrs IH]; intros Hall; [reflexivity|].
  cbn [addBackends]. destruct (Hall addr) as [sc ->]; [now left|].
  apply IH. intros a Ha. apply Hall. now right.
Qed.

Lemma removeBackends_kept (keys : list Address) (addrsSet : gset Address)
    (b : ringBalancer) (n : nat) (hr : Ring) (calls : list call) :
  (∀ a : Address, a ∈ keys → a ∈ addrsSet ∧ is_Some (subConns b !! a)) →
  removeBackends b n hr keys addrsSet calls = Done (b, calls, None).
Proof.
  induction keys as [|addr keys IH]; intros Hall; [reflexivity|].
  cbn [removeBackends]. destruct (Hall addr) as [Hin [sc ->]]; [now left|].
  destruct (decide (addr ∈ addrsSet)) as [_|Hout]; [|contradiction].
  apply IH. intros a Ha. apply Hall. now right.
Qed.

Lemma UpdateClientConnState_same (b : ringBalancer) (s : ClientConnState) (n : nat)
    (hr : Ring) (c : BalancerConfig) :
  hashring b = Some (n, hr) →
  config b = Some c →
  (∀ c' : BalancerConfig,
      ClientConnState_BalancerConfig s = Some c' →
      ReplicationFactor c' = ReplicationFactor c) →
  Addresses s ≠ [] →
  (∀ a : Address, a ∈ Addresses s ↔ is_Some (subConns b !! a)) →
  let p :=
    if decide (state b = TransientFailure)
    then ErrPicker (errors_Join [connErr b; None])
    else ringPicker n (Spread c) in
  UpdateClientConnState NewSubConn RecordTransition b s =
    Done (set_picker (set_resolverErr b None) p, [UpdateState (state b) p], None).
Proof.
  intros Hring Hcfg Hsame Hne Hdom p. subst p.
  unfold UpdateClientConnState.
  assert (updateConfig (set_resolverErr b None) s = Done (set_resolverErr b None)) as ->.
  { unfold updateConfig. destruct (ClientConnState_BalancerConfig s) as [c'|]; [|reflexivity].
    cbn [set_resolverErr config]. rewrite Hcfg, (Hsame c' eq_refl), Z.eqb_refl.
    reflexivity. }
  cbn [set_resolverErr hashring]. rewrite Hring.
  rewrite addBackends_present by (intros a Ha; now apply Hdom).
  cbn [hashring set_resolverErr]. rewrite Hring.
  rewrite removeBackends_kept.
  - destruct (Addresses s) as [|a0 rest]; [contradiction|]. cbn [length Nat.eqb].
    cbn [state set_resolverErr].
    destruct (decide (state b = TransientFailure)) as [Htf|Hok].
    + reflexivity.
    + cbn [config set_resolverErr]. rewrite Hcfg. reflexivity.
  - intros a Ha. apply list_elem_of_fmap in Ha as ([a' sc] & -> & Hin).
    apply elem_of_map_to_list in Hin. cbn [fst subConns] in *. split.
    + apply elem_of_list_to_set. apply Hdom. eauto.
    + eauto.
Qed.

(** An update that brings nothing new. When the balancer has a ring, the
    update carries no configuration or one with the replication factor in
    use, and its addresses are exactly the addresses the balancer knows,
    [UpdateClientConnState] creates and removes nothing, leaves the ring and
    both maps alone, clears the resolver error, and publishes once: the
    ring picker with the spread of the configuration in use (a spread that
    comes with the update is not taken over), or an error picker when the
    aggregate state is TRANSIENT_FAILURE. It returns nil, and the same update
    once more does the same and leaves the balancer as it is. *)
Theorem UpdateClientConnState_steady (b : ringBalancer) (s : ClientConnState) (n : nat)
    (hr : Ring) (c : BalancerConfig) :
  hashring b = Some (n, hr) →
  config b = Some c →
  (∀ c' : BalancerConfig,
      ClientConnState_BalancerConfig s = Some c' →
      ReplicationFactor c' = ReplicationFactor c) →
  Addresses s ≠ [] →
  (∀ a : Address, a ∈ Addresses s ↔ is_Some (subConns b !! a)) →
  let p :=
    if decide (state b = TransientFailure)
    then ErrPicker (errors_Join [connErr b; None])
    else ringPicker n (Spread c) in
  UpdateClientConnState NewSubConn RecordTransition b s =
    Done (set_picker (set_resolverErr b None) p, [UpdateState (state b) p], None) ∧
  ∀ (b' : ringBalancer) (calls : list call) (err : option error),
    UpdateClientConnState NewSubConn RecordTransition b s = Done (b', calls, err) →
    UpdateClientConnState NewSubConn RecordTransition b' s = Done (b', calls, err).
Proof.
  intros Hring Hcfg Hsame Hne Hdom p. subst p.
  pose proof (UpdateClientConnState_same b s n hr c Hring Hcfg Hsame Hne Hdom) as Hrun.
  cbn zeta in Hrun. split; [exact Hrun|].
  intros b' calls err Hrun'. rewrite Hrun in Hrun'. injection Hrun' as <- <- <-.
  match goal with
  | |- UpdateClientConnState _ _ ?b1 _ = _ =>
      pose proof (UpdateClientConnState_same b1 s n hr c Hring Hcfg Hsame Hne Hdom)
        as Hrun2
  end.
  cbn zeta in Hrun2. rewrite Hrun2.
  cbn [state set_picker set_resolverErr connErr].
  destruct (decide (state b = TransientFailure)); reflexivity.
Qed.

(** *** The ring follows the resolver's addresses *)

(** The key a backend is hashed by, [addr.ServerName + addr.Addr], and the
    member [UpdateClientConnState] hands to the ring for it,
    [subConnMember{SubConn: sc, key: addr.ServerName + addr.Addr}]. *)
Definition addrKey (addr : Address) : string := ServerName addr +:+ Addr addr.

Definition memberOf (addr : Address) (sc : SubConn) : subConnMember :=
  {| sc_SubConn := sc; key := addrKey addr |}.

(** The balancer and its ring agree: the ring was built without ties, its
    members are the backends of the address map, each under the key of its
    address and with its sub-connection, and no two backends share a key. *)
Record synced (b : ringBalancer) (n : nat) (hr : Ring) : Prop := {
  sy_ring : hashring b = Some (n, hr);
  sy_ties : reachableWithoutTies hr;
  sy_size : size (nodes hr) = size (subConns b);
  sy_nodes : ∀ (k : string) (rec : nodeRecord),
    nodes hr !! k = Some rec →
    ∃ (addr : Address) (sc : SubConn),
      subConns b !! addr = Some sc ∧ k = addrKey addr ∧ member rec = memberOf addr sc;
  sy_present : ∀ (addr : Address) (sc : SubConn),
    subConns b !! addr = Some sc →
    ∃ rec : nodeRecord,
      nodes hr !! addrKey addr = Some rec ∧ member rec = memberOf addr sc;
  sy_inj : ∀ a1 a2 : Address,
    is_Some (subConns b !! a1) → is_Some (subConns b !! a2) →
    addrKey a1 = addrKey a2 → a1 = a2 }.

Lemma synced_add (b : ringBalancer) (n : nat) (hr : Ring) (addr : Address) (sc : SubConn) :
  synced b n hr →
  subConns b !! addr = None →
  (∀ a : Address, is_Some (subConns b !! a) → addrKey a ≠ addrKey addr) →
  distinctHashes (hashfn hr) (replicationFactor hr) (memberOf addr sc) →
  ∃ hr' : Ring,
    Add hr (memberOf addr sc) = (hr', None) ∧
    hashfn hr' = hashfn hr ∧ replicationFactor hr' = replicationFactor hr ∧
    ∀ b' : ringBalancer,
      hashring b' = Some (n, hr') →
      subConns b' = <[addr := sc]> (subConns b) →
      synced b' n hr'.
Proof.
  intros [Hring Hties Hsize Hnodes Hpresent Hinj] Hnew Hfresh Hdist.
  assert (nodes hr !! Key (memberOf addr sc) = None) as Hnone.
  { destruct (nodes hr !! Key (memberOf addr sc)) as [rec|] eqn:Hk; [|reflexivity].
    destruct (Hnodes _ _ Hk) as (a & sc' & Ha & Hkey & _).
    destruct (Hfresh a); [eauto | now symmetry]. }
  pose proof (withoutTies_Add hr (memberOf addr sc) Hties Hdist) as Hties'.
  rewrite (Add_fresh hr _ Hnone) in Hties'. cbn [fst] in Hties'.
  eexists. split; [exact (Add_fresh hr _ Hnone)|].
  split; [reflexivity|]. split; [reflexivity|].
  intros b' Hring' Hsub'.
  destruct (newNode_record (hashfn hr) (replicationFactor hr) (memberOf addr sc))
    as (Hmem & _).
  split; cbn [nodes].
  - exact Hring'.
  - exact Hties'.
  - rewrite Hsub', (map_size_insert_None _ _ _ Hnone), (map_size_insert_None _ _ _ Hnew).
    now rewrite Hsize.
  - intros k rec Hk. apply lookup_insert_Some in Hk as [[<- <-]|[Hne Hk]].
    + exists addr, sc. rewrite Hsub', lookup_insert_eq. auto.
    + destruct (Hnodes _ _ Hk) as (a & sc' & Ha & Hkey & Hm).
      exists a, sc'. rewrite Hsub', lookup_insert_ne by congruence. auto.
  - intros a sc' Ha. rewrite Hsub' in Ha.
    apply lookup_insert_Some in Ha as [[<- <-]|[Hne Ha]].
    + eexists. split; [apply lookup_insert_eq | exact Hmem].
    + destruct (Hpresent _ _ Ha) as (rec & Hrec & Hm).
      exists rec. split; [|exact Hm].
      rewrite lookup_insert_ne; [exact Hrec|].
      intros Heq. apply (Hfresh a); [eauto|]. now symmetry.
  - intros a1 a2 H1 H2 Hkey. rewrite Hsub' in H1, H2.
    apply lookup_insert_is_Some in H1 as [<-|[Hne1 H1]];
      apply lookup_insert_is_Some in H2 as [<-|[Hne2 H2]].
    + reflexivity.
    + destruct (Hfresh a2 H2). now symmetry.
    + now destruct (Hfresh a1 H1).
    + now apply Hinj.
Qed.

Lemma synced_remove (b : ringBalancer) (n : nat) (hr : Ring) (addr : Address)
    (sc : SubConn) :
  synced b n hr →
  subConns b !! addr = Some sc →
  ∃ hr' : Ring,
    Remove hr (memberOf addr sc) = Done (hr', None) ∧
    hashfn hr' = hashfn hr ∧ replicationFactor hr' = replicationFactor hr ∧
    ∀ b' : ringBalancer,
      hashring b' = Some (n, hr') →
      subConns b' = delete addr (subConns b) →
      synced b' n hr'.
Proof.
  intros [Hring Hties Hsize Hnodes Hpresent Hinj] Hsc.
  destruct (Hpresent _ _ Hsc) as (rec & Hrec & Hmem).
  pose proof (reachableWithoutTies_tieFree _ Hties) as Htf.
  destruct (Remove_without_ties hr (memberOf addr sc) rec (tf_inv _ Htf) (tf_strict _ Htf)
              (tf_owned _ Htf) Hrec) as (hr' & Hrun & Hhf & HR & Hn & _).
  exists hr'. split; [exact Hrun|]. split; [exact Hhf|]. split; [exact HR|].
  intros b' Hring' Hsub'. split.
  - exact Hring'.
  - exact (withoutTies_Remove _ _ _ _ Hties Hrun).
  - rewrite Hn, Hsub', map_size_delete_Some, map_size_delete_Some by eauto.
    now rewrite Hsize.
  - intros k rec' Hk. rewrite Hn in Hk. apply lookup_delete_Some in Hk as [Hne Hk].
    destruct (Hnodes _ _ Hk) as (a & sc' & Ha & Hkey & Hm).
    exists a, sc'. rewrite Hsub', lookup_delete_ne; [auto|].
    intros <-. apply Hne. now rewrite Hkey.
  - intros a sc' Ha. rewrite Hsub' in Ha. apply lookup_delete_Some in Ha as [Hne Ha].
    destruct (Hpresent _ _ Ha) as (rec' & Hrec' & Hm).
    exists rec'. split; [|exact Hm]. rewrite Hn, lookup_delete_ne; [exact Hrec'|].
    intros Hkey. apply Hne. apply Hinj; eauto.
  - intros a1 a2 H1 H2 Hkey. rewrite Hsub' in H1, H2.
    apply lookup_delete_is_Some in H1 as [_ H1], H2 as [_ H2]. now apply Hinj.
Qed.

(** The first loop on a balancer in agreement with its ring, when
    [NewSubConn] does not fail and no new address shares a key with another
    address: it ends without error, every address of the update is known
    afterwards, the known ones keep their sub-connection, each new one was
    asked to connect, and balancer and ring agree again. *)
Lemma addBackends_synced (addrs : list Address) :
  ∀ (b : ringBalancer) (n : nat) (hr : Ring) (calls : list call),
    synced b n hr →
    (∀ (c : ClientConn) (a : Address),
        ∃ (c' : ClientConn) (sc : SubConn), NewSubConn c a = (c', inl sc)) →
    (∀ a1 a2 : Address,
        a1 ∈ addrs ∨ is_Some (subConns b !! a1) →
        a2 ∈ addrs ∨ is_Some (subConns b !! a2) →
        addrKey a1 = addrKey a2 → a1 = a2) →
    (∀ (a : Address) (sc : SubConn),
        a ∈ addrs → subConns b !! a = None →
        distinctHashes (hashfn hr) (replicationFactor hr) (memberOf a sc)) →
    ∃ (b' : ringBalancer) (hr' : Ring) (scs : list SubConn),
      addBackends NewSubConn RecordTransition b n hr addrs calls =
        (b', calls ++ (Connect <$> scs), None) ∧
      synced b' n hr' ∧
      (∀ a : Address,
          is_Some (subConns b' !! a) ↔ is_Some (subConns b !! a) ∨ a ∈ addrs) ∧
      (∀ a : Address, is_Some (subConns b !! a) → subConns b' !! a = subConns b !! a) ∧
      (∀ sc : SubConn,
          sc ∈ scs ↔
          ∃ a : Address, a ∈ addrs ∧ subConns b !! a = None ∧ subConns b' !! a = Some sc) ∧
      state b' = state b ∧ picker b' = picker b ∧ config b' = config b ∧
      resolverErr b' = resolverErr b ∧ connErr b' = connErr b.
Proof.
  induction addrs as [|addr addrs IH]; intros b n hr calls Hsync Hnew Hinj Hdist.
  - exists b, hr, []. cbn. rewrite app_nil_r. split; [reflexivity|]. split; [exact Hsync|].
    split; [|split; [auto|split; [|auto]]].
    + intros a. split; [auto|]. intros [Ha|Ha]; [exact Ha | now apply elem_of_nil in Ha].
    + intros sc. split; [intros Hsc; now apply elem_of_nil in Hsc|].
      intros (a & Ha & _). now apply elem_of_nil in Ha.
  - cbn [addBackends]. destruct (subConns b !! addr) as [sc0|] eqn:Haddr.
    + destruct (IH b n hr calls Hsync Hnew) as (b' & hr' & scs & Hrun & Hsync' & Hdom &
                                                Hkeep & Hscs & Hrest).
      { intros a1 a2 H1 H2. apply Hinj.
        - destruct H1 as [H1|H1]; [left; now right | now right].
        - destruct H2 as [H2|H2]; [left; now right | now right]. }
      { intros a sc Ha. apply Hdist. now right. }
      exists b', hr', scs. split; [exact Hrun|]. split; [exact Hsync'|].
      split; [|split; [exact Hkeep|split; [|exact Hrest]]].
      * intros a. rewrite Hdom. split.
        -- intros [Ha|Ha]; [now left | right; now right].
        -- intros [Ha|Ha]; [now left|].
           apply elem_of_cons in Ha as [->|Ha]; [left; eauto | now right].
      * intros sc. rewrite Hscs. split.
        -- intros (a & Ha & Hn & Hs). exists a. split; [now right | auto].
        -- intros (a & Ha & Hn & Hs). exists a. split; [|auto].
           apply elem_of_cons in Ha as [->|Ha]; [congruence | exact Ha].
    + destruct (Hnew (cc b) addr) as (cc' & sc & ->).
      destruct (synced_add b n hr addr sc Hsync Haddr) as (hr1 & HA & Hhf & HR & Hstep).
      { intros a Ha Hkey. assert (a = addr) as ->.
        { apply Hinj; [now right | left; now left | exact Hkey]. }
        destruct Ha as [x Ha]. congruence. }
      { apply Hdist; [now left | exact Haddr]. }
      change {| sc_SubConn := sc; key := ServerName addr +:+ Addr addr |}
        with (memberOf addr sc).
      rewrite HA.
      set (b1 := set_hashring _ (Some (n, hr1))).
      assert (subConns b1 = <[addr := sc]> (subConns b)) as Hsub1 by reflexivity.
      destruct (IH b1 n hr1 (calls ++ [Connect sc]) (Hstep b1 eq_refl Hsub1) Hnew)
        as (b' & hr' & scs & Hrun & Hsync' & Hdom & Hkeep & Hscs & Hrest).
      { intros a1 a2 H1 H2. apply Hinj.
        - destruct H1 as [H1|H1]; [left; now right|].
          rewrite Hsub1 in H1.
          apply lookup_insert_is_Some in H1 as [<-|[_ H1]]; [left; now left | now right].
        - destruct H2 as [H2|H2]; [left; now right|].
          rewrite Hsub1 in H2.
          apply lookup_insert_is_Some in H2 as [<-|[_ H2]]; [left; now left | now right]. }
      { intros a sc' Ha Hn. rewrite Hhf, HR. apply Hdist; [now right|].
        rewrite Hsub1 in Hn. apply lookup_insert_None in Hn. tauto. }
      exists b', hr', (sc :: scs). rewrite Hrun, <- app_assoc. cbn [fmap list_fmap app].
      split; [reflexivity|]. split; [exact Hsync'|].
      split; [|split; [|split; [|exact Hrest]]].
      * intros a. rewrite Hdom, Hsub1, lookup_insert_is_Some. split.
        -- intros [[<-|[_ Ha]]|Ha]; [right; now left | now left | right; now right].
        -- intros [Ha|Ha].
           ++ left. destruct (decide (addr = a)) as [->|Hne]; [now left | right; auto].
           ++ apply elem_of_cons in Ha as [->|Ha]; [left; now left | now right].
      * intros a Ha. rewrite Hkeep.
        -- rewrite Hsub1, lookup_insert_ne; [reflexivity|].
           intros <-. destruct Ha as [x Ha]. congruence.
        -- rewrite Hsub1, lookup_insert_is_Some.
           destruct (decide (addr = a)) as [->|Hne]; [now left | right; auto].
      * intros sc'. rewrite elem_of_cons, Hscs. split.
        -- intros [->|(a & Ha & Hn & Hs)].
           ++ exists addr. split; [now left|]. split; [exact Haddr|].
              rewrite Hkeep; [now rewrite Hsub1, lookup_insert_eq|].
              rewrite Hsub1, lookup_insert_eq. eauto.
           ++ exists a. rewrite Hsub1 in Hn. apply lookup_insert_None in Hn as [Hn _].
              split; [now right | auto].
        -- intros (a & Ha & Hn & Hs). destruct (decide (a = addr)) as [->|Hne].
           ++ left. rewrite Hkeep in Hs.
              ** rewrite Hsub1, lookup_insert_eq in Hs. congruence.
              ** rewrite Hsub1, lookup_insert_eq. eauto.
           ++ right. exists a. apply elem_of_cons in Ha as [->|Ha]; [contradiction|].
              split; [exact Ha|]. split; [|exact Hs].
              rewrite Hsub1, lookup_insert_ne by congruence. exact Hn.
Qed.

(** The second loop on a balancer in agreement with its ring: it ends
    without error, forgets exactly the backends whose address is not in the
    update, asks the runtime to remove each of them, and balancer and ring
    agree again. *)
Lemma removeBackends_synced (kvs : list (Address * SubConn)) (addrsSet : gset Address) :
  ∀ (b : ringBalancer) (n : nat) (hr : Ring) (calls : list call),
    NoDup kvs.*1 →
    (∀ (a : Address) (sc : SubConn), (a, sc) ∈ kvs → subConns b !! a = Some sc) →
    synced b n hr →
    ∃ (b' : ringBalancer) (hr' : Ring),
      removeBackends b n hr kvs.*1 addrsSet calls =
        Done (b', calls ++ (RemoveSubConn <$> (filter (λ kv, kv.1 ∉ addrsSet) kvs).*2),
              None) ∧
      synced b' n hr' ∧
      sameOutsideBackends b b' ∧
      ∀ a : Address,
        subConns b' !! a =
          if decide (a ∈ kvs.*1 ∧ a ∉ addrsSet) then None else subConns b !! a.
Proof.
  induction kvs as [|[a sc] kvs IH]; intros b n hr calls Hnd Hkv Hsync.
  - exists b, hr. cbn. rewrite app_nil_r. split; [reflexivity|]. split; [exact Hsync|].
    split; [repeat split|].
    intros a. destruct (decide _) as [[Hin _]|_]; [now apply elem_of_nil in Hin | reflexivity].
  - cbn [fmap list_fmap fst removeBackends]. rewrite (Hkv a sc) by left.
    apply NoDup_cons in Hnd as [Hnotin Hnd]. rewrite filter_cons. cbn [fst].
    destruct (decide (a ∈ addrsSet)) as [Hin|Hout].
    + destruct (decide (a ∉ addrsSet)) as [Hbad|_]; [contradiction|].
      destruct (IH b n hr calls Hnd) as (b' & hr' & Hrun & Hsync' & Hsame & Hlook);
        [intros a' sc' Hin'; apply Hkv; now right | exact Hsync |].
      exists b', hr'. split; [exact Hrun|]. split; [exact Hsync'|]. split; [exact Hsame|].
      intros a'. rewrite Hlook.
      destruct (decide (a' ∈ kvs.*1 ∧ a' ∉ addrsSet)) as [[H1 H2]|Hno];
        destruct (decide (a' ∈ a :: kvs.*1 ∧ a' ∉ addrsSet)) as [[H3 H4]|Hno'];
        try reflexivity.
      * destruct Hno'. split; [now right | exact H2].
      * apply elem_of_cons in H3 as [->|H3]; [contradiction|]. destruct Hno. auto.
    + destruct (decide (a ∉ addrsSet)) as [_|Hbad]; [|contradiction].
      destruct (synced_remove b n hr a sc Hsync (Hkv a sc ltac:(left)))
        as (hr1 & Hrem & _ & _ & Hstep).
      change {| sc_SubConn := sc; key := ServerName a +:+ Addr a |} with (memberOf a sc).
      rewrite Hrem.
      set (b1 := set_hashring _ (Some (n, hr1))).
      assert (subConns b1 = delete a (subConns b)) as Hsub1 by reflexivity.
      destruct (IH b1 n hr1 (calls ++ [RemoveSubConn sc]) Hnd)
        as (b' & hr' & Hrun & Hsync' & Hsame & Hlook).
      { intros a' sc' Hin'. rewrite Hsub1, lookup_delete_ne.
        - apply Hkv. now right.
        - intros <-. apply Hnotin. apply list_elem_of_fmap. now exists (a, sc'). }
      { exact (Hstep b1 eq_refl Hsub1). }
      exists b', hr'. rewrite Hrun, <- app_assoc. cbn [fmap list_fmap snd app].
      split; [reflexivity|]. split; [exact Hsync'|]. split; [exact Hsame|].
      intros a'. rewrite Hlook, Hsub1.
      destruct (decide (a' = a)) as [->|Hne].
      * rewrite lookup_delete_eq.
        destruct (decide (a ∈ kvs.*1 ∧ a ∉ addrsSet)) as [_|_];
          destruct (decide (a ∈ a :: kvs.*1 ∧ a ∉ addrsSet)) as [_|Hno'];
          try reflexivity.
        -- destruct Hno'. split; [now left | exact Hout].
        -- destruct Hno'. split; [now left | exact Hout].
      * rewrite lookup_delete_ne by congruence.
        destruct (decide (a' ∈ kvs.*1 ∧ a' ∉ addrsSet)) as [[H1 H2]|Hno];
          destruct (decide (a' ∈ a :: kvs.*1 ∧ a' ∉ addrsSet)) as [[H3 H4]|Hno'];
          try reflexivity.
        -- destruct Hno'. split; [now right | exact H2].
        -- apply elem_of_cons in H3 as [->|H3]; [contradiction|]. destruct Hno. auto.
Qed.

(** After [UpdateClientConnState] the backends are the addresses of the
    update. Let the balancer and its ring agree once the configuration step
    is done (as they do when the ring is new and there are no backends yet,
    or when the replication factor has not changed), let [NewSubConn] not
    fail, let no two of the addresses involved share a key, and let no new
    backend have two virtual nodes with one hash. Then the call returns nil;
    the address map holds exactly the addresses of the update, those known
    before with the sub-connection they had; each new backend was asked to
    connect and each backend that is gone was handed to [RemoveSubConn], and
    nothing else was; balancer and ring agree again; and one state is
    published, last: the aggregate state as it was, with a picker on the
    ring, or with an error picker when that state is TRANSIENT_FAILURE. *)
Theorem UpdateClientConnState_tracks (b b1 : ringBalancer) (s : ClientConnState)
    (n : nat) (hr : Ring) (c : BalancerConfig) :
  updateConfig (set_resolverErr b None) s = Done b1 →
  synced b1 n hr →
  config b1 = Some c →
  Addresses s ≠ [] →
  (∀ (c0 : ClientConn) (a : Address),
      ∃ (c1 : ClientConn) (sc : SubConn), NewSubConn c0 a = (c1, inl sc)) →
  (∀ a1 a2 : Address,
      a1 ∈ Addresses s ∨ is_Some (subConns b !! a1) →
      a2 ∈ Addresses s ∨ is_Some (subConns b !! a2) →
      addrKey a1 = addrKey a2 → a1 = a2) →
  (∀ (a : Address) (sc : SubConn),
      a ∈ Addresses s → subConns b !! a = None →
      distinctHashes (hashfn hr) (replicationFactor hr) (memberOf a sc)) →
  let p :=
    if decide (state b = TransientFailure)
    then ErrPicker (errors_Join [connErr b; None])
    else ringPicker n (Spread c) in
  ∃ (b' : ringBalancer) (hr' : Ring) (scs gone : list SubConn),
    UpdateClientConnState NewSubConn RecordTransition b s =
      Done (b',
            (Connect <$> scs) ++ (RemoveSubConn <$> gone) ++ [UpdateState (state b) p],
            None) ∧
    synced b' n hr' ∧
    (∀ a : Address, is_Some (subConns b' !! a) ↔ a ∈ Addresses s) ∧
    (∀ a : Address,
        a ∈ Addresses s → is_Some (subConns b !! a) → subConns b' !! a = subConns b !! a) ∧
    (∀ sc : SubConn,
        sc ∈ scs ↔
        ∃ a : Address,
          a ∈ Addresses s ∧ subConns b !! a = None ∧ subConns b' !! a = Some sc) ∧
    (∀ sc : SubConn,
        sc ∈ gone ↔ ∃ a : Address, (a ∉ Addresses s) ∧ subConns b !! a = Some sc) ∧
    state b' = state b ∧ picker b' = p ∧ resolverErr b' = None.
Proof.
  intros Hcfg Hsync Hc Hne Hnew Hinj Hdist p.
  destruct (updateConfig_frame _ _ _ Hcfg) as (Hst1 & Hpk1 & Hsub1 & Hce1 & Hre1).
  cbn [set_resolverErr state picker subConns connErr resolverErr] in *.
  unfold UpdateClientConnState. rewrite Hcfg, (sy_ring _ _ _ Hsync).
  destruct (addBackends_synced (Addresses s) b1 n hr [] Hsync Hnew)
    as (b2 & hr2 & scs & Hadd & Hsync2 & Hdom2 & Hkeep2 & Hscs & Hst2 & Hpk2 & Hcfg2 &
        Hre2 & Hce2).
  { intros a1 a2. rewrite Hsub1. apply Hinj. }
  { intros a sc Ha. rewrite Hsub1. now apply Hdist. }
  rewrite Hadd, (sy_ring _ _ _ Hsync2). cbn [app].
  destruct (map_to_list_kvs (subConns b2)) as [Hnd Hkv].
  destruct (removeBackends_synced (map_to_list (subConns b2)) (list_to_set (Addresses s))
              b2 n hr2 (Connect <$> scs) Hnd Hkv Hsync2)
    as (b3 & hr3 & Hrem & Hsync3 & Hsame3 & Hlook3).
  rewrite Hrem.
  destruct Hsame3 as (Hst3 & Hpk3 & Hev3 & Hscs3 & Hcfg3 & Hre3 & Hce3 & Hcc3 & Hh3).
  assert (∀ a : Address, is_Some (subConns b3 !! a) ↔ a ∈ Addresses s) as Hdom3.
  { intros a. rewrite Hlook3.
    destruct (decide (a ∈ (map_to_list (subConns b2)).*1 ∧
                      a ∉ (list_to_set (Addresses s) : gset Address))) as [[H1 H2]|Hno].
    - split; [intros [x Hx]; discriminate|]. intros Ha. destruct H2.
      now apply elem_of_list_to_set.
    - rewrite Hdom2, Hsub1. split; [|auto]. intros Hsome.
      destruct (decide (a ∈ Addresses s)) as [Ha|Hna]; [exact Ha|].
      destruct Hno. split.
      + assert (is_Some (subConns b2 !! a)) as [x Hx] by (apply Hdom2; now rewrite Hsub1).
        apply list_elem_of_fmap. exists (a, x). split; [reflexivity|].
        now apply elem_of_map_to_list.
      + now rewrite elem_of_list_to_set. }
  assert (∀ a : Address, a ∈ Addresses s → subConns b3 !! a = subConns b2 !! a) as Hkeep3.
  { intros a Ha. rewrite Hlook3.
    match goal with
    | |- context [decide (?P ∧ ?Q)] => destruct (decide (P ∧ Q)) as [[_ H2]|_]
    end; [|reflexivity].
    destruct H2. now apply elem_of_list_to_set. }
  set (gone := (filter (λ kv : Address * SubConn,
                          kv.1 ∉ (list_to_set (Addresses s) : gset Address))
                  (map_to_list (subConns b2))).*2) in *.
  assert (state b3 = state b) as Hstate by congruence.
  assert (picker b3 = picker b) as Hpicker by congruence.
  assert (config b3 = Some c) as Hconfig by congruence.
  assert (connErr b3 = connErr b) as HconnErr by congruence.
  assert (resolverErr b3 = None) as Hresolver by congruence.
  assert ((length (Addresses s) =? 0)%nat = false) as ->.
  { destruct (Addresses s); [contradiction | reflexivity]. }
  assert (∀ sc : SubConn,
            sc ∈ gone ↔ ∃ a : Address, (a ∉ Addresses s) ∧ subConns b !! a = Some sc) as Hgone.
  { intros sc. unfold gone. rewrite list_elem_of_fmap. split.
    - intros ([a sc'] & -> & Hin). apply list_elem_of_filter in Hin as [Hout Hin].
      apply elem_of_map_to_list in Hin. cbn [fst snd] in *.
      rewrite elem_of_list_to_set in Hout. exists a. split; [exact Hout|].
      assert (is_Some (subConns b1 !! a)) as Hold.
      { destruct (proj1 (Hdom2 a) ltac:(eauto)) as [Hold|Ha]; [exact Hold | contradiction]. }
      rewrite <- Hsub1, <- (Hkeep2 a Hold). exact Hin.
    - intros (a & Hout & Ha). exists (a, sc). split; [reflexivity|].
      apply list_elem_of_filter. cbn [fst]. split; [now rewrite elem_of_list_to_set|].
      apply elem_of_map_to_list. rewrite Hkeep2; rewrite Hsub1; eauto. }
  assert (∀ sc : SubConn,
            sc ∈ scs ↔
            ∃ a : Address,
              a ∈ Addresses s ∧ subConns b !! a = None ∧ subConns b3 !! a = Some sc)
    as Hscs'.
  { intros sc. rewrite Hscs. split.
    - intros (a & Ha & Hn & Hs). exists a. rewrite (Hkeep3 a Ha), <- Hsub1. auto.
    - intros (a & Ha & Hn & Hs). exists a. rewrite (Hkeep3 a Ha), <- Hsub1 in *. auto. }
  subst p.
  destruct (decide (state b3 = TransientFailure)) as [Htf|Hok].
  - eexists _, hr3, scs, gone. split.
    + rewrite Hstate in *.
      destruct (decide (state b = TransientFailure)) as [_|Hbad]; [|contradiction].
      cbn [state set_picker picker connErr resolverErr].
      rewrite Hstate, HconnErr, Hresolver, <- app_assoc. reflexivity.
    + cbn [set_picker subConns state picker resolverErr hashring].
      split; [destruct Hsync3; split; assumption|].
      split; [exact Hdom3|]. split.
      { intros a Ha Hold. rewrite (Hkeep3 a Ha), <- Hsub1. apply Hkeep2.
        now rewrite Hsub1. }
      split; [exact Hscs'|]. split; [exact Hgone|].
      rewrite Hstate in Htf.
      destruct (decide (state b = TransientFailure)) as [_|Hbad]; [|contradiction].
      rewrite ?HconnErr, ?Hresolver. auto.
  - rewrite Hconfig. eexists _, hr3, scs, gone. split.
    + rewrite Hstate in Hok.
      destruct (decide (state b = TransientFailure)) as [Hbad|_]; [contradiction|].
      cbn [state set_picker picker]. rewrite Hstate, <- app_assoc. reflexivity.
    + cbn [set_picker subConns state picker resolverErr hashring].
      split; [destruct Hsync3; split; assumption|].
      split; [exact Hdom3|]. split.
      { intros a Ha Hold. rewrite (Hkeep3 a Ha), <- Hsub1. apply Hkeep2.
        now rewrite Hsub1. }
      split; [exact Hscs'|]. split; [exact Hgone|].
      rewrite Hstate in Hok.
      destruct (decide (state b = TransientFailure)) as [Hbad|_]; [contradiction|].
      auto.
Qed.

(** *** The picker on the balancer's ring *)

(** [intn] away from the one draw that [-out] leaves negative: the absolute
    value of the draw read as an [int], modulo [n]. *)
Lemma intn_abs (sum64 : Z) (n : nat) :
  0 ≤ sum64 < 2 ^ 64 → sum64 ≠ 2 ^ 63 → (0 < n)%nat →
  intn sum64 n = Done (Z.abs (int_of_uint64 sum64) mod Z.of_nat n) ∧
  0 ≤ Z.abs (int_of_uint64 sum64) mod Z.of_nat n < Z.of_nat n.
Proof.
  intros Hrange Hne Hn. unfold intn.
  destruct (Nat.eqb_spec n 0) as [->|_]; [lia|].
  split; [|apply Z.mod_pos_bound; lia].
  f_equal. unfold int_of_uint64, neg_int.
  destruct (Z.ltb_spec sum64 (2 ^ 63)) as [Hlow|Hhigh].
  - destruct (Z.ltb_spec sum64 0) as [|_]; [lia|].
    rewrite Z.abs_eq by lia. apply Z.rem_mod_nonneg; lia.
  - destruct (Z.ltb_spec (sum64 - 2 ^ 64) 0) as [_|]; [|lia].
    rewrite Z.mod_small by lia.
    rewrite Z.abs_neq by lia.
    replace (- (sum64 - 2 ^ 64) + 2 ^ 63 - 2 ^ 63) with (- (sum64 - 2 ^ 64)) by lia.
    apply Z.rem_mod_nonneg; lia.
Qed.

(** [Pick] on a ring in agreement with the balancer: for a spread between 1
    and the number of backends (and, above 1, a random draw other than
    2^63), it returns nil and the sub-connection of a backend the balancer
    holds, one of the [spread] members [FindN] finds for the key; with
    spread 1 the first of them, whatever the draw. *)
Theorem Pick_current_backend (b : ringBalancer) (n : nat) (hr : Ring) (spread : nat)
    (key : list byte) (sum64 : Z) :
  synced b n hr →
  (1 ≤ spread ≤ size (subConns b))%nat →
  ((1 < spread)%nat → 0 ≤ sum64 < 2 ^ 64 ∧ sum64 ≠ 2 ^ 63) →
  ∃ (addr : Address) (sc : SubConn) (index : nat),
    Pick hr spread {| Ctx_Value_CtxKey := Some (ctxBytes key) |} sum64 =
      Done ({| PickResult_SubConn := Some sc |}, None) ∧
    subConns b !! addr = Some sc ∧
    (FindN hr key spread).1 !! index = Some (memberOf addr sc) ∧
    (index < spread)%nat ∧
    (spread = 1%nat → index = 0%nat).
Proof.
  intros Hsync Hspread Hdraw.
  pose proof (reachableWithoutTies_tieFree _ (sy_ties _ _ _ Hsync)) as Htf.
  destruct (tieFree_FindN hr key spread Htf) as [Hfind Hlen];
    [rewrite (sy_size _ _ _ Hsync); lia|].
  assert (∃ index : nat,
            (if (1 <? spread)%nat then intn sum64 spread else Done 0) =
              Done (Z.of_nat index) ∧
            (index < spread)%nat ∧ (spread = 1%nat → index = 0%nat)) as (index & Hidx & Hlt & H1).
  { destruct (Nat.ltb_spec 1 spread) as [Hgt|Hle].
    - destruct (Hdraw Hgt) as [Hrange Hne].
      destruct (intn_abs sum64 spread Hrange Hne) as [Hrun Hbound]; [lia|].
      exists (Z.to_nat (Z.abs (int_of_uint64 sum64) mod Z.of_nat spread)).
      rewrite Z2Nat.id by lia. split; [exact Hrun|]. split; lia.
    - exists 0%nat. split; [reflexivity|]. split; [lia | auto]. }
  destruct (lookup_lt_is_Some_2 (FindN hr key spread).1 index) as [chosen Hchosen];
    [lia|].
  assert (chosen ∈ (FindN hr key spread).1) as Hin
    by (eapply list_elem_of_lookup_2, Hchosen).
  destruct (FindN_stored hr key spread chosen (sy_ties _ _ _ Hsync) Hin)
    as (rec & Hrec & Hmem).
  destruct (sy_nodes _ _ _ Hsync _ _ Hrec) as (addr & sc & Hsc & _ & Hm).
  assert (chosen = memberOf addr sc) as -> by congruence.
  exists addr, sc, index. split; [|auto].
  unfold Pick. cbn [Ctx_Value_CtxKey].
  rewrite Hfind in Hchosen |- *. cbn [fst] in Hchosen. cbv beta iota.
  rewrite Hidx. destruct (Z.ltb_spec (Z.of_nat index) 0) as [|_]; [lia|].
  rewrite Nat2Z.id, Hchosen. reflexivity.
Qed.

(** *** The builder and the configuration parser *)

Definition BalancerName : string := "consistent-hashring".
Definition DefaultReplicationFactor : Z := 100.
Definition DefaultSpread : nat := 1.

(** [builder]: the hash function and the configuration parsed last. *)
Record builder : Type := {
  builder_hashfn : HashFunc;
  builder_config : BalancerConfig }.

(** [NewBuilder]: the configuration starts as the zero value. *)
Definition NewBuilder (hashfn : HashFunc) : builder :=
  {| builder_hashfn := hashfn;
     builder_config := {| ReplicationFactor := 0; Spread := 0 |} |}.

Definition Name (b : builder) : string := BalancerName.

(** [json.Unmarshal(js, &lbCfg)]: the configuration as the decoder leaves it
    and the decoder's error. *)
Variable json_Unmarshal : list byte → BalancerConfig → BalancerConfig * option error.

(** [ParseConfig]. *)
Definition ParseConfig (b : builder) (js : list byte)
    : builder * option BalancerConfig * option error :=
  let lbCfg := {| ReplicationFactor := 0; Spread := 0 |} in
  match json_Unmarshal js lbCfg with
  | (_, Some err) =>
      (b, None,
       Some (fmt_Errorf "wrr: unable to unmarshal LB policy config: %s, error: %w"
               [ArgString (string_of_list_byte js)] (Some err)))
  | (lbCfg, None) =>
      let lbCfg :=
        if ReplicationFactor lbCfg =? 0
        then {| ReplicationFactor := DefaultReplicationFactor; Spread := Spread lbCfg |}
        else lbCfg in
      let lbCfg :=
        if (Spread lbCfg =? 0)%nat
        then {| ReplicationFactor := ReplicationFactor lbCfg; Spread := DefaultSpread |}
        else lbCfg in
      ({| builder_hashfn := builder_hashfn b; builder_config := lbCfg |}, Some lbCfg, None)
  end.

(** [ParseConfig] never hands out a zero. When the decoder fails, it returns
    no configuration and an error that wraps the decoder's, and the builder
    keeps the configuration it had. Otherwise it returns nil and the decoded
    configuration with 100 in place of a replication factor of 0 and 1 in
    place of a spread of 0, and stores it in the builder: the replication
    factor (a [uint16], so not negative as decoded) and the spread it
    returns are 1 or more. Hence an update that
    carries such a configuration never makes [UpdateClientConnState] panic
    on a balancer made by [Build] and changed by the callbacks. *)
Theorem ParseConfig_defaults (bld : builder) (js : list byte) :
  0 ≤ ReplicationFactor (json_Unmarshal js {| ReplicationFactor := 0; Spread := 0 |}).1 →
  let raw := (json_Unmarshal js {| ReplicationFactor := 0; Spread := 0 |}).1 in
  match ParseConfig bld js with
  | (bld', Some cfg, None) =>
      (json_Unmarshal js {| ReplicationFactor := 0; Spread := 0 |}).2 = None ∧
      builder_config bld' = cfg ∧ builder_hashfn bld' = builder_hashfn bld ∧
      ReplicationFactor cfg =
        (if ReplicationFactor raw =? 0 then 100 else ReplicationFactor raw) ∧
      Spread cfg = (if (Spread raw =? 0)%nat then 1%nat else Spread raw) ∧
      1 ≤ ReplicationFactor cfg ∧ (1 ≤ Spread cfg)%nat ∧
      ∀ (b : ringBalancer) (addrs : list Address),
        reachableBalancer b →
        UpdateClientConnState NewSubConn RecordTransition b
          {| Addresses := addrs; ClientConnState_BalancerConfig := Some cfg |} ≠ Panicked
  | (bld', None, Some e) =>
      bld' = bld ∧
      ∃ e0 : error,
        (json_Unmarshal js {| ReplicationFactor := 0; Spread := 0 |}).2 = Some e0 ∧
        e = fmt_Errorf "wrr: unable to unmarshal LB policy config: %s, error: %w"
              [ArgString (string_of_list_byte js)] (Some e0)
  | _ => False
  end.
Proof.
  intros Hrange raw. subst raw. unfold ParseConfig.
  destruct (json_Unmarshal js _) as [cfg [e0|]] eqn:Hjs; cbn [fst snd] in *.
  - split; [reflexivity|]. exists e0. auto.
  - assert (1 ≤ (if ReplicationFactor cfg =? 0 then 100 else ReplicationFactor cfg)) as HR.
    { destruct (Z.eqb_spec (ReplicationFactor cfg) 0); lia. }
    assert (1 ≤ (if (Spread cfg =? 0)%nat then 1 else Spread cfg))%nat as HS.
    { destruct (Nat.eqb_spec (Spread cfg) 0); lia. }
    destruct (Z.eqb_spec (ReplicationFactor cfg) 0) as [Hz|Hnz];
      destruct (Nat.eqb_spec (Spread cfg) 0) as [Hsz|Hsnz];
      cbn [Spread ReplicationFactor builder_config builder_hashfn];
      rewrite ?(proj2 (Nat.eqb_eq _ _) Hsz), ?(proj2 (Nat.eqb_neq _ _) Hsnz);
      cbn [Spread ReplicationFactor builder_config builder_hashfn];
      (repeat split; try reflexivity; try assumption; try (unfold DefaultReplicationFactor; lia);
       try (unfold DefaultSpread; lia));
      intros b addrs Hb Hpanic;
      apply (proj1 (UpdateClientConnState_step b _ (reachableBalancer_inv b Hb))) in Hpanic;
      destruct Hpanic as (c & Hc & Hlt); cbn in Hc; injection Hc as <-;
      cbn in Hlt; unfold DefaultReplicationFactor in *; lia.
Qed.

(** *** Updates that leave balancer and ring apart *)

Lemma subConns_nonempty (b : ringBalancer) (a : Address) :
  is_Some (subConns b !! a) → (1 ≤ size (subConns b))%nat.
Proof.
  intros [sc Ha]. destruct (size (subConns b)) as [|k] eqn:Hsize; [|lia].
  apply map_size_empty_inv in Hsize. rewrite Hsize, lookup_empty in Ha. discriminate.
Qed.

(** A change of the replication factor empties the ring. When an update
    carries a configuration with another replication factor (1 or more)
    and the addresses the balancer already knows, the configuration step
    puts a new, empty ring in place, no backend is new, so none is added to
    it, and none is gone: the call returns nil and publishes a picker on a
    ring without members, while the address map still holds every backend.
    [Pick] then returns [ErrNotEnoughMembers] for every key and every spread
    of 1 or more, and the same update once more changes nothing. *)
Theorem UpdateClientConnState_new_factor (b : ringBalancer) (s : ClientConnState)
    (n : nat) (hr : Ring) (c c' : BalancerConfig) :
  hashring b = Some (n, hr) →
  config b = Some c →
  ClientConnState_BalancerConfig s = Some c' →
  ReplicationFactor c' ≠ ReplicationFactor c →
  1 ≤ ReplicationFactor c' →
  Addresses s ≠ [] →
  (∀ a : Address, a ∈ Addresses s ↔ is_Some (subConns b !! a)) →
  let hr' : Ring :=
    {| hashfn := hasher b; replicationFactor := ReplicationFactor c';
       nodes := ∅; virtualNodes := [] |} in
  let p :=
    if decide (state b = TransientFailure)
    then ErrPicker (errors_Join [connErr b; None])
    else ringPicker (S n) (Spread c') in
  let b' :=
    set_picker
      (set_config (set_hashring (set_resolverErr b None) (Some (S n, hr'))) (Some c')) p in
  UpdateClientConnState NewSubConn RecordTransition b s =
    Done (b', [UpdateState (state b) p], None) ∧
  subConns b' = subConns b ∧
  (1 ≤ size (subConns b'))%nat ∧
  (∀ (key : list byte) (spread : nat) (sum64 : Z),
      (1 ≤ spread)%nat →
      Pick hr' spread {| Ctx_Value_CtxKey := Some (ctxBytes key) |} sum64 =
        Done ({| PickResult_SubConn := None |}, Some ErrNotEnoughMembers)) ∧
  UpdateClientConnState NewSubConn RecordTransition b' s =
    Done (b', [UpdateState (state b) p], None).
Proof.
  intros Hring Hcfg Hs Hne HR Haddrs Hdom hr' p b'.
  assert (updateConfig (set_resolverErr b None) s =
            Done (set_config (set_hashring (set_resolverErr b None) (Some (S n, hr')))
                    (Some c'))) as Hstep.
  { unfold updateConfig, New. rewrite Hs. cbn [set_resolverErr config hashring hasher].
    rewrite Hcfg, Hring.
    destruct (Z.eqb_spec (ReplicationFactor c') (ReplicationFactor c)) as [|_];
      [contradiction|]. cbn [negb].
    destruct (Z.ltb_spec (ReplicationFactor c') 1) as [|_]; [lia|]. reflexivity. }
  split; [|split; [reflexivity|split; [|split]]].
  - unfold UpdateClientConnState. rewrite Hstep.
    cbn [set_config set_hashring set_resolverErr hashring].
    rewrite addBackends_present by (intros a Ha; now apply Hdom).
    cbn [hashring set_config set_hashring set_resolverErr]. rewrite removeBackends_kept.
    + destruct (Addresses s) as [|a0 rest]; [contradiction|]. cbn [length Nat.eqb].
      cbn [state config set_config set_hashring set_resolverErr]. subst b' p.
      destruct (decide (state b = TransientFailure)); reflexivity.
    + intros a Ha. apply list_elem_of_fmap in Ha as ([a' sc] & -> & Hin).
      apply elem_of_map_to_list in Hin. cbn [fst subConns] in *. split.
      * apply elem_of_list_to_set. apply Hdom. eauto.
      * eauto.
  - destruct (Addresses s) as [|a0 rest] eqn:Ha0; [contradiction|].
    apply (subConns_nonempty b' a0). apply Hdom. now left.
  - intros key spread sum64 Hspread. unfold Pick, FindN.
    cbn [Ctx_Value_CtxKey hr' nodes]. rewrite map_size_empty.
    destruct (Nat.ltb_spec 0 spread) as [_|]; [reflexivity | lia].
  - assert (∀ c'' : BalancerConfig,
              ClientConnState_BalancerConfig s = Some c'' →
              ReplicationFactor c'' = ReplicationFactor c') as Hsame.
    { intros c'' Hc''. rewrite Hs in Hc''. now injection Hc'' as <-. }
    pose proof (UpdateClientConnState_same b' s (S n) hr' c' eq_refl eq_refl Hsame
                  Haddrs Hdom) as Hrun.
    cbn zeta in Hrun. rewrite Hrun. subst b' p.
    cbn [state set_picker set_config set_hashring set_resolverErr connErr].
    destruct (decide (state b = TransientFailure)); reflexivity.
Qed.

(** Two addresses with one key. From a balancer in agreement with its ring,
    an update whose first address is new but has the key
    ([ServerName + Addr]) of a backend already there fails: the
    sub-connection is made, stored and asked to connect, [Add] refuses the
    key, and the call returns "couldn't add to hashring" at once. Nothing is
    published, the ring is as it was, and the address map now holds one
    backend more than the ring has members. *)
Theorem UpdateClientConnState_key_collision (b : ringBalancer) (s : ClientConnState)
    (n : nat) (hr : Ring) (a a0 : Address) (sc0 sc : SubConn) (c1 : ClientConn)
    (rest : list Address) :
  synced b n hr →
  (∀ c' : BalancerConfig,
      ClientConnState_BalancerConfig s = Some c' →
      ∃ c : BalancerConfig, config b = Some c ∧ ReplicationFactor c' = ReplicationFactor c) →
  Addresses s = a :: rest →
  subConns b !! a = None →
  subConns b !! a0 = Some sc0 →
  addrKey a0 = addrKey a →
  NewSubConn (cc b) a = (c1, inl sc) →
  ∃ b' : ringBalancer,
    UpdateClientConnState NewSubConn RecordTransition b s =
      Done (b', [Connect sc], Some (fmt_Errorf "couldn't add to hashring" [] None)) ∧
    subConns b' = <[a := sc]> (subConns b) ∧
    scStates b' = <[sc := Idle]> (scStates b) ∧
    hashring b' = Some (n, hr) ∧
    picker b' = picker b ∧ state b' = state b ∧
    size (subConns b') = S (size (nodes hr)).
Proof.
  intros Hsync Hcfg Haddrs Hnew Hold Hkey Hsc.
  assert (updateConfig (set_resolverErr b None) s = Done (set_resolverErr b None)) as Hstep.
  { unfold updateConfig. destruct (ClientConnState_BalancerConfig s) as [c'|]; [|reflexivity].
    destruct (Hcfg c' eq_refl) as (c & Hc & HR).
    cbn [set_resolverErr config]. rewrite Hc, HR, Z.eqb_refl. reflexivity. }
  destruct (sy_present _ _ _ Hsync _ _ Hold) as (rec & Hrec & _).
  unfold UpdateClientConnState. rewrite Hstep.
  cbn [set_resolverErr hashring]. rewrite (sy_ring _ _ _ Hsync), Haddrs.
  cbn [addBackends set_resolverErr subConns cc]. rewrite Hnew, Hsc.
  change {| sc_SubConn := sc; key := ServerName a +:+ Addr a |} with (memberOf a sc).
  rewrite Add_present by (change (Key (memberOf a sc)) with (addrKey a);
                          rewrite <- Hkey; eauto).
  eexists. split; [reflexivity|].
  cbn [set_hashring set_csEvltr set_scStates set_subConns set_cc subConns scStates
       hashring picker state].
  repeat split; try reflexivity.
  rewrite (map_size_insert_None _ _ _ Hnew). now rewrite (sy_size _ _ _ Hsync).
Qed.

Lemma addBackends_failing (addrs : list Address) :
  (∀ (c0 : ClientConn) (a : Address),
      ∃ (c1 : ClientConn) (e : error), NewSubConn c0 a = (c1, inr e)) →
  ∀ (b : ringBalancer) (n : nat) (hr : Ring) (calls : list call),
    ∃ c1 : ClientConn,
      addBackends NewSubConn RecordTransition b n hr addrs calls =
        (set_cc b c1, calls, None).
Proof.
  intros Hfail. induction addrs as [|addr addrs IH]; intros b n hr calls.
  - exists (cc b). cbn. now destruct b.
  - cbn [addBackends]. destruct (subConns b !! addr) as [sc0|]; [apply IH|].
    destruct (Hfail (cc b) addr) as (c1 & e & ->).
    destruct (IH (set_cc b c1) n hr calls) as (c2 & ->). now exists c2.
Qed.

(** A sub-connection that cannot be made is passed over. When [NewSubConn]
    fails for every address it is asked for, an update that names every
    known backend, and any number of new ones, still returns nil: no backend
    is stored for the new addresses, nothing is asked to connect, the ring
    and both maps stay as they are, and the one state published carries the
    picker on the ring as it was. Only the state of the client connection
    moves on. *)
Theorem UpdateClientConnState_NewSubConn_fails (b : ringBalancer) (s : ClientConnState)
    (n : nat) (hr : Ring) (c : BalancerConfig) :
  hashring b = Some (n, hr) →
  config b = Some c →
  (∀ c' : BalancerConfig,
      ClientConnState_BalancerConfig s = Some c' →
      ReplicationFactor c' = ReplicationFactor c) →
  Addresses s ≠ [] →
  (∀ a : Address, is_Some (subConns b !! a) → a ∈ Addresses s) →
  (∀ (c0 : ClientConn) (a : Address),
      ∃ (c1 : ClientConn) (e : error), NewSubConn c0 a = (c1, inr e)) →
  let p :=
    if decide (state b = TransientFailure)
    then ErrPicker (errors_Join [connErr b; None])
    else ringPicker n (Spread c) in
  ∃ c1 : ClientConn,
    UpdateClientConnState NewSubConn RecordTransition b s =
      Done (set_picker (set_cc (set_resolverErr b None) c1) p,
            [UpdateState (state b) p], None) ∧
    ∀ a : Address,
      a ∈ Addresses s → subConns b !! a = None →
      subConns (set_picker (set_cc (set_resolverErr b None) c1) p) !! a = None.
Proof.
  intros Hring Hcfg Hsame Hne Hknown Hfail p. subst p.
  unfold UpdateClientConnState.
  assert (updateConfig (set_resolverErr b None) s = Done (set_resolverErr b None)) as ->.
  { unfold updateConfig. destruct (ClientConnState_BalancerConfig s) as [c'|]; [|reflexivity].
    cbn [set_resolverErr config]. rewrite Hcfg, (Hsame c' eq_refl), Z.eqb_refl.
    reflexivity. }
  cbn [set_resolverErr hashring]. rewrite Hring.
  destruct (addBackends_failing (Addresses s) Hfail (set_resolverErr b None) n hr [])
    as (c1 & ->).
  exists c1. cbn [hashring set_cc set_resolverErr]. rewrite Hring.
  rewrite removeBackends_kept.
  - destruct (Addresses s) as [|a0 rest]; [contradiction|]. cbn [length Nat.eqb].
    cbn [state set_cc set_resolverErr].
    destruct (decide (state b = TransientFailure)) as [Htf|Hok].
    + split; [reflexivity | auto].
    + cbn [config set_cc set_resolverErr]. rewrite Hcfg. split; [reflexivity | auto].
  - intros a Ha. apply list_elem_of_fmap in Ha as ([a' sc] & -> & Hin).
    apply elem_of_map_to_list in Hin. cbn [fst subConns] in *. split.
    + apply elem_of_list_to_set. apply Hknown. eauto.
    + eauto.
Qed.

(** *** What no callback writes *)

(** One callback. *)
Inductive callback (b : ringBalancer) : ringBalancer → Prop :=
| callback_ResolverError (err : option error) :
    callback b (ResolverError b err).1
| callback_UpdateSubConnState (sc : SubConn) (st : SubConnState) :
    callback b (UpdateSubConnState RecordTransition b sc st).1
| callback_UpdateClientConnState (s : ClientConnState) (b' : ringBalancer)
    (calls : list call) (err : option error) :
    UpdateClientConnState NewSubConn RecordTransition b s = Done (b', calls, err) →
    callback b b'.

Lemma ResolverError_errors (b : ringBalancer) (err : option error) :
  connErr (ResolverError b err).1 = connErr b ∧
  hasher (ResolverError b err).1 = hasher b.
Proof.
  unfold ResolverError. cbn [set_resolverErr subConns].
  destruct (size (subConns b) =? 0)%nat; cbn;
    match goal with |- context [decide ?P] => destruct (decide P) end;
    cbn; split; reflexivity.
Qed.

Lemma updateConfig_hasher (b b1 : ringBalancer) (s : ClientConnState) :
  updateConfig b s = Done b1 → hasher b1 = hasher b.
Proof.
  unfold updateConfig.
  destruct (ClientConnState_BalancerConfig s) as [c|]; [|now intros [= <-]].
  destruct (match config b with Some _ => _ | None => _ end); [|now intros [= <-]].
  destruct (New _ _) as [[hr|] e]; [|discriminate].
  now intros [= <-].
Qed.

Lemma UpdateClientConnState_errors (b b' : ringBalancer) (s : ClientConnState)
    (calls : list call) (err : option error) :
  balancerInv b →
  UpdateClientConnState NewSubConn RecordTransition b s = Done (b', calls, err) →
  connErr b' = connErr b ∧ hasher b' = hasher b.
Proof.
  intros Hinv.
  assert (balancerInv (set_resolverErr b None)) as Hinv0.
  { destruct Hinv as [Hc Hr]. split; [exact Hc | exact Hr]. }
  unfold UpdateClientConnState.
  destruct (updateConfig (set_resolverErr b None) s) as [b1|] eqn:Hcfg; [|discriminate].
  destruct (updateConfig_frame _ _ _ Hcfg) as (_ & _ & _ & Hce1 & _).
  pose proof (updateConfig_hasher _ _ _ Hcfg) as Hh1.
  cbn [set_resolverErr connErr hasher] in Hce1, Hh1.
  pose proof (updateConfig_inv _ _ _ Hinv0 Hcfg) as [Hc1 Hr1].
  destruct (hashring b1) as [[n hr]|] eqn:Hring.
  2:{ intros [= <- _ _]. cbn. auto. }
  destruct (Hr1 n hr eq_refl) as [Hreach _].
  destruct (addBackends_frame (Addresses s) b1 n hr [] Hring Hreach)
    as (b2 & calls2 & err2 & hr2 & Hadd & Hring2 & Hreach2 & _ & _ & _ & _ & Hce2 & Hh2 &
        _ & Herr2).
  rewrite Hadd.
  destruct Herr2 as [->| ->]; [|intros [= <- _ _]; split; congruence].
  rewrite Hring2.
  destruct (map_to_list_kvs (subConns b2)) as [Hnd Hkv].
  destruct (removeBackends_frame (map_to_list (subConns b2)) (list_to_set (Addresses s))
              b2 n hr2 calls2 Hnd Hkv Hring2 Hreach2)
    as (b3 & calls3 & err3 & hr3 & Hrem & _ & _ & Hsame3 & _ & Herr3).
  rewrite Hrem.
  destruct Hsame3 as (_ & _ & _ & _ & _ & _ & Hce3 & _ & Hh3).
  destruct Herr3 as [->| ->]; [|intros [= <- _ _]; split; congruence].
  destruct (length (Addresses s) =? 0)%nat.
  { destruct (ResolverError b3 _) as [b4 calls4] eqn:HRE.
    intros [= <- _ _].
    destruct (ResolverError_errors b3 (Some (errors_New "produced zero addresses")))
      as [Hce4 Hh4].
    rewrite HRE in Hce4, Hh4. cbn in Hce4, Hh4. split; congruence. }
  destruct (decide (state b3 = TransientFailure)).
  { intros [= <- _ _]. cbn. split; congruence. }
  destruct (config b3); [|discriminate].
  intros [= <- _ _]. cbn. split; congruence.
Qed.

(** The connection error has one writer. Of the callbacks, only
    [UpdateSubConnState] for a known sub-connection that reports
    TRANSIENT_FAILURE writes [connErr], and it stores the error of the report
    (nil included); no callback clears it when the aggregate state leaves
    TRANSIENT_FAILURE, so that an error picker made later still joins it. No
    callback changes the hash function. *)
Theorem connErr_one_writer (b b' : ringBalancer) :
  reachableBalancer b →
  callback b b' →
  hasher b' = hasher b ∧
  (connErr b' = connErr b ∨
   ∃ (sc : SubConn) (st : SubConnState),
     b' = (UpdateSubConnState RecordTransition b sc st).1 ∧
     is_Some (scStates b !! sc) ∧
     ConnectivityState st = TransientFailure ∧
     connErr b' = ConnectionError st).
Proof.
  intros Hr Hcall. destruct Hcall as [err | sc st | s b' calls err Hrun].
  - destruct (ResolverError_errors b err) as [Hce Hh]. auto.
  - unfold UpdateSubConnState.
    destruct (scStates b !! sc) as [oldS|] eqn:Hold; [|cbn; auto].
    destruct (ConnectivityState st) eqn:Hst.
    + destruct oldS; cbn; try (destruct (RecordTransition _ _ _)); cbn; auto.
    + destruct oldS; cbn; try (destruct (RecordTransition _ _ _)); cbn; auto.
    + destruct oldS; cbn; try (destruct (RecordTransition _ _ _)); cbn; auto.
    + split.
      * destruct oldS; cbn; destruct (RecordTransition _ _ _); reflexivity.
      * right. exists sc, st. unfold UpdateSubConnState. rewrite Hold, Hst.
        split; [reflexivity|]. split; [eauto|]. split; [reflexivity|].
        destruct oldS; cbn; destruct (RecordTransition _ _ _); reflexivity.
    + destruct oldS; cbn; try (destruct (RecordTransition _ _ _)); cbn; auto.
  - destruct (UpdateClientConnState_errors b b' s calls err
                (reachableBalancer_inv b Hr) Hrun) as [Hce Hh]. auto.
Qed.

End BalancerProperties.

(** *** Concrete runs *)

(** The client connection of the package's tests: [NewSubConn] makes a new
    sub-connection each time and never fails. Its state is the number of
    sub-connections made. *)
Definition fakeClientConn : Type := nat.

Definition fake_NewSubConn (c : fakeClientConn) (addr : Address)
    : fakeClientConn * (SubConn + error) :=
  (S c, inl c).

(** gRPC's [balancer.ConnectivityStateEvaluator]: four [uint64] counters.
    [RecordTransition] takes one from the old state's counter, adds one to
    the new state's, and gives the aggregate: READY if a sub-connection is
    ready, else CONNECTING if one is connecting, else IDLE if one is idle,
    else TRANSIENT_FAILURE. *)
Record ConnectivityStateEvaluator : Type := {
  numReady : Z;
  numConnecting : Z;
  numTransientFailure : Z;
  numIdle : Z }.

Definition bump (e : ConnectivityStateEvaluator) (s : State) (updateVal : Z)
    : ConnectivityStateEvaluator :=
  let add x := (x + updateVal) mod 2 ^ 64 in
  match s with
  | Ready =>
      {| numReady := add (numReady e); numConnecting := numConnecting e;
         numTransientFailure := numTransientFailure e; numIdle := numIdle e |}
  | Connecting =>
      {| numReady := numReady e; numConnecting := add (numConnecting e);
         numTransientFailure := numTransientFailure e; numIdle := numIdle e |}
  | TransientFailure =>
      {| numReady := numReady e; numConnecting := numConnecting e;
         numTransientFailure := add (numTransientFailure e); numIdle := numIdle e |}
  | Idle =>
      {| numReady := numReady e; numConnecting := numConnecting e;
         numTransientFailure := numTransientFailure e; numIdle := add (numIdle e) |}
  | Shutdown => e
  end.

Definition CurrentState (e : ConnectivityStateEvaluator) : State :=
  if 0 <? numReady e then Ready
  else if 0 <? numConnecting e then Connecting
  else if 0 <? numIdle e then Idle
  else TransientFailure.

Definition grpc_RecordTransition (e : ConnectivityStateEvaluator) (oldState newState : State)
    : ConnectivityStateEvaluator * State :=
  let e := bump (bump e oldState (2 ^ 64 - 1)) newState 1 in
  (e, CurrentState e).

Definition newEvaluator : ConnectivityStateEvaluator :=
  {| numReady := 0; numConnecting := 0; numTransientFailure := 0; numIdle := 0 |}.

Abbreviation fakeBalancer := (@ringBalancer fakeClientConn ConnectivityStateEvaluator).

Definition t1 : Address := {| ServerName := "t"; Addr := "1" |}.

Definition newBalancer : fakeBalancer := Build fnv1a 0%nat newEvaluator.

(** The balancer after it has been configured with replication factor 2 and
    spread 1 and has received the single address [t1]. *)
Definition oneBackend : fakeBalancer :=
  match UpdateClientConnState fake_NewSubConn grpc_RecordTransition newBalancer
          {| Addresses := [t1];
             ClientConnState_BalancerConfig :=
               Some {| ReplicationFactor := 2; Spread := 1 |} |} with
  | Done (b, _, _) => b
  | Panicked => newBalancer
  end.

Definition ringOf (b : fakeBalancer) : Ring :=
  match hashring b with
  | Some (_, hr) => hr
  | None => {| hashfn := hasher b; replicationFactor := 0; nodes := ∅; virtualNodes := [] |}
  end.

Example oneBackend_state :
  map_to_list (subConns oneBackend) = [(t1, 0%nat)] ∧
  (map_to_list (nodes (ringOf oneBackend))).*1 = ["t1"%string] ∧
  config oneBackend = Some {| ReplicationFactor := 2; Spread := 1 |} ∧
  fst <$> hashring oneBackend = Some 0%nat ∧
  state oneBackend = Connecting ∧
  picker oneBackend = ringPicker 0 1.
Proof. vm_compute. repeat split; reflexivity. Qed.

Lemma oneBackend_hashring : hashring oneBackend = Some (0%nat, ringOf oneBackend).
Proof.
  pose proof oneBackend_state as (_ & _ & _ & Hid & _).
  unfold ringOf. destruct (hashring oneBackend) as [[n hr]|]; [|discriminate].
  now injection Hid as ->.
Qed.

Lemma UpdateSubConnState_suppressed_witness :
  let b : fakeBalancer :=
    set_scStates oneBackend (<[0%nat := TransientFailure]> (scStates oneBackend)) in
  let st := {| ConnectivityState := Idle; ConnectionError := None |} in
  let b' := (UpdateSubConnState grpc_RecordTransition b 0%nat st).1 in
  let calls := (UpdateSubConnState grpc_RecordTransition b 0%nat st).2 in
  b' = b ∧
  scStates b' !! 0%nat = Some TransientFailure ∧
  csEvltr b' = csEvltr b ∧
  published calls = [] ∧
  calls = [Connect 0%nat].
Proof.
  apply (UpdateSubConnState_suppressed grpc_RecordTransition
           (set_scStates oneBackend (<[0%nat := TransientFailure]> (scStates oneBackend)))
           0%nat {| ConnectivityState := Idle; ConnectionError := None |}).
  - vm_compute. reflexivity.
  - now left.
Defined.

(** An update without addresses and without a new configuration, after
    [oneBackend]: the backend is removed and TRANSIENT_FAILURE is published. *)
Definition noAddresses : ClientConnState :=
  {| Addresses := []; ClientConnState_BalancerConfig := None |}.


(** The run of the witness takes the first branch: scenario S3 after a
    backend was known. *)
Example zero_addresses_run :
  match UpdateClientConnState fake_NewSubConn grpc_RecordTransition oneBackend
          noAddresses with
  | Done (b', calls, err) =>
      err = Some ErrBadResolverState ∧
      calls =
        [RemoveSubConn 0%nat;
         UpdateState TransientFailure
           (ErrPicker (Some (joinError [errors_New "produced zero addresses"])))] ∧
      size (subConns b') = 0%nat ∧
      size (nodes (ringOf b')) = 0%nat
  | Panicked => False
  end.
Proof. vm_compute. repeat split; reflexivity. Qed.




(** *** The picker *)

(** Away from one value of the random draw, [intn(n)] is in [[0, n)]. *)
Lemma intn_range (sum64 : Z) (n : nat) :
  0 ≤ sum64 < 2 ^ 64 → sum64 ≠ 2 ^ 63 → (0 < n)%nat →
  ∃ k : Z, intn sum64 n = Done k ∧ 0 ≤ k < Z.of_nat n.
Proof.
  intros Hrange Hne Hn. unfold intn.
  destruct (Nat.eqb_spec n 0) as [->|_]; [lia|].
  eexists. split; [reflexivity|].
  apply Z.rem_bound_pos; [|lia].
  unfold int_of_uint64, neg_int.
  destruct (Z.ltb_spec sum64 (2 ^ 63)) as [Hlow|Hhigh].
  - destruct (Z.ltb_spec sum64 0); lia.
  - destruct (Z.ltb_spec (sum64 - 2 ^ 64) 0) as [_|]; [|lia].
    rewrite Z.mod_small; lia.
Qed.

(** What [Pick] returns when it returns: the error of [FindN] unchanged and
    no sub-connection; else the sub-connection of member 0 for spread 1 and
    of member [intn(spread)] for a larger spread. *)
Lemma Pick_returns (hr : Ring) (spread : nat) (key : list byte) (sum64 : Z)
    (res : PickResult) (err : option error) :
  Pick hr spread {| Ctx_Value_CtxKey := Some (ctxBytes key) |} sum64 = Done (res, err) →
  match FindN hr key spread with
  | (_, Some e) => err = Some e ∧ res = {| PickResult_SubConn := None |}
  | (members, None) =>
      err = None ∧
      ∃ (index : Z) (chosen : subConnMember),
        (if (1 <? spread)%nat then intn sum64 spread = Done index else index = 0) ∧
        0 ≤ index ∧
        members !! Z.to_nat index = Some chosen ∧
        res = {| PickResult_SubConn := Some (sc_SubConn chosen) |}
  end.
Proof.
  unfold Pick. cbn [Ctx_Value_CtxKey].
  destruct (FindN hr key spread) as [members [e|]].
  { intros Heq. injection Heq as <- <-. now split. }
  destruct (1 <? spread)%nat.
  - destruct (intn sum64 spread) as [index|]; [|discriminate].
    destruct (Z.ltb_spec index 0); [discriminate|].
    destruct (members !! Z.to_nat index) as [chosen|] eqn:Hm; [|discriminate].
    intros Heq. injection Heq as <- <-. split; [reflexivity|].
    exists index, chosen. auto.
  - cbn. destruct (members !! Z.to_nat 0) as [chosen|] eqn:Hm; [|discriminate].
    intros Heq. injection Heq as <- <-. split; [reflexivity|].
    exists 0, chosen. cbn. auto with lia.
Qed.

(** The ring of the picker's test: members "1", "2" and "3", replication
    factor 100. *)
Definition threeBackends : Ring :=
  addAll {| hashfn := fnv1a; replicationFactor := 100; nodes := ∅; virtualNodes := [] |}
    [ {| sc_SubConn := 1%nat; key := "1" |};
      {| sc_SubConn := 2%nat; key := "2" |};
      {| sc_SubConn := 3%nat; key := "3" |} ].

Definition testCall : PickInfo :=
  {| Ctx_Value_CtxKey := Some (ctxBytes (list_byte_of_string "test")) |}.

Example Pick_spread_1 :
  ∃ sc : SubConn,
    Pick threeBackends 1 testCall 12345 =
      Done ({| PickResult_SubConn := Some sc |}, None) ∧
    (sc_SubConn <$> (FindN threeBackends (list_byte_of_string "test") 1).1) = [sc].
Proof. vm_compute. eexists. split; reflexivity. Qed.

(** C6, on the code: when the random draw is 2^63, [int] of it is the least
    [int], which [-out] leaves as it is, and the remainder by 3 is -2: no
    index into the three members [FindN] returned. [Pick] panics. *)
Theorem Pick_negative_index :
  intn (2 ^ 63) 3 = Done (-2) ∧
  (FindN threeBackends (list_byte_of_string "test") 3).2 = None ∧
  length (FindN threeBackends (list_byte_of_string "test") 3).1 = 3%nat ∧
  Pick threeBackends 3 testCall (2 ^ 63) = Panicked.
Proof. vm_compute. repeat split; reflexivity. Qed.

Lemma intn_range_witness : ∃ k : Z, intn 12345 2 = Done k ∧ 0 ≤ k < Z.of_nat 2.
Proof.
  apply (intn_range 12345 2).
  - split; [lia | reflexivity].
  - discriminate.
  - lia.
Defined.

Lemma Pick_returns_witness :
  match FindN threeBackends (list_byte_of_string "test") 2 with
  | (_, Some e) => None = Some e ∧ {| PickResult_SubConn := Some 1%nat |} = {| PickResult_SubConn := None |}
  | (members, None) =>
      None = (None : option error) ∧
      ∃ (index : Z) (chosen : subConnMember),
        (if (1 <? 2)%nat then intn 12345 2 = Done index else index = 0) ∧
        0 ≤ index ∧
        members !! Z.to_nat index = Some chosen ∧
        {| PickResult_SubConn := Some 1%nat |} =
          {| PickResult_SubConn := Some (sc_SubConn chosen) |}
  end.
Proof.
  apply (Pick_returns threeBackends 2 (list_byte_of_string "test") 12345
           {| PickResult_SubConn := Some 1%nat |} None).
  vm_compute. reflexivity.
Defined.

(** *** [Pick] at the edge *)

(** [Pick] panics when the context holds no byte slice under [CtxKey], and
    for any key when the spread is 0 ([FindN] then returns no members and
    nil, and member 0 of nothing is taken). It returns an error in one case
    only, with no sub-connection: [ErrNotEnoughMembers], exactly when the
    spread is larger than the number of members of the ring. *)
Theorem Pick_edges (hr : Ring) (spread : nat) (info : PickInfo) (sum64 : Z) :
  ((∀ key : list byte, Ctx_Value_CtxKey info ≠ Some (ctxBytes key)) →
     Pick hr spread info sum64 = Panicked) ∧
  (∀ key : list byte,
      Ctx_Value_CtxKey info = Some (ctxBytes key) →
      (spread = 0%nat → Pick hr spread info sum64 = Panicked) ∧
      ((size (nodes hr) < spread)%nat →
         Pick hr spread info sum64 =
           Done ({| PickResult_SubConn := None |}, Some ErrNotEnoughMembers)) ∧
      (∀ (res : PickResult) (e : error),
          Pick hr spread info sum64 = Done (res, Some e) →
          e = ErrNotEnoughMembers ∧ (size (nodes hr) < spread)%nat ∧
          res = {| PickResult_SubConn := None |})).
Proof.
  split.
  - intros Hno. unfold Pick. destruct (Ctx_Value_CtxKey info) as [[key|]|]; try reflexivity.
    now destruct (Hno key).
  - intros key Hkey. unfold Pick, FindN. rewrite Hkey. split; [|split].
    + intros ->. cbn [Nat.ltb Nat.leb].
      destruct (length (virtualNodes hr)) as [|fuel]; cbn [walk].
      * reflexivity.
      * rewrite andb_false_r. reflexivity.
    + intros Hlt. destruct (Nat.ltb_spec (size (nodes hr)) spread) as [_|]; [|lia].
      reflexivity.
    + intros res e. destruct (Nat.ltb_spec (size (nodes hr)) spread) as [Hlt|Hge].
      * intros [= <- <-]. auto.
      * destruct (if (1 <? spread)%nat then intn sum64 spread else Done 0) as [index|];
          [|discriminate].
        destruct (index <? 0); [discriminate|].
        destruct (_ !! Z.to_nat index); discriminate.
Qed.

(** *** Concrete runs of the callbacks *)

Definition config21 : BalancerConfig := {| ReplicationFactor := 2; Spread := 1 |}.

(** The ring [hashring.MustNew] makes for the balancer of the examples. *)
Definition ring0 : Ring (M := subConnMember) :=
  {| hashfn := fnv1a; replicationFactor := 2; nodes := ∅; virtualNodes := [] |}.

(** [newBalancer] after the configuration step of its first update. *)
Definition configured : fakeBalancer :=
  set_config (set_hashring (set_resolverErr newBalancer None) (Some (0%nat, ring0)))
    (Some config21).

Definition firstUpdate : ClientConnState :=
  {| Addresses := [t1]; ClientConnState_BalancerConfig := Some config21 |}.

Lemma synced_configured : synced configured 0 ring0.
Proof.
  split.
  - reflexivity.
  - now apply (withoutTies_New fnv1a 2).
  - reflexivity.
  - intros k rec Hk. cbn in Hk. now rewrite lookup_empty in Hk.
  - intros a sc Ha. cbn in Ha. now rewrite lookup_empty in Ha.
  - intros a1 a2 [sc Ha]. cbn in Ha. now rewrite lookup_empty in Ha.
Qed.

Lemma fnv1a_t1 (sc : SubConn) : distinctHashes fnv1a 2 (memberOf t1 sc).
Proof.
  apply (distinctHashes_Key fnv1a 2 (memberOf t1 0%nat)); [reflexivity|].
  unfold distinctHashes. apply (bool_decide_unpack _). vm_compute. exact I.
Qed.

Lemma fake_NewSubConn_total (c : fakeClientConn) (a : Address) :
  ∃ (c' : fakeClientConn) (sc : SubConn), fake_NewSubConn c a = (c', inl sc).
Proof. now exists (S c), c. Qed.

Lemma UpdateClientConnState_panics_witness :
  let s := {| Addresses := [t1];
              ClientConnState_BalancerConfig :=
                Some {| ReplicationFactor := 0; Spread := 1 |} |} in
  (UpdateClientConnState fake_NewSubConn grpc_RecordTransition newBalancer s = Panicked ↔
   ∃ c : BalancerConfig,
     ClientConnState_BalancerConfig s = Some c ∧ ReplicationFactor c < 1) ∧
  ∀ (b' : fakeBalancer) (calls : list call) (err : error),
    UpdateClientConnState fake_NewSubConn grpc_RecordTransition newBalancer s =
      Done (b', calls, Some err) →
    err = fmt_Errorf "no hashring configured" [] None ∨
    err = fmt_Errorf "couldn't add to hashring" [] None ∨
    err = ErrBadResolverState.
Proof.
  apply (UpdateClientConnState_panics fake_NewSubConn grpc_RecordTransition newBalancer
           {| Addresses := [t1];
              ClientConnState_BalancerConfig :=
                Some {| ReplicationFactor := 0; Spread := 1 |} |}).
  apply reachable_Build.
Defined.

Lemma UpdateClientConnState_unconfigured_witness :
  let b := newBalancer in
  let s := {| Addresses := [t1]; ClientConnState_BalancerConfig := None |} in
  hashring b = None ∧ config b = None ∧ subConns b = ∅ ∧ scStates b = ∅ ∧
  (∀ (sc : SubConn) (st : SubConnState),
      UpdateSubConnState grpc_RecordTransition b sc st = (b, [])) ∧
  ∃ b' : fakeBalancer,
    UpdateClientConnState fake_NewSubConn grpc_RecordTransition b s =
      Done (b', [UpdateState (state b) (ErrPicker (errors_Join [connErr b; None]))],
            Some (fmt_Errorf "no hashring configured" [] None)) ∧
    subConns b' = ∅ ∧ hashring b' = None ∧ state b' = state b ∧ cc b' = cc b.
Proof.
  apply (UpdateClientConnState_unconfigured fake_NewSubConn grpc_RecordTransition
           newBalancer {| Addresses := [t1]; ClientConnState_BalancerConfig := None |}).
  - apply unconfigured_Build.
  - reflexivity.
Defined.

Lemma oneBackend_subConns (a : Address) :
  a ∈ [t1] ↔ is_Some (subConns oneBackend !! a).
Proof.
  pose proof oneBackend_state as (Hmap & _). split.
  - intros Ha. apply list_elem_of_singleton in Ha as ->. exists 0%nat.
    assert ((t1, 0%nat) ∈ map_to_list (subConns oneBackend)) as Hin
      by (rewrite Hmap; now left).
    exact (proj1 (elem_of_map_to_list _ _ _) Hin).
  - intros [sc Hsc].
    assert ((a, sc : nat) ∈ map_to_list (subConns oneBackend)) as Hin
      by exact (proj2 (elem_of_map_to_list _ _ _) Hsc).
    rewrite Hmap in Hin. apply list_elem_of_singleton in Hin.
    injection Hin as -> _. now left.
Qed.

Lemma UpdateClientConnState_steady_witness :
  let b := oneBackend in
  let s := {| Addresses := [t1]; ClientConnState_BalancerConfig := None |} in
  let p :=
    if decide (state b = TransientFailure)
    then ErrPicker (errors_Join [connErr b; None])
    else ringPicker 0 (Spread config21) in
  UpdateClientConnState fake_NewSubConn grpc_RecordTransition b s =
    Done (set_picker (set_resolverErr b None) p, [UpdateState (state b) p], None) ∧
  ∀ (b' : fakeBalancer) (calls : list call) (err : option error),
    UpdateClientConnState fake_NewSubConn grpc_RecordTransition b s =
      Done (b', calls, err) →
    UpdateClientConnState fake_NewSubConn grpc_RecordTransition b' s =
      Done (b', calls, err).
Proof.
  apply (UpdateClientConnState_steady fake_NewSubConn grpc_RecordTransition oneBackend
           {| Addresses := [t1]; ClientConnState_BalancerConfig := None |}
           0 (ringOf oneBackend) config21).
  - exact oneBackend_hashring.
  - exact (proj1 (proj2 (proj2 oneBackend_state))).
  - discriminate.
  - discriminate.
  - exact oneBackend_subConns.
Defined.

Lemma UpdateClientConnState_tracks_witness :
  let b := newBalancer in
  let p :=
    if decide (state b = TransientFailure)
    then ErrPicker (errors_Join [connErr b; None])
    else ringPicker 0 (Spread config21) in
  ∃ (b' : fakeBalancer) (hr' : Ring) (scs gone : list SubConn),
    UpdateClientConnState fake_NewSubConn grpc_RecordTransition b firstUpdate =
      Done (b',
            (Connect <$> scs) ++ (RemoveSubConn <$> gone) ++ [UpdateState (state b) p],
            None) ∧
    synced b' 0 hr' ∧
    (∀ a : Address, is_Some (subConns b' !! a) ↔ a ∈ Addresses firstUpdate) ∧
    (∀ a : Address,
        a ∈ Addresses firstUpdate → is_Some (subConns b !! a) →
        subConns b' !! a = subConns b !! a) ∧
    (∀ sc : SubConn,
        sc ∈ scs ↔
        ∃ a : Address,
          a ∈ Addresses firstUpdate ∧ subConns b !! a = None ∧
          subConns b' !! a = Some sc) ∧
    (∀ sc : SubConn,
        sc ∈ gone ↔
        ∃ a : Address, (a ∉ Addresses firstUpdate) ∧ subConns b !! a = Some sc) ∧
    state b' = state b ∧ picker b' = p ∧ resolverErr b' = None.
Proof.
  apply (UpdateClientConnState_tracks fake_NewSubConn grpc_RecordTransition newBalancer
           configured firstUpdate 0 ring0 config21).
  - reflexivity.
  - exact synced_configured.
  - reflexivity.
  - discriminate.
  - exact fake_NewSubConn_total.
  - intros a1 a2 [H1|[x H1]] [H2|[y H2]] _;
      try (cbn in H1; now rewrite lookup_empty in H1);
      try (cbn in H2; now rewrite lookup_empty in H2).
    apply list_elem_of_singleton in H1, H2. congruence.
  - intros a sc Ha _. apply list_elem_of_singleton in Ha as ->. apply fnv1a_t1.
Defined.

(** The first update, run: one sub-connection is made and asked to
    connect, and CONNECTING is published with a picker on ring 0. *)
Example firstUpdate_run :
  match UpdateClientConnState fake_NewSubConn grpc_RecordTransition newBalancer
          firstUpdate with
  | Done (b', calls, err) =>
      err = None ∧
      calls = [Connect 0%nat; UpdateState Connecting (ringPicker 0 1)] ∧
      map_to_list (subConns b') = [(t1, 0%nat)]
  | Panicked => False
  end.
Proof. vm_compute. repeat split; reflexivity. Qed.

(** A balancer with the one backend [t1] on its ring. *)
Definition ringT1 : Ring := (Add ring0 (memberOf t1 0%nat)).1.

Definition withT1 : fakeBalancer :=
  set_subConns (set_hashring configured (Some (0%nat, ringT1))) {[t1 := 0%nat]}.

Lemma synced_withT1 : synced withT1 0 ringT1.
Proof.
  destruct (synced_add configured 0 ring0 t1 0%nat synced_configured)
    as (hr' & HA & _ & _ & Hstep).
  - reflexivity.
  - intros a [sc Ha]. cbn in Ha. now rewrite lookup_empty in Ha.
  - apply fnv1a_t1.
  - assert (ringT1 = hr') as Heq by (unfold ringT1; now rewrite HA).
    unfold withT1. rewrite Heq. apply Hstep; reflexivity.
Qed.

Lemma Pick_current_backend_witness :
  ∃ (addr : Address) (sc : SubConn) (index : nat),
    Pick ringT1 1 {| Ctx_Value_CtxKey := Some (ctxBytes (list_byte_of_string "test")) |}
      12345 =
      Done ({| PickResult_SubConn := Some sc |}, None) ∧
    subConns withT1 !! addr = Some sc ∧
    (FindN ringT1 (list_byte_of_string "test") 1).1 !! index = Some (memberOf addr sc) ∧
    (index < 1)%nat ∧
    (1%nat = 1%nat → index = 0%nat).
Proof.
  apply (Pick_current_backend withT1 0 ringT1 1 (list_byte_of_string "test") 12345).
  - exact synced_withT1.
  - cbn [withT1 set_subConns subConns]. rewrite map_size_singleton. lia.
  - lia.
Defined.

(** A decoder for the examples: the document [{}] sets no field. *)
Definition decodeNothing (js : list byte) (z : BalancerConfig)
    : BalancerConfig * option error :=
  (z, None).

Lemma ParseConfig_defaults_witness :
  let bld := NewBuilder fnv1a in
  let js := list_byte_of_string "{}" in
  let raw := (decodeNothing js {| ReplicationFactor := 0; Spread := 0 |}).1 in
  match ParseConfig decodeNothing bld js with
  | (bld', Some cfg, None) =>
      (decodeNothing js {| ReplicationFactor := 0; Spread := 0 |}).2 = None ∧
      builder_config bld' = cfg ∧ builder_hashfn bld' = builder_hashfn bld ∧
      ReplicationFactor cfg =
        (if ReplicationFactor raw =? 0 then 100 else ReplicationFactor raw) ∧
      Spread cfg = (if (Spread raw =? 0)%nat then 1%nat else Spread raw) ∧
      1 ≤ ReplicationFactor cfg ∧ (1 ≤ Spread cfg)%nat ∧
      ∀ (b : fakeBalancer) (addrs : list Address),
        reachableBalancer fake_NewSubConn grpc_RecordTransition b →
        UpdateClientConnState fake_NewSubConn grpc_RecordTransition b
          {| Addresses := addrs; ClientConnState_BalancerConfig := Some cfg |} ≠ Panicked
  | (bld', None, Some e) =>
      bld' = bld ∧
      ∃ e0 : error,
        (decodeNothing js {| ReplicationFactor := 0; Spread := 0 |}).2 = Some e0 ∧
        e = fmt_Errorf "wrr: unable to unmarshal LB policy config: %s, error: %w"
              [ArgString (string_of_list_byte js)] (Some e0)
  | _ => False
  end.
Proof.
  apply (ParseConfig_defaults fake_NewSubConn grpc_RecordTransition decodeNothing
           (NewBuilder fnv1a) (list_byte_of_string "{}")).
  cbn. lia.
Defined.

Example ParseConfig_run :
  (ParseConfig decodeNothing (NewBuilder fnv1a) (list_byte_of_string "{}")).1.2 =
    Some {| ReplicationFactor := 100; Spread := 1 |}.
Proof. reflexivity. Qed.

(** An update for [oneBackend] that keeps its address and changes the
    replication factor from 2 to 3. *)
Definition newFactor : ClientConnState :=
  {| Addresses := [t1];
     ClientConnState_BalancerConfig := Some {| ReplicationFactor := 3; Spread := 1 |} |}.

Lemma UpdateClientConnState_new_factor_witness :
  let b := oneBackend in
  let c' := {| ReplicationFactor := 3; Spread := 1 |} in
  let hr' : Ring :=
    {| hashfn := hasher b; replicationFactor := ReplicationFactor c';
       nodes := ∅; virtualNodes := [] |} in
  let p :=
    if decide (state b = TransientFailure)
    then ErrPicker (errors_Join [connErr b; None])
    else ringPicker 1 (Spread c') in
  let b' :=
    set_picker
      (set_config (set_hashring (set_resolverErr b None) (Some (1%nat, hr'))) (Some c')) p in
  UpdateClientConnState fake_NewSubConn grpc_RecordTransition b newFactor =
    Done (b', [UpdateState (state b) p], None) ∧
  subConns b' = subConns b ∧
  (1 ≤ size (subConns b'))%nat ∧
  (∀ (key : list byte) (spread : nat) (sum64 : Z),
      (1 ≤ spread)%nat →
      Pick hr' spread {| Ctx_Value_CtxKey := Some (ctxBytes key) |} sum64 =
        Done ({| PickResult_SubConn := None |}, Some ErrNotEnoughMembers)) ∧
  UpdateClientConnState fake_NewSubConn grpc_RecordTransition b' newFactor =
    Done (b', [UpdateState (state b) p], None).
Proof.
  apply (UpdateClientConnState_new_factor fake_NewSubConn grpc_RecordTransition oneBackend
           newFactor 0 (ringOf oneBackend) config21 {| ReplicationFactor := 3; Spread := 1 |}).
  - exact oneBackend_hashring.
  - exact (proj1 (proj2 (proj2 oneBackend_state))).
  - reflexivity.
  - discriminate.
  - cbn. lia.
  - discriminate.
  - exact oneBackend_subConns.
Defined.

(** That update, run: nil, one state published, one backend known,
    and a ring without members. *)
Example newFactor_run :
  match UpdateClientConnState fake_NewSubConn grpc_RecordTransition oneBackend
          newFactor with
  | Done (b', calls, err) =>
      err = None ∧
      calls = [UpdateState Connecting (ringPicker 1 1)] ∧
      map_to_list (subConns b') = [(t1, 0%nat)] ∧
      size (nodes (ringOf b')) = 0%nat
  | Panicked => False
  end.
Proof. vm_compute. repeat split; reflexivity. Qed.

(** An address other than [t1] with the key of [t1]. *)
Definition t1' : Address := {| ServerName := ""; Addr := "t1" |}.

Lemma UpdateClientConnState_key_collision_witness :
  ∃ b' : fakeBalancer,
    UpdateClientConnState fake_NewSubConn grpc_RecordTransition withT1
      {| Addresses := [t1']; ClientConnState_BalancerConfig := None |} =
      Done (b', [Connect 0%nat], Some (fmt_Errorf "couldn't add to hashring" [] None)) ∧
    subConns b' = <[t1' := 0%nat]> (subConns withT1) ∧
    scStates b' = <[0%nat := Idle]> (scStates withT1) ∧
    hashring b' = Some (0%nat, ringT1) ∧
    picker b' = picker withT1 ∧ state b' = state withT1 ∧
    size (subConns b') = S (size (nodes ringT1)).
Proof.
  apply (UpdateClientConnState_key_collision fake_NewSubConn grpc_RecordTransition withT1
           {| Addresses := [t1']; ClientConnState_BalancerConfig := None |}
           0 ringT1 t1' t1 0%nat 0%nat 1%nat []).
  - exact synced_withT1.
  - discriminate.
  - reflexivity.
  - cbn [withT1 set_subConns subConns]. now apply lookup_singleton_ne.
  - cbn [withT1 set_subConns subConns]. apply lookup_singleton_eq.
  - reflexivity.
  - reflexivity.
Defined.

Lemma connErr_one_writer_witness :
  let b := newBalancer in
  let b' := (ResolverError newBalancer None).1 in
  hasher b' = hasher b ∧
  (connErr b' = connErr b ∨
   ∃ (sc : SubConn) (st : SubConnState),
     b' = (UpdateSubConnState grpc_RecordTransition b sc st).1 ∧
     is_Some (scStates b !! sc) ∧
     ConnectivityState st = TransientFailure ∧
     connErr b' = ConnectionError st).
Proof.
  apply (connErr_one_writer fake_NewSubConn grpc_RecordTransition newBalancer
           (ResolverError newBalancer None).1).
  - apply reachable_Build.
  - apply callback_ResolverError.
Defined.

(** A client connection that cannot make sub-connections. *)
Definition failing_NewSubConn (c : fakeClientConn) (addr : Address)
    : fakeClientConn * (SubConn + error) :=
  (S c, inr (errors_New "cannot create sub-connection")).

Definition t2 : Address := {| ServerName := "t"; Addr := "2" |}.

Lemma UpdateClientConnState_NewSubConn_fails_witness :
  let b := oneBackend in
  let s := {| Addresses := [t1; t2]; ClientConnState_BalancerConfig := None |} in
  let p :=
    if decide (state b = TransientFailure)
    then ErrPicker (errors_Join [connErr b; None])
    else ringPicker 0 (Spread config21) in
  ∃ c1 : fakeClientConn,
    UpdateClientConnState failing_NewSubConn grpc_RecordTransition b s =
      Done (set_picker (set_cc (set_resolverErr b None) c1) p,
            [UpdateState (state b) p], None) ∧
    ∀ a : Address,
      a ∈ Addresses s → subConns b !! a = None →
      subConns (set_picker (set_cc (set_resolverErr b None) c1) p) !! a = None.
Proof.
  apply (UpdateClientConnState_NewSubConn_fails failing_NewSubConn grpc_RecordTransition
           oneBackend {| Addresses := [t1; t2]; ClientConnState_BalancerConfig := None |}
           0 (ringOf oneBackend) config21).
  - exact oneBackend_hashring.
  - exact (proj1 (proj2 (proj2 oneBackend_state))).
  - discriminate.
  - discriminate.
  - intros a Ha. apply oneBackend_subConns in Ha.
    apply list_elem_of_singleton in Ha as ->. now left.
  - intros c0 a. now exists (S c0), (errors_New "cannot create sub-connection").
Defined.

End consistent.
